(** * raid-helper: the status reader, the progress bar and the reboot loop

    A shallow embedding of [main.go].  The program reads [/proc/mdstat]
    through a [bufio.Scanner], extracts a few facts from its lines with
    [strings.Contains] and two regular expressions, renders a textual
    progress bar and polls until no check is running before it reboots.

    Conventions of the embedding:
    - a Go [string] is a [string] of bytes ([ascii]); the two patterns of the
      program only name ASCII bytes, so matching bytes and matching runes
      select the same substrings;
    - a Go [int] is a [Z]; the only place where the 64-bit range matters
      (the conversion of a [float64] and the subtractions that follow it)
      has its wrap-around written out; counters of lines and of bytes stay
      far below [2^63];
    - a Go [float64] is an IEEE 754 binary64 number, a [spec_float] with the
      operations of the standard library's specification at precision 53,
      rounding to nearest even;
    - a Go [(value, error)] result is a pair whose second component is an
      [option error];
    - a panic is [None], or the event [Panic] in a trace;
    - the file system is a parameter: each open of [/proc/mdstat] observes a
      value of type [mdstat], the lines that the scanner delivers and
      whether it stops with an error;
    - memory is a parameter of the functions that build strings of a
      length given by their caller: [strings.Repeat] and [drawProgressBar]
      take the length of the longest string that the machine has room for,
      and end the run ([None]) on a longer one.  The strings of the program
      itself, lines of less than 64 KiB and bars of 20 and 50 bytes, are
      taken to fit: the commands run with the largest memory there is. *)

From Stdlib Require Import ZArith Lia Bool List String Ascii.
From Stdlib Require Import Reals Lra Psatz.
From Stdlib Require Import DecimalString.
From Corelib Require Import SpecFloat.
Import ListNotations.

Local Open Scope string_scope.
Local Open Scope Z_scope.

(** ** Package [strings] *)

Module Strings.

(** [strings.HasPrefix(s, prefix)]. *)
Fixpoint HasPrefix (s prefix : string) {struct prefix} : bool :=
  match prefix with
  | EmptyString => true
  | String p prefix' =>
      match s with
      | EmptyString => false
      | String c s' => Ascii.eqb c p && HasPrefix s' prefix'
      end
  end.

(** [strings.Contains(s, substr)]: [substr] occurs at some offset of [s]. *)
Fixpoint Contains (s substr : string) : bool :=
  if HasPrefix s substr then true
  else match s with
       | EmptyString => false
       | String _ s' => Contains s' substr
       end.

(** [strings.Count(s, sep)] for a one-byte [sep]. *)
Fixpoint Count (s : string) (sep : ascii) : Z :=
  match s with
  | EmptyString => 0
  | String c s' => (if Ascii.eqb c sep then 1 else 0) + Count s' sep
  end.

(** [len(s)]. *)
Definition len (s : string) : Z := Z.of_nat (String.length s).

Fixpoint replicate (n : nat) (c : ascii) : string :=
  match n with
  | O => EmptyString
  | S n' => String c (replicate n' c)
  end.

(** [maxAlloc] of the run-time system on a 64-bit platform: no allocation
    is larger, and asking for a larger one is the panic "makeslice: len out
    of range". *)
Definition maxAlloc : Z := 2 ^ 48.

(** Whether a string of [n] bytes can be allocated when [memory] is the
    length of the longest string that the machine has room for. *)
Definition fits (memory n : Z) : bool := (n <=? memory) && (n <=? maxAlloc).

(** A string that the program builds, by concatenation or by formatting;
    [None] is the end of the run for want of memory. *)
Definition build (memory : Z) (s : string) : option string :=
  if fits memory (len s) then Some s else None.

(** [strings.Repeat(s, count)] for a one-byte [s]; [None] is the panic
    "strings: negative Repeat count", or the end of the run when the result
    cannot be allocated. *)
Definition Repeat (memory : Z) (c : ascii) (count : Z) : option string :=
  if count <? 0 then None
  else if fits memory count then Some (replicate (Z.to_nat count) c)
  else None.

End Strings.

(** ** Package [regexp], as far as the two patterns need it *)

Module Regexp.

(** One position of a pattern: a literal byte, a class [[...]] or a
    negated class [[^...]]. *)
Inductive atom : Type :=
| Byte (c : ascii)
| Class (cs : list ascii)
| NegClass (cs : list ascii).

Inductive regex : Type :=
| One (a : atom)
| Plus (a : atom)                (* a+, greedy *)
| Seq (r1 r2 : regex)
| Group (r : regex).             (* ( r ), the capturing group *)

Fixpoint mem (c : ascii) (cs : list ascii) : bool :=
  match cs with
  | [] => false
  | d :: cs' => Ascii.eqb c d || mem c cs'
  end.

Definition accepts (a : atom) (c : ascii) : bool :=
  match a with
  | Byte d => Ascii.eqb c d
  | Class cs => mem c cs
  | NegClass cs => negb (mem c cs)
  end.

(** The part of [s] consumed when [rest] is what remains of it. *)
Definition consumed (s rest : string) : string :=
  substring 0 (String.length s - String.length rest) s.

Section Backtracking.
Context {A : Type}.

(** [a+] against [s]: the longest run is tried first, then shorter
    ones. *)
Fixpoint plus (a : atom) (s : string) (k : string -> option A)
  : option A :=
  match s with
  | EmptyString => None
  | String c rest =>
      if accepts a c then
        match plus a rest k with
        | Some r => Some r
        | None => k rest
        end
      else None
  end.

(** [run r s cap k]: match [r] at the start of [s], then continue with
    [k] on the remaining input and the capture made so far. *)
Fixpoint run (r : regex) (s : string) (cap : option string)
  (k : string -> option string -> option A) : option A :=
  match r with
  | One a =>
      match s with
      | EmptyString => None
      | String c rest => if accepts a c then k rest cap else None
      end
  | Plus a => plus a s (fun rest => k rest cap)
  | Seq r1 r2 => run r1 s cap (fun s1 cap1 => run r2 s1 cap1 k)
  | Group r0 => run r0 s cap (fun s1 _ => k s1 (Some (consumed s s1)))
  end.
End Backtracking.

(** The pattern that matches the bytes of [s] and then [r]. *)
Fixpoint lit (s : string) (r : regex) : regex :=
  match s with
  | EmptyString => r
  | String c s' => Seq (One (Byte c)) (lit s' r)
  end.

(** [re.FindStringSubmatch(s)] for a pattern with one group: the leftmost
    match and its group, or [nil]. *)
Fixpoint FindStringSubmatch (re : regex) (s : string) : list string :=
  match run re s None (fun rest cap => Some (rest, cap)) with
  | Some (rest, cap) =>
      [consumed s rest; match cap with Some g => g | None => EmptyString end]
  | None =>
      match s with
      | EmptyString => []
      | String _ s' => FindStringSubmatch re s'
      end
  end.

End Regexp.

(** ** [float64] *)

Module Float64.

Definition float64 : Type := spec_float.

Definition prec : Z := 53.
Definition emax : Z := 1024.

Definition mul : float64 -> float64 -> float64 := SFmul prec emax.
Definition div : float64 -> float64 -> float64 := SFdiv prec emax.
Definition leb : float64 -> float64 -> bool := SFleb.

(** Every [float64] of a running program is a valid binary64 number. *)
Definition valid (x : float64) : bool := valid_binary prec emax x.

(** [float64(n)] for an [int] [n]: the nearest binary64 number. *)
Definition ofInt (n : Z) : float64 := binary_normalize prec emax n 0 false.

Definition zero : float64 := S754_zero false.
Definition hundred : float64 := Eval vm_compute in ofInt 100.

Definition minInt : Z := - 2 ^ 63.
Definition maxInt : Z := 2 ^ 63 - 1.

(** Two's-complement wrap-around of [int] arithmetic. *)
Definition wrap64 (z : Z) : Z := (z + 2 ^ 63) mod 2 ^ 64 - 2 ^ 63.

(** [int(x)]: the fraction is discarded.  For a NaN, an infinity or a value
    outside the range of [int] the language leaves the result to the
    implementation; amd64 yields the smallest [int]. *)
Definition toInt (x : float64) : Z :=
  match x with
  | S754_zero _ => 0
  | S754_finite s m e =>
      let t := Z.shiftl (Zpos m) e in
      let v := if s then - t else t in
      if (minInt <=? v) && (v <=? maxInt) then v else minInt
  | _ => minInt
  end.

(** The integer nearest to [m * 2^e * 10], ties to even. *)
Definition tenths (m : positive) (e : Z) : Z :=
  if 0 <=? e then Zpos m * 10 * 2 ^ e
  else
    let den := 2 ^ (- e) in
    let num := Zpos m * 10 in
    let q := num / den in
    match 2 * (num mod den) ?= den with
    | Lt => q
    | Eq => if Z.even q then q else q + 1
    | Gt => q + 1
    end.

Definition decimal (n : Z) : string :=
  NilZero.string_of_uint (N.to_uint (Z.to_N n)).

(** The verb [%.1f]. *)
Definition format1 (x : float64) : string :=
  match x with
  | S754_nan => "NaN"
  | S754_infinity s => if s then "-Inf" else "+Inf"
  | S754_zero s => (if s then "-" else EmptyString) ++ "0.0"
  | S754_finite s m e =>
      let t := tenths m e in
      (if s then "-" else EmptyString) ++ decimal (t / 10) ++ "." ++ decimal (t mod 10)
  end.

End Float64.

Import Strings Regexp Float64.

(** ** The status reader *)

Inductive error : Type :=
| FailedToOpen            (* "failed to open %s: %w" *)
| FailedToRead            (* "failed to read %s: %w" *)
| NoProgressInformation   (* "no progress information found" *)
| ExecFailed.             (* the error of [cmd.Run] *)

(** What one [os.Open] of [/proc/mdstat] followed by a scan observes: the open
    fails, or the scanner delivers [lines] and then stops, at the end of the
    file ([scanErr = false]) or with an error ([scanErr = true]). *)
Inductive mdstat : Type :=
| OpenFails
| Opened (lines : list string) (scanErr : bool).

(** A file that is read without any error. *)
Definition readable (f : mdstat) : Prop :=
  exists lines, f = Opened lines false.

(** [bufio.MaxScanTokenSize]: the scanner never delivers a longer line. *)
Definition MaxScanTokenSize : Z := 64 * 1024.

(** The lines of [f] are lines that a scanner can deliver. *)
Definition scannerLines (f : mdstat) : Prop :=
  match f with
  | OpenFails => True
  | Opened lines _ => Forall (fun l => len l < MaxScanTokenSize) lines
  end.

(** The loop of [getMdChecking]: [count++] on every line with "check". *)
Fixpoint countChecking (lines : list string) (count : Z) : Z :=
  match lines with
  | [] => count
  | line :: rest =>
      countChecking rest (if Contains line "check" then count + 1 else count)
  end.

Definition getMdChecking (f : mdstat) : Z * option error :=
  match f with
  | OpenFails => (0, Some FailedToOpen)
  | Opened lines scanErr =>
      let count := countChecking lines 0 in
      if scanErr then (0, Some FailedToRead) else (count, None)
  end.

(** [\[([=>\.]+)\]] *)
Definition progressRe : regex :=
  Seq (One (Byte "["))
      (Seq (Group (Plus (Class ["="%char; ">"%char; "."%char])))
           (One (Byte "]"))).

(** [float64(completed) / float64(total) * 100] for the captured bar. *)
Definition barPercent (progress : string) : float64 :=
  let completed := Count progress "=" + Count progress ">" in
  let total := len progress in
  mul (div (ofInt completed) (ofInt total)) hundred.

(** The loop of [getMdProgress]: the value returned from inside the loop, if
    any. *)
Fixpoint scanProgress (lines : list string) : option float64 :=
  match lines with
  | [] => None
  | line :: rest =>
      if Contains line "check" || Contains line "resync" then
        match FindStringSubmatch progressRe line with
        | _ :: progress :: _ => Some (barPercent progress)
        | _ => scanProgress rest
        end
      else scanProgress rest
  end.

Definition getMdProgress (f : mdstat) : float64 * option error :=
  match f with
  | OpenFails => (zero, Some FailedToOpen)
  | Opened lines scanErr =>
      match scanProgress lines with
      | Some p => (p, None)
      | None =>
          if scanErr then (zero, Some FailedToRead)
          else (zero, Some NoProgressInformation)
      end
  end.

(** The pattern of [getMdTimeLeft].  It is written in a raw string literal,
    where a backslash is not an escape of the language: the class is
    [[^\\s]], the bytes other than a backslash and the letter s. *)
Definition finishRe : regex :=
  lit "finish=" (Group (Plus (NegClass ["092"%char; "s"%char]))).

Fixpoint scanTimeLeft (lines : list string) : option string :=
  match lines with
  | [] => None
  | line :: rest =>
      if Contains line "finish" then
        match FindStringSubmatch finishRe line with
        | _ :: token :: _ => Some token
        | _ => scanTimeLeft rest
        end
      else scanTimeLeft rest
  end.

Definition getMdTimeLeft (f : mdstat) : string * option error :=
  match f with
  | OpenFails => (EmptyString, Some FailedToOpen)
  | Opened lines scanErr =>
      match scanTimeLeft lines with
      | Some token => (token, None)
      | None => if scanErr then (EmptyString, Some FailedToRead) else (EmptyString, None)
      end
  end.

(** ** The progress bar *)

(** [int(float64(width) * percent / 100)] *)
Definition completedUnits (percent : float64) (width : Z) : Z :=
  toInt (div (mul (ofInt width) percent) hundred).

(** [None] is the end of the run: a panic of [strings.Repeat], or a string
    for which there is no room. *)
Definition drawProgressBar (memory : Z) (percent : float64) (width : Z)
  : option string :=
  let completed := completedUnits percent width in
  let remaining := wrap64 (width - completed) in
  match Repeat memory "=" completed with
  | None => None
  | Some bar =>
      match (if 0 <? remaining
             then match build memory (bar ++ ">") with
                  | Some bar => Some (bar, wrap64 (remaining - 1))
                  | None => None
                  end
             else Some (bar, remaining)) with
      | None => None
      | Some (bar, remaining) =>
          match Repeat memory "." remaining with
          | None => None
          | Some dots =>
              match build memory (bar ++ dots) with
              | None => None
              | Some bar =>
                  build memory ("[" ++ bar ++ "] " ++ format1 percent ++ "%")
              end
          end
      end
  end.

(** ** What the program does to the outside world *)

Inductive event : Type :=
| Logf (format : string) (err : error)   (* log.Printf(format, err) *)
| Fatalf (format : string) (err : error) (* log.Fatalf(format, err): log, then exit 1 *)
| Sleep (seconds : Z)                    (* time.Sleep(seconds * time.Second) *)
| Print (text : string)                  (* fmt.Print / Println / Printf *)
| PrintNow                               (* fmt.Println(time.Now().Format(...)) *)
| Panic                                  (* a run-time panic *)
| RunReboot.                             (* exec.Command("reboot").Run() *)

(** The outside world: what the [n]-th open of [/proc/mdstat] observes, and
    whether running [reboot] reports an error. *)
Record world : Type := {
  mdstatAt : nat -> mdstat;
  rebootErr : bool
}.

(** *** The command [progress]

    The bar has 50 bytes; like every other string of the program it is
    taken to fit, so [drawProgressBar] is given the largest memory there
    is, here and in the loop below. *)

Definition progressCmd (w : world) : list event :=
  let '(count, err) := getMdChecking (mdstatAt w 0) in
  match err with
  | Some e => [Fatalf "Error checking RAID status: %v" e]
  | None =>
      if count =? 0 then [Print "No RAID check in progress"]
      else
        let '(progress, err) := getMdProgress (mdstatAt w 1) in
        match err with
        | Some e => [Fatalf "Error getting progress: %v" e]
        | None =>
            let '(timeLeft, err) := getMdTimeLeft (mdstatAt w 2) in
            (match err with
             | Some e => [Logf "Error getting time left: %v" e]
             | None => []
             end ++
             match drawProgressBar maxAlloc progress 50 with
             | None => [Panic]
             | Some bar =>
                 Print bar ::
                 (if String.eqb timeLeft EmptyString then []
                  else [Print ("Time remaining: " ++ timeLeft)%string])
             end)%list
        end
  end.

(** *** [waitForRaidAndReboot] *)

Definition retryBackoff : Z := 10.
Definition pollInterval : Z := 100.

Definition clearScreen : string :=
  String "027" "[2J" ++ String "027" "[H".

Inductive ending : Type :=
| Rebooted          (* [reboot] ran *)
| RebootFailed      (* [reboot] ran and reported an error: fatal *)
| FinalReadFailed   (* the read after the loop failed: fatal *)
| CheckResumed      (* the read after the loop saw a check: plain return *)
| Panicked.

Inductive control : Type :=
| Polling                (* at the head of the [for] loop *)
| Idle                   (* after [break], before the final check *)
| Halted (how : ending).

Record state : Type := {
  at_ : control;
  reads : nat;           (* opens of /proc/mdstat so far *)
  trace : list event     (* events so far, oldest first *)
}.

Definition start : state := {| at_ := Polling; reads := 0; trace := [] |}.

(** The part of the loop body that follows [time.Sleep(100 * time.Second)]:
    two more reads and the status lines; the flag is [false] when drawing
    the bar panics. *)
Definition renderStatus (w : world) (n : nat) : list event * bool :=
  let '(timeLeft, err) := getMdTimeLeft (mdstatAt w n) in
  let shown :=
    (match err with
     | Some e => [Logf "Error getting time left: %v" e]
     | None => []
     end ++
     [PrintNow;
      if String.eqb timeLeft EmptyString
      then Print "Reboot will occur when RAID check completes"
      else Print ("Reboot will occur in " ++ timeLeft)%string])%list in
  let '(progress, err) := getMdProgress (mdstatAt w (S n)) in
  match err with
  | Some _ => (shown, true)
  | None =>
      match drawProgressBar maxAlloc progress 50 with
      | None => ((shown ++ [Panic])%list, false)
      | Some bar => ((shown ++ [Print bar])%list, true)
      end
  end.

(** One iteration of the loop, or the code after the loop. *)
Definition step (w : world) (st : state) : state :=
  match at_ st with
  | Polling =>
      let '(count, err) := getMdChecking (mdstatAt w (reads st)) in
      match err with
      | Some e =>
          {| at_ := Polling;
             reads := S (reads st);
             trace := (trace st ++
                       [Logf "Error checking RAID status: %v" e;
                        Sleep retryBackoff])%list |}
      | None =>
          if count =? 0 then
            {| at_ := Idle; reads := S (reads st); trace := trace st |}
          else
            let '(shown, ok) := renderStatus w (S (reads st)) in
            {| at_ := if ok then Polling else Halted Panicked;
               reads := S (S (S (reads st)));
               trace := (trace st ++
                         [Sleep pollInterval; Print clearScreen] ++ shown)%list |}
      end
  | Idle =>
      let '(count, err) := getMdChecking (mdstatAt w (reads st)) in
      match err with
      | Some e =>
          {| at_ := Halted FinalReadFailed;
             reads := S (reads st);
             trace := (trace st ++
                       [Fatalf "Error in final RAID check: %v" e])%list |}
      | None =>
          if count =? 0 then
            {| at_ := Halted (if rebootErr w then RebootFailed else Rebooted);
               reads := S (reads st);
               trace := (trace st ++
                         [Print "RAID check complete. Rebooting..."; RunReboot] ++
                         (if rebootErr w
                          then [Fatalf "Error executing reboot: %v" ExecFailed]
                          else []))%list |}
          else
            {| at_ := Halted CheckResumed;
               reads := S (reads st);
               trace := trace st |}
      end
  | Halted _ => st
  end.

(** [n] steps of [waitForRaidAndReboot]. *)
Fixpoint steps (w : world) (n : nat) (st : state) : state :=
  match n with
  | O => st
  | S n' => steps w n' (step w st)
  end.

(** What [n] consecutive reads from the [i]-th on add to the trace when each
    of them fails. *)
Fixpoint retries (w : world) (i n : nat) : list event :=
  match n with
  | O => []
  | S n' =>
      (match snd (getMdChecking (mdstatAt w i)) with
       | Some e => [Logf "Error checking RAID status: %v" e; Sleep retryBackoff]
       | None => []
       end ++ retries w (S i) n')%list
  end.

(** The kernel's status while a check runs, and once it is over. *)
Definition mdstatChecking : list string :=
  ["Personalities : [raid6] [raid5] [raid4]";
   "md0 : active raid6 sdd1[3] sdc1[2] sdb1[1] sda1[0]";
   "      976630464 blocks super 1.2 level 6, 512k chunk [4/3] [UUU_]";
   "      [==>..................]  check = 12.6% (123456/654321) finish=37.2min speed=33440K/sec";
   "unused devices: <none>"].

Definition mdstatIdle : list string :=
  ["Personalities : [raid6] [raid5] [raid4]";
   "md0 : active raid6 sdd1[3] sdc1[2] sdb1[1] sda1[0]";
   "      976630464 blocks super 1.2 level 6, 512k chunk [4/4] [UUUU]";
   "unused devices: <none>"].

(** A check announced on a line without a bar. *)
Definition mdstatDelayed : mdstat :=
  Opened ["md0 : active raid1 sdb1[1] sda1[0]";
          "      976630464 blocks super 1.2 [2/2] [UU]";
          "        check=DELAYED"] false.

(** A world where [/proc/mdstat] cannot be opened. *)
Definition unreadableWorld : world :=
  {| mdstatAt := fun _ => OpenFails; rebootErr := false |}.

(** A world where the reads fail now and then: the first read fails, the
    second sees a check, and the two reads that follow it in the body of
    the loop fail again; then the check is over. *)
Definition flakyWorld : world :=
  {| mdstatAt := fun n => match n with
                          | 1%nat => Opened mdstatChecking false
                          | 0%nat | 2%nat | 3%nat => OpenFails
                          | _ => Opened mdstatIdle false
                          end;
     rebootErr := false |}.

(** The file with an empty bracket on its check line. *)
Definition mdstatEmptyBracket : mdstat :=
  Opened ["md0 : active raid1 sdb1[1] sda1[0]";
          "      check [] starting"] false.

(** A bar with 7 fill bytes of 25. *)
Definition mdstatSevenOf25 : mdstat :=
  Opened ["md0 : active raid1 sdb1[1] sda1[0]";
          "      [======>..................]  check = 28.0% (7/25) finish=1.0min speed=1K/sec"]
         false.

(** A world where a check is seen by the first two iterations of the loop
    (three reads each) and is over afterwards. *)
Definition checkThenIdle : world :=
  {| mdstatAt := fun n => if (n <? 6)%nat
                          then Opened mdstatChecking false
                          else Opened mdstatIdle false;
     rebootErr := false |}.

(** The invariant of the loop about [reboot]. *)
Definition confirmed (w : world) (st : state) : Prop :=
  match at_ st with
  | Polling => ~ In RunReboot (trace st)
  | Idle =>
      ~ In RunReboot (trace st) /\
      exists i, reads st = S i /\ getMdChecking (mdstatAt w i) = (0, None)
  | Halted h =>
      In RunReboot (trace st) ->
      h = (if rebootErr w then RebootFailed else Rebooted) /\
      exists i,
        reads st = S (S i) /\
        getMdChecking (mdstatAt w i) = (0, None) /\
        getMdChecking (mdstatAt w (S i)) = (0, None)
  end.

(** ** Vocabulary of the specification *)

(** [sub] is a substring of [s]. *)
Definition occursIn (sub s : string) : Prop :=
  exists pre post, s = pre ++ sub ++ post.

Fixpoint allBytes (P : ascii -> Prop) (s : string) : Prop :=
  match s with
  | EmptyString => True
  | String c s' => P c /\ allBytes P s'
  end.

Fixpoint noByte (c : ascii) (s : string) : Prop :=
  match s with
  | EmptyString => True
  | String d s' => d <> c /\ noByte c s'
  end.

(** The bytes a progress bar is drawn with, and those that count as done. *)
Definition barByte (c : ascii) : Prop :=
  c = "="%char \/ c = ">"%char \/ c = "."%char.

Definition fillByte (c : ascii) : bool :=
  Ascii.eqb c "=" || Ascii.eqb c ">".

(** The number of fill bytes of a bar: the [k] of the specification. *)
Fixpoint fills (s : string) : nat :=
  match s with
  | EmptyString => O
  | String c s' => if fillByte c then S (fills s') else fills s'
  end.

(** The content of a bracket that qualifies as a progress bar. *)
Definition progressBracket (bar : string) : Prop :=
  bar <> EmptyString /\ allBytes barByte bar.

(** [line] is a line of a running check or resync with a progress bar. *)
Definition carriesBar (line : string) : Prop :=
  (occursIn "check" line \/ occursIn "resync" line) /\
  exists pre bar post,
    line = pre ++ "[" ++ bar ++ "]" ++ post /\ progressBracket bar.

(** [line] has the empty bracket as its only bracket. *)
Definition degenerate (line : string) : Prop :=
  exists pre post,
    line = pre ++ "[]" ++ post /\ noByte "[" pre /\ noByte "[" post.

(** [k / L * 100] in [float64] arithmetic. *)
Definition ratioPercent (k L : nat) : float64 :=
  mul (div (ofInt (Z.of_nat k)) (ofInt (Z.of_nat L))) hundred.

(** The lines that contain [sub]. *)
Definition linesWith (sub : string) (lines : list string) : list string :=
  filter (fun l => Contains l sub) lines.

(** A byte that an atom accepts, and the continuation that ends a match. *)
Definition accepted (a : atom) (c : ascii) : Prop := accepts a c = true.

Definition found (rest : string) (cap : option string)
  : option (string * option string) := Some (rest, cap).

(** The length of what [drawProgressBar] returns: the bar, the brackets,
    the blank, the percentage and its sign. *)
Definition outputLength (percent : float64) (width : Z) : Z :=
  width + 4 + len (format1 percent).

(** The bar between the brackets when [completed] bytes are filled. *)
Definition barOf (completed width : Z) : string :=
  replicate (Z.to_nat completed) "=" ++
  (if completed <? width
   then String ">" (replicate (Z.to_nat (width - completed - 1)) ".")
   else EmptyString).

(** ** Real values of [float64] numbers and the steps of a rounding

    The vocabulary in which the arithmetic of [mul], [div], [ofInt] and
    [toInt] is analysed.  A finite number [m * 2^e] has the real value
    [valPos m e]; the rounding of a non-negative rational [a / b * 2^e], the
    one computation behind every operation, is followed step by step:
    [roundExp] is the exponent at which it is cut, [roundMant] the mantissa
    after rounding to nearest even, [normExp] and [normMant] what is left
    after the mantissa has been brought back to 53 bits. *)

(** Where the rational [a / b] lies between two consecutive integers. *)
Definition locOf (a b : Z) : location :=
  if a mod b =? 0 then loc_Exact else loc_Inexact (2 * (a mod b) ?= b).

(** The exponent of the canonical form of a number of magnitude [2^x]. *)
Definition fx (x : Z) : Z := fexp prec emax x.

(** The number that a rounding returns for the mantissa [m] and the exponent
    [e] it ends with. *)
Definition pack (s : bool) (m e : Z) : float64 :=
  match m with
  | Z0 => S754_zero s
  | Zpos p => if e <=? emax - prec then S754_finite s p e else S754_infinity s
  | Zneg _ => S754_nan
  end.

(** The rounding of [a / b * 2^e], step by step. *)
Definition roundExp (a b e : Z) : Z := fx (Zdigits2 (a / b) + e).
Definition roundDen (a b e : Z) : Z := b * 2 ^ (roundExp a b e - e).
Definition roundMant (a b e : Z) : Z :=
  let b1 := roundDen a b e in round_nearest_even (a / b1) (locOf a b1).
Definition normExp (a b e : Z) : Z :=
  fx (Zdigits2 (roundMant a b e) + roundExp a b e).
Definition normMant (a b e : Z) : Z :=
  roundMant a b e / 2 ^ (normExp a b e - roundExp a b e).

(** [2^e] as a real number, the number of bits of a mantissa, and the real
    value of [m * 2^e]. *)
Definition pow2 (e : Z) : R := powerRZ 2 e.
Definition digits (m : Z) : Z := Zdigits2 m.
Definition valPos (m e : Z) : R := (IZR m * pow2 e)%R.

(** The real value of a zero or of a finite number. *)
Definition val (x : float64) : R :=
  match x with
  | S754_finite s m e => if s then (- valPos (Zpos m) e)%R else valPos (Zpos m) e
  | _ => 0%R
  end.

(** A zero, or a positive finite number in canonical form. *)
Definition finiteNonneg (x : float64) : Prop :=
  valid x = true /\
  match x with
  | S754_zero _ => True
  | S754_finite s _ _ => s = false
  | _ => False
  end.

(** The state of the shift register that cuts the low bits of [a / b]: the
    mantissa kept so far, the round bit and the sticky bit. *)
Definition rec_inv (a b : Z) (mrs : shr_record) : Prop :=
  0 <= a /\ 0 < b /\ shr_m mrs = a / b /\
  (shr_r mrs = true <-> b <= 2 * (a mod b)) /\
  (shr_s mrs = true <-> a mod b <> 0 /\ 2 * (a mod b) <> b).

(** The exponent and the numerator at which [div] forms its quotient. *)
Definition divExp (mx my : positive) (ex ey : Z) : Z :=
  Z.min (fx (digits (Zpos mx) + ex - (digits (Zpos my) + ey))) (ex - ey).

Definition divNum (mx my : positive) (ex ey : Z) : Z :=
  Zpos mx * 2 ^ (ex - ey - divExp mx my ex ey).

(** The canonical form of an integer below [2^53]. *)
Definition smallInt (n : Z) : float64 :=
  match n with
  | Zpos p => S754_finite false (Z.to_pos (n * 2 ^ (53 - digits n))) (digits n - 53)
  | _ => S754_zero false
  end.

(** Discharge the premises of [H] that are at hand. *)
Ltac feed H :=
  repeat match type of H with
         | ?P -> _ =>
             let X := fresh in
             assert (X : P) by (assumption || lia); specialize (H X); clear X
         end.

(** * The rest of the program

    The commands that write to the kernel, and the reader of the speed
    limit.  A command is the list of its effects, in order; the file system
    is again a parameter: [writeErr n] says whether the [n]-th call of
    [os.WriteFile] of a run fails.  [log.Fatalf] ends the list.  The sleep of
    [high] is kept in nanoseconds, as the 64-bit product the program
    computes.  Of [strings.TrimSpace] the path for ASCII bytes is written
    out; the two functions it falls back on when it meets another byte are
    parameters. *)

(** ** The estimated time: vocabulary *)

(** The bytes that the class of [finishRe] accepts. *)
Definition tokenByte (c : ascii) : Prop :=
  c <> "092"%char /\ c <> "s"%char.

(** A match of [finishRe] starts right after [pre] in [line]: [finish=] and
    one accepted byte at least. *)
Definition finishAt (pre line : string) : Prop :=
  exists c rest, line = pre ++ "finish=" ++ String c rest /\ tokenByte c.

Definition carriesFinish (line : string) : Prop :=
  exists pre, finishAt pre line.

(** No match starts further to the left. *)
Definition firstFinishAt (pre line : string) : Prop :=
  finishAt pre line /\
  forall pre', finishAt pre' line -> (String.length pre <= String.length pre')%nat.

(** What follows a token: the end of the line, an [s] or a backslash. *)
Definition tokenEnds (rest : string) : Prop :=
  match rest with
  | EmptyString => True
  | String c _ => ~ tokenByte c
  end.

(** [line] is [pre], the leftmost [finish=] that a token follows, the
    longest token [tok] there, and [rest]. *)
Definition finishToken (line pre tok rest : string) : Prop :=
  line = pre ++ "finish=" ++ tok ++ rest /\
  firstFinishAt pre line /\
  allBytes tokenByte tok /\
  tokenEnds rest.

(** The input at which [a+] cannot go on. *)
Definition stops (a : atom) (s : string) : Prop :=
  match s with
  | EmptyString => True
  | String c _ => accepts a c = false
  end.

(** ** The poll loop: vocabulary *)

(** The events that decide when the machine reboots. *)
Definition keepControl (ev : event) : bool :=
  match ev with
  | Sleep _ | RunReboot => true
  | _ => false
  end.

Definition isReboot (ev : event) : bool :=
  match ev with
  | RunReboot => true
  | _ => false
  end.

(** A status read without error in which some line, or no line, contains
    [check]. *)
Definition checking (f : mdstat) : Prop :=
  exists lines,
    f = Opened lines false /\ Exists (fun l => occursIn "check" l) lines.

Definition quiet (f : mdstat) : Prop :=
  exists lines,
    f = Opened lines false /\ Forall (fun l => ~ occursIn "check" l) lines.

(** What the code after the loop adds to the trace when it reboots. *)
Definition rebootEvents (w : world) : list event :=
  ([Print "RAID check complete. Rebooting..."; RunReboot] ++
   (if rebootErr w
    then [Fatalf "Error executing reboot: %v" ExecFailed]
    else []))%list.

(** [reboot] has not run, or it has run once, announced, as the last thing
    but the report of its own failure. *)
Definition rebootIsLast (w : world) (t : list event) : Prop :=
  ~ In RunReboot t \/
  exists pre, ~ In RunReboot pre /\ t = (pre ++ rebootEvents w)%list.

Definition rebootedLast (w : world) (st : state) : Prop :=
  match at_ st with
  | Halted _ => rebootIsLast w (trace st)
  | _ => ~ In RunReboot (trace st)
  end.

(** Two states that agree on where the program stands and on what it has
    done about time and [reboot]. *)
Definition sameControl (st1 st2 : state) : Prop :=
  at_ st1 = at_ st2 /\ reads st1 = reads st2 /\
  filter keepControl (trace st1) = filter keepControl (trace st2).

(** A resync of a rebuilt mirror: a bar and an estimate, and no check. *)
Definition mdstatResync : list string :=
  ["Personalities : [raid1]";
   "md0 : active raid1 sdb1[1] sda1[0]";
   "      97589248 blocks super 1.2 [2/2] [UU]";
   "      [=>...................]  resync =  8.5% (8380416/97589248) finish=127.5min speed=11660K/sec";
   "unused devices: <none>"].

Definition resyncWorld : world :=
  {| mdstatAt := fun _ => Opened mdstatResync false; rebootErr := false |}.

(** A check that starts between the last read of the loop and the read that
    follows the loop. *)
Definition checkResumes : world :=
  {| mdstatAt := fun n => match n with
                          | O => Opened mdstatIdle false
                          | _ => Opened mdstatChecking false
                          end;
     rebootErr := false |}.

(** The same course of events as [checkThenIdle], on an array whose check
    is announced without a bar or an estimate. *)
Definition delayedThenIdle : world :=
  {| mdstatAt := fun n => if (n <? 6)%nat
                          then mdstatDelayed
                          else Opened mdstatIdle false;
     rebootErr := false |}.

(** ** The control writer and the commands *)

Definition speedLimitPath : string := "/proc/sys/dev/raid/speed_limit_max".
Definition syncActionPath : string := "/sys/block/md0/md/sync_action".

Definition normalSpeed : string := "200000".
Definition highSpeed : string := "2000000".
Definition lowSpeed : string := "3000".

(** What a command does, in order. *)
Inductive effect : Type :=
| Say (text : string)               (* fmt.Println / fmt.Printf *)
| Write (path data : string)        (* os.WriteFile succeeded *)
| WriteFailed (path data : string)  (* os.WriteFile returned an error *)
| Wait (nanoseconds : Z)            (* time.Sleep; returns at once when <= 0 *)
| Die (format : string)             (* log.Fatalf(format, err): exit 1 *)
| Polled (ev : event).              (* an event of waitForRaidAndReboot *)

(** [os.WriteFile(path, []byte(data), 0644)]; the flag says whether the call
    fails, and the result whether an error is returned. *)
Definition WriteFile (fails : bool) (path data : string) : effect * bool :=
  if fails then (WriteFailed path data, true) else (Write path data, false).

Definition setSpeed (fails : bool) (speed : string) : effect * bool :=
  WriteFile fails speedLimitPath speed.

Definition setSyncAction (fails : bool) (action : string) : effect * bool :=
  WriteFile fails syncActionPath action.

(** [strconv.Atoi]: an optional sign and decimal digits, within the range of
    [int]; [None] is the error, of syntax or of range. *)
Definition digitValue (c : ascii) : option Z :=
  let n := Z.of_nat (nat_of_ascii c) in
  if (48 <=? n) && (n <=? 57) then Some (n - 48) else None.

Fixpoint digitsValue (s : string) (acc : Z) : option Z :=
  match s with
  | EmptyString => Some acc
  | String c s' =>
      match digitValue c with
      | Some d => digitsValue s' (acc * 10 + d)
      | None => None
      end
  end.

Definition Atoi (s : string) : option Z :=
  match s with
  | EmptyString => None
  | String c s' =>
      let '(neg, body) :=
        if Ascii.eqb c "-" then (true, s')
        else if Ascii.eqb c "+" then (false, s')
        else (false, s) in
      match body with
      | EmptyString => None
      | _ =>
          match digitsValue body 0 with
          | None => None
          | Some un =>
              let v := if neg then - un else un in
              if (minInt <=? v) && (v <=? maxInt) then Some v else None
          end
      end
  end.

(** The verb [%d]. *)
Definition itoa (n : Z) : string :=
  if n <? 0 then "-" ++ decimal (- n) else decimal n.

(** [time.Minute], in nanoseconds. *)
Definition Minute : Z := 60 * 1000000000.

(** The one-shot commands; [writeErr n] says whether the [n]-th call of
    [os.WriteFile] fails. *)
Definition normalCmd (writeErr : nat -> bool) : list effect :=
  Say "Setting raid check to normal speed" ::
  let '(written, err) := setSpeed (writeErr O) normalSpeed in
  written :: (if err then [Die "Error setting normal speed: %v"] else []).

Definition lowCmd (writeErr : nat -> bool) : list effect :=
  Say "Setting raid check to low speed" ::
  let '(written, err) := setSpeed (writeErr O) lowSpeed in
  written :: (if err then [Die "Error setting low speed: %v"] else []).

Definition stopCmd (writeErr : nat -> bool) : list effect :=
  Say "Stopping raid check" ::
  let '(written, err) := setSyncAction (writeErr O) "idle" in
  written :: (if err then [Die "Error stopping raid check: %v"] else []).

Definition startCmd (writeErr : nat -> bool) : list effect :=
  Say "Starting raid check" ::
  let '(written, err) := setSyncAction (writeErr O) "check" in
  written :: (if err then [Die "Error starting raid check: %v"] else []).

(** [high [minutes]] *)
Definition highCmd (writeErr : nat -> bool) (args : list string)
  : list effect :=
  Say "Setting raid check to high speed" ::
  let '(written, err) := setSpeed (writeErr O) highSpeed in
  written ::
  (if err then [Die "Error setting high speed: %v"]
   else
     match args with
     | [] => []
     | arg :: _ =>
         match Atoi arg with
         | None => [Die "Invalid minutes value: %v"]
         | Some minutes =>
             Say ("for " ++ itoa minutes ++ " minutes") ::
             Wait (wrap64 (minutes * Minute)) ::
             let '(reset, err) := setSpeed (writeErr 1%nat) normalSpeed in
             reset ::
             (if err then [Die "Error resetting to normal speed: %v"] else [])
         end
     end).

(** [forcereboot], followed for [n] steps of the loop. *)
Definition forceRebootCmd (writeErr : nat -> bool) (w : world) (n : nat)
  : list effect :=
  let '(written, err) := setSyncAction (writeErr O) "idle" in
  written ::
  (if err then [Die "Error stopping raid check: %v"]
   else map Polled (trace (steps w n start))).

(** The sleeps of a run, in nanoseconds. *)
Fixpoint waits (effects : list effect) : list Z :=
  match effects with
  | [] => []
  | Wait d :: rest => d :: waits rest
  | _ :: rest => waits rest
  end.

(** The data written with success, to [path], in order. *)
Fixpoint written (path : string) (effects : list effect) : list string :=
  match effects with
  | [] => []
  | Write p data :: rest =>
      if String.eqb p path then data :: written path rest
      else written path rest
  | _ :: rest => written path rest
  end.

(** No failed write is passed over: the fatal log follows it, and nothing
    follows a fatal log. *)
Fixpoint failuresAreFatal (effects : list effect) : bool :=
  match effects with
  | [] => true
  | WriteFailed _ _ :: rest =>
      match rest with
      | [Die _] => true
      | _ => false
      end
  | Die _ :: rest =>
      match rest with
      | [] => true
      | _ => false
      end
  | _ :: rest => failuresAreFatal rest
  end.

(** The longest sleep in minutes that [time.Duration] can hold. *)
Definition maxMinutes : Z := maxInt / Minute.

(** ** The current speed *)

(** The table [asciiSpace] of package [strings]. *)
Definition asciiSpace (c : ascii) : bool :=
  let n := nat_of_ascii c in
  ((9 <=? n) && (n <=? 13) || (n =? 32))%nat.

(** [utf8.RuneSelf]: bytes from here on are not ASCII. *)
Definition RuneSelf : nat := 128.

Section TrimSpace.

(** The two functions of the slow path, [TrimFunc(s, unicode.IsSpace)] and
    [TrimRightFunc(s, unicode.IsSpace)], which decode runes. *)
Variable TrimFuncIsSpace : string -> string.
Variable TrimRightFuncIsSpace : string -> string.

(** The second loop of [TrimSpace], which walks back from the end of what
    the first loop left. *)
Inductive trimmed : Type :=
| AllSpace                 (* the loop ran through: only ASCII space *)
| Kept (t : string)        (* it stopped at an ASCII byte: [s[start:stop]] *)
| Slow (t : string).       (* it met a byte that is not ASCII: the slice
                              handed to [TrimRightFunc] *)

Fixpoint trimRight (s : string) : trimmed :=
  match s with
  | EmptyString => AllSpace
  | String c s' =>
      match trimRight s' with
      | Kept t => Kept (String c t)
      | Slow t => Slow (String c t)
      | AllSpace =>
          if (RuneSelf <=? nat_of_ascii c)%nat then Slow (String c EmptyString)
          else if asciiSpace c then AllSpace
          else Kept (String c EmptyString)
      end
  end.

(** [strings.TrimSpace] *)
Fixpoint TrimSpace (s : string) : string :=
  match s with
  | EmptyString => EmptyString
  | String c s' =>
      if (RuneSelf <=? nat_of_ascii c)%nat then TrimFuncIsSpace s
      else if asciiSpace c then TrimSpace s'
      else match trimRight s with
           | Kept t => t
           | Slow t => TrimRightFuncIsSpace t
           | AllSpace => EmptyString
           end
  end.

(** The error of [getCurrentSpeed]: "failed to read speed limit: %w". *)
Inductive speedError : Type := FailedToReadSpeedLimit.

(** [file] is what [os.ReadFile(speedLimitPath)] returns: the content, or
    [None] for an error. *)
Definition getCurrentSpeed (file : option string)
  : string * option speedError :=
  match file with
  | None => (EmptyString, Some FailedToReadSpeedLimit)
  | Some data => (TrimSpace data, None)
  end.

End TrimSpace.

(** An ASCII byte that is white space, and one that is not. *)
Definition spaceByte (c : ascii) : Prop := asciiSpace c = true.

Definition solidByte (c : ascii) : Prop :=
  (nat_of_ascii c < RuneSelf)%nat /\ asciiSpace c = false.

Fixpoint lastByte (s : string) : option ascii :=
  match s with
  | EmptyString => None
  | String c EmptyString => Some c
  | String _ s' => lastByte s'
  end.

(** A string that is empty, or starts and ends with ASCII bytes that are not
    white space; the bytes in between are any. *)
Definition solidEnds (s : string) : Prop :=
  match s with
  | EmptyString => True
  | String c _ => solidByte c /\ exists l, lastByte s = Some l /\ solidByte l
  end.

(** Takes apart the hypotheses about which file was read. *)
Ltac crack :=
  match goal with
  | H : exists _, _ |- _ => destruct H
  | H : _ /\ _ |- _ => destruct H
  | H : Opened _ _ = Opened _ _ |- _ => injection H as ? ?; subst
  | H : OpenFails = Opened _ _ |- _ => discriminate H
  | H : Some _ = None |- _ => discriminate H
  | H : Some _ = Some _ |- _ => discriminate H
  | H : true = false |- _ => discriminate H
  | H : false = true |- _ => discriminate H
  end.

(** * Properties *)

(** ** Strings *)

Section StringFacts.

Lemma append_assoc (s1 s2 s3 : string) :
  (s1 ++ s2) ++ s3 = s1 ++ s2 ++ s3.
Proof.
  induction s1 as [|c s1 IH]; simpl; [reflexivity | now rewrite IH].
Qed.

Lemma append_empty_r (s : string) : s ++ EmptyString = s.
Proof.
  induction s as [|c s IH]; simpl; [reflexivity | now rewrite IH].
Qed.

Lemma length_append (s1 s2 : string) :
  String.length (s1 ++ s2) = (String.length s1 + String.length s2)%nat.
Proof.
  induction s1 as [|c s1 IH]; simpl; [reflexivity | now rewrite IH].
Qed.

Lemma HasPrefix_iff (s p : string) :
  HasPrefix s p = true <-> exists rest, s = p ++ rest.
Proof.
  revert s; induction p as [|c p IH]; intros s; simpl.
  - split; [intros _; now exists s | reflexivity].
  - destruct s as [|d s].
    + split; [discriminate | intros [rest H]; discriminate].
    + rewrite andb_true_iff, Ascii.eqb_eq, IH. split.
      * intros [-> [rest ->]]. now exists rest.
      * intros [rest H]. injection H as -> ->. split; [reflexivity|].
        now exists rest.
Qed.

Lemma Contains_iff (s sub : string) :
  Contains s sub = true <-> occursIn sub s.
Proof.
  unfold occursIn. induction s as [|c s IH]; simpl.
  - destruct (HasPrefix EmptyString sub) eqn:E.
    + apply HasPrefix_iff in E. destruct E as [rest E].
      split; [intros _ | reflexivity]. now exists EmptyString, rest.
    + split; [discriminate|]. intros (pre & post & H).
      destruct pre; [|discriminate]. simpl in H.
      assert (HasPrefix EmptyString sub = true) by (apply HasPrefix_iff; eauto).
      congruence.
  - destruct (HasPrefix (String c s) sub) eqn:E.
    + apply HasPrefix_iff in E. destruct E as [rest E].
      split; [intros _ | reflexivity]. now exists EmptyString, rest.
    + rewrite IH. split.
      * intros (pre & post & ->). now exists (String c pre), post.
      * intros (pre & post & H). destruct pre as [|d pre].
        -- simpl in H.
           assert (HasPrefix (String c s) sub = true)
             by (apply HasPrefix_iff; eauto).
           congruence.
        -- injection H as _ ->. now exists pre, post.
Qed.

Lemma substring_prefix (g s : string) :
  substring 0 (String.length g) (g ++ s) = g.
Proof.
  induction g as [|c g IH]; simpl.
  - now destruct s.
  - now rewrite IH.
Qed.

Lemma consumed_append (g s : string) : consumed (g ++ s) s = g.
Proof.
  unfold consumed. rewrite length_append.
  replace (String.length g + String.length s - String.length s)%nat
    with (String.length g) by lia.
  apply substring_prefix.
Qed.

Lemma Count_nonneg (s : string) (c : ascii) : 0 <= Count s c.
Proof.
  induction s as [|d s IH]; simpl; [lia|].
  destruct (Ascii.eqb d c); lia.
Qed.

Lemma length_replicate (n : nat) (c : ascii) :
  String.length (replicate n c) = n.
Proof.
  induction n as [|n IH]; simpl; [reflexivity | now rewrite IH].
Qed.

End StringFacts.

(** ** The matcher *)

Section RegexpFacts.

Context {A : Type}.


(** A successful [a+] consumed a non-empty run of accepted bytes. *)
Lemma plus_sound (a : atom) (s : string) (k : string -> option A) (r : A) :
  plus a s k = Some r ->
  exists p s1,
    s = p ++ s1 /\ p <> EmptyString /\ allBytes (accepted a) p /\ k s1 = Some r.
Proof.
  induction s as [|c s IH]; simpl; [discriminate|].
  destruct (accepts a c) eqn:Hc; [|discriminate].
  destruct (plus a s k) as [r'|] eqn:Hp.
  - intros [= <-]. destruct (IH eq_refl) as (p & s1 & -> & _ & Hall & Hk).
    exists (String c p), s1. repeat split; try assumption. discriminate.
  - intros Hk. exists (String c EmptyString), s. repeat split; try assumption.
    discriminate.
Qed.

(** When the continuation refuses every input that starts with an accepted
    byte, [a+] hands over the input that follows the whole run. *)
Lemma plus_greedy (a : atom) (bar tail : string) (k : string -> option A) :
  bar <> EmptyString ->
  allBytes (accepted a) bar ->
  (forall c s', accepts a c = true -> k (String c s') = None) ->
  plus a tail k = None ->
  plus a (bar ++ tail) k = k tail.
Proof.
  intros Hne Hall Hk Htail. induction bar as [|c bar IH]; [congruence|].
  destruct Hall as [Hc Hall]. simpl. rewrite Hc.
  destruct bar as [|d bar].
  - simpl. now rewrite Htail.
  - rewrite IH by (discriminate || assumption).
    destruct (k tail) eqn:E; [reflexivity|].
    simpl. apply Hk. apply Hall.
Qed.

End RegexpFacts.

Lemma FindStringSubmatch_eq (re : regex) (s : string) :
  FindStringSubmatch re s =
  match run re s None found with
  | Some (rest, cap) =>
      [consumed s rest; match cap with Some g => g | None => EmptyString end]
  | None =>
      match s with
      | EmptyString => []
      | String _ s' => FindStringSubmatch re s'
      end
  end.
Proof. destruct s; reflexivity. Qed.

(** ** The progress pattern *)

Lemma barClass_barByte (c : ascii) :
  accepts (Class ["="%char; ">"%char; "."%char]) c = true <-> barByte c.
Proof.
  unfold barByte; simpl.
  rewrite !orb_true_iff, !Ascii.eqb_eq. intuition congruence.
Qed.

Lemma allBytes_impl (P Q : ascii -> Prop) (s : string) :
  (forall c, P c -> Q c) -> allBytes P s -> allBytes Q s.
Proof.
  intros H. induction s as [|c s IH]; simpl; [trivial|].
  intros [Hc Hs]. auto.
Qed.

(** A match of the pattern at the very start of [s]. *)
Lemma progressRe_here_sound (s rest : string) (cap : option string) :
  run progressRe s None found = Some (rest, cap) ->
  exists bar,
    cap = Some bar /\ s = "[" ++ bar ++ "]" ++ rest /\ progressBracket bar.
Proof.
  destruct s as [|c s]; simpl; [discriminate|].
  destruct (Ascii.eqb c "[") eqn:Hc; [|discriminate].
  apply Ascii.eqb_eq in Hc; subst c. intros H.
  apply plus_sound in H. destruct H as (p & s1 & -> & Hne & Hall & Hk).
  destruct s1 as [|d s1]; [discriminate|].
  destruct (Ascii.eqb d "]") eqn:Hd; [|discriminate].
  apply Ascii.eqb_eq in Hd; subst d. unfold found in Hk.
  injection Hk as <- <-. exists p. rewrite consumed_append.
  repeat split; try assumption.
  eapply allBytes_impl; [|exact Hall]. intros c. apply barClass_barByte.
Qed.

Lemma progressRe_here_complete (bar post : string) :
  progressBracket bar ->
  run progressRe ("[" ++ bar ++ "]" ++ post) None found = Some (post, Some bar).
Proof.
  intros [Hne Hall]. simpl.
  rewrite plus_greedy; try assumption.
  - simpl. now rewrite consumed_append.
  - eapply allBytes_impl; [|exact Hall]. intros c. apply barClass_barByte.
  - intros c s' Hc. apply barClass_barByte in Hc.
    destruct Hc as [-> | [-> | ->]]; reflexivity.
  - reflexivity.
Qed.

(** What [FindStringSubmatch] returns for the progress pattern: nothing, or a
    bracket that qualifies together with its content. *)
Lemma progressRe_find_sound (s : string) :
  FindStringSubmatch progressRe s = [] \/
  exists pre bar post,
    s = pre ++ "[" ++ bar ++ "]" ++ post /\ progressBracket bar /\
    FindStringSubmatch progressRe s = ["[" ++ bar ++ "]"; bar].
Proof.
  induction s as [|c s IH]; [now left|].
  rewrite FindStringSubmatch_eq.
  destruct (run progressRe (String c s) None found) as [[rest cap]|] eqn:E.
  - right. apply progressRe_here_sound in E.
    destruct E as (bar & -> & Hs & Hbar). exists EmptyString, bar, rest.
    split; [exact Hs|]. split; [exact Hbar|].
    rewrite Hs. f_equal.
    replace ("[" ++ bar ++ "]" ++ rest) with (("[" ++ bar ++ "]") ++ rest)
      by (simpl; now rewrite append_assoc).
    apply consumed_append.
  - destruct IH as [IH | (pre & bar & post & -> & Hbar & IH)]; [now left|].
    right. exists (String c pre), bar, post. auto.
Qed.

Lemma progressRe_find_none (s : string) :
  (forall pre bar post,
      s = pre ++ "[" ++ bar ++ "]" ++ post -> ~ progressBracket bar) ->
  FindStringSubmatch progressRe s = [].
Proof.
  intros H. destruct (progressRe_find_sound s) as [E | (pre & bar & post & E & Hbar & _)].
  - exact E.
  - exfalso. exact (H _ _ _ E Hbar).
Qed.

Lemma progressRe_find_first (pre bar post : string) :
  noByte "[" pre ->
  progressBracket bar ->
  FindStringSubmatch progressRe (pre ++ "[" ++ bar ++ "]" ++ post)
  = ["[" ++ bar ++ "]"; bar].
Proof.
  intros Hpre Hbar. induction pre as [|c pre IH].
  - rewrite FindStringSubmatch_eq. change (EmptyString ++ ?x) with x.
    rewrite (progressRe_here_complete bar post Hbar). f_equal.
    replace ("[" ++ bar ++ "]" ++ post) with (("[" ++ bar ++ "]") ++ post)
      by (simpl; now rewrite append_assoc).
    apply consumed_append.
  - destruct Hpre as [Hc Hpre]. rewrite FindStringSubmatch_eq.
    replace (run progressRe (String c pre ++ "[" ++ bar ++ "]" ++ post) None found)
      with (@None (string * option string)).
    + simpl. now apply IH.
    + simpl. apply Ascii.eqb_neq in Hc. now rewrite Hc.
Qed.

(** The captured bar is never empty: the divisor of [getMdProgress] is at
    least one. *)
Lemma progressRe_group_nonempty (s w progress : string) (tl : list string) :
  FindStringSubmatch progressRe s = w :: progress :: tl -> 1 <= len progress.
Proof.
  intros H.
  destruct (progressRe_find_sound s) as [E | (pre & bar & post & _ & [Hne _] & E)].
  - congruence.
  - rewrite E in H. injection H as _ <- _.
    unfold len. destruct bar; [congruence | simpl; lia].
Qed.

(** ** The status reader *)

Lemma countChecking_acc (lines : list string) (count : Z) :
  countChecking lines count
  = count + Z.of_nat (List.length (linesWith "check" lines)).
Proof.
  revert count. induction lines as [|l lines IH]; intros count; simpl.
  - lia.
  - rewrite IH. destruct (Contains l "check"); simpl List.length; lia.
Qed.

Lemma fills_Count (bar : string) :
  Count bar "=" + Count bar ">" = Z.of_nat (fills bar).
Proof.
  induction bar as [|c bar IH]; simpl; [reflexivity|].
  unfold fillByte.
  destruct (Ascii.eqb c "=") eqn:E1; destruct (Ascii.eqb c ">") eqn:E2;
    cbn [orb fills]; try lia.
  apply Ascii.eqb_eq in E1, E2. congruence.
Qed.

Lemma barPercent_ratio (bar : string) :
  barPercent bar = ratioPercent (fills bar) (String.length bar).
Proof. unfold barPercent, ratioPercent, len. now rewrite fills_Count. Qed.

Lemma mentions_iff (line : string) :
  Contains line "check" || Contains line "resync" = true <->
  occursIn "check" line \/ occursIn "resync" line.
Proof. now rewrite orb_true_iff, !Contains_iff. Qed.

Lemma scanProgress_cons (line : string) (rest : list string) :
  scanProgress (line :: rest) =
  if Contains line "check" || Contains line "resync" then
    match FindStringSubmatch progressRe line with
    | _ :: progress :: _ => Some (barPercent progress)
    | _ => scanProgress rest
    end
  else scanProgress rest.
Proof. reflexivity. Qed.

(** A line that carries no bar is passed over by the loop. *)
Lemma scanProgress_skip (line : string) (rest : list string) :
  ~ carriesBar line -> scanProgress (line :: rest) = scanProgress rest.
Proof.
  intros H. simpl.
  destruct (Contains line "check" || Contains line "resync") eqn:M;
    [|reflexivity].
  apply mentions_iff in M.
  rewrite progressRe_find_none; [reflexivity|].
  intros pre bar post E Hbar. apply H. split; [exact M|].
  now exists pre, bar, post.
Qed.

Lemma scanProgress_skip_all (before rest : list string) :
  Forall (fun l => ~ carriesBar l) before ->
  scanProgress (before ++ rest) = scanProgress rest.
Proof.
  induction 1 as [|l before Hl _ IH]; [reflexivity|].
  simpl app. now rewrite scanProgress_skip.
Qed.

(** Whatever the loop returns was computed from a qualifying bracket of a
    check or resync line. *)
Lemma scanProgress_sound (lines : list string) (p : float64) :
  scanProgress lines = Some p ->
  exists line pre bar post,
    In line lines /\
    (occursIn "check" line \/ occursIn "resync" line) /\
    line = pre ++ "[" ++ bar ++ "]" ++ post /\
    progressBracket bar /\
    p = ratioPercent (fills bar) (String.length bar).
Proof.
  induction lines as [|l lines IH]; simpl; [discriminate|].
  assert (Hrest : scanProgress lines = Some p ->
                  exists line pre bar post,
                    (l = line \/ In line lines) /\
                    (occursIn "check" line \/ occursIn "resync" line) /\
                    line = pre ++ "[" ++ bar ++ "]" ++ post /\
                    progressBracket bar /\
                    p = ratioPercent (fills bar) (String.length bar)).
  { intros H. destruct (IH H) as (line & pre & bar & post & Hin & Hrest).
    exists line, pre, bar, post. auto. }
  destruct (Contains l "check" || Contains l "resync") eqn:M; [|exact Hrest].
  apply mentions_iff in M.
  destruct (progressRe_find_sound l) as [E | (pre & bar & post & El & Hbar & E)];
    rewrite E; [exact Hrest|].
  intros [= <-]. exists l, pre, bar, post.
  rewrite barPercent_ratio. auto.
Qed.

Lemma progressRe_find_some (pre bar post : string) :
  progressBracket bar ->
  exists w g,
    FindStringSubmatch progressRe (pre ++ "[" ++ bar ++ "]" ++ post) = [w; g].
Proof.
  intros Hbar. induction pre as [|c pre IH].
  - rewrite (progressRe_find_first EmptyString bar post I Hbar). eauto.
  - rewrite FindStringSubmatch_eq.
    destruct (run progressRe _ None found) as [[rest cap]|]; [eauto|].
    exact IH.
Qed.

Lemma scanProgress_carried (line : string) (rest : list string) :
  carriesBar line -> exists p, scanProgress (line :: rest) = Some p.
Proof.
  intros (M & pre & bar & post & -> & Hbar). rewrite scanProgress_cons.
  apply mentions_iff in M. rewrite M.
  destruct (progressRe_find_some pre bar post Hbar) as (w & g & ->). eauto.
Qed.

Lemma scanProgress_none_iff (lines : list string) :
  scanProgress lines = None <-> Forall (fun l => ~ carriesBar l) lines.
Proof.
  split.
  - induction lines as [|l lines IH]; intros H; constructor.
    + intros Hl. destruct (scanProgress_carried l lines Hl) as [p Hp].
      congruence.
    + apply IH. simpl in H.
      destruct (Contains l "check" || Contains l "resync"); [|exact H].
      destruct (FindStringSubmatch progressRe l) as [|w [|g tl]];
        try exact H; discriminate.
  - intros H. rewrite <- (app_nil_r lines).
    now rewrite scanProgress_skip_all.
Qed.

Lemma noByte_append (c : ascii) (a b : string) :
  noByte c (a ++ b) <-> noByte c a /\ noByte c b.
Proof.
  induction a as [|d a IH]; simpl; [tauto|]. rewrite IH. tauto.
Qed.

(** Where the first occurrence of a byte can sit in two readings of the same
    string. *)
Lemma first_occurrence (c : ascii) (pre x p y : string) :
  noByte c pre ->
  pre ++ String c x = p ++ String c y ->
  (p = pre /\ x = y) \/ exists p', p = pre ++ String c p' /\ x = p' ++ String c y.
Proof.
  revert p. induction pre as [|a pre IH]; intros [|d p] Hpre E; simpl in *.
  - injection E as ->. now left.
  - injection E as <- ->. right. now exists p.
  - injection E as -> _. now destruct Hpre.
  - injection E as <- E. destruct Hpre as [_ Hpre].
    destruct (IH p Hpre E) as [[-> ->] | (p' & -> & ->)]; [now left|].
    right. now exists p'.
Qed.

Lemma degenerate_no_bar (line : string) :
  degenerate line -> ~ carriesBar line.
Proof.
  intros (pre & post & -> & Hpre & Hpost) (_ & p & bar & q & E & Hne & Hall).
  change (pre ++ String "[" (String "]" post)
          = p ++ String "[" (bar ++ String "]" q)) in E.
  destruct (first_occurrence _ _ _ _ _ Hpre E) as [[_ E'] | (p' & _ & E')].
  - destruct bar as [|b bar]; [congruence|].
    injection E' as <- _. destruct Hall as [[H | [H | H]] _]; discriminate.
  - destruct p' as [|b p']; [discriminate|]. injection E' as _ ->.
    apply noByte_append in Hpost. destruct Hpost as [_ [H _]]. congruence.
Qed.

Lemma getMdProgress_no_bar (lines : list string) :
  Forall (fun l => ~ carriesBar l) lines ->
  getMdProgress (Opened lines false) = (zero, Some NoProgressInformation).
Proof.
  intros Hall. simpl. apply scanProgress_none_iff in Hall. now rewrite Hall.
Qed.

(** Whatever [getMdProgress] returns without error was computed from a
    qualifying bracket of a check or resync line of the file. *)
Lemma getMdProgress_sound (f : mdstat) (p : float64) :
  getMdProgress f = (p, None) ->
  exists lines scanErr line pre bar post,
    f = Opened lines scanErr /\
    In line lines /\
    (occursIn "check" line \/ occursIn "resync" line) /\
    line = pre ++ "[" ++ bar ++ "]" ++ post /\
    progressBracket bar /\
    p = ratioPercent (fills bar) (String.length bar).
Proof.
  destruct f as [|lines scanErr]; simpl; [discriminate|].
  destruct (scanProgress lines) as [p'|] eqn:E.
  - intros [= <-]. apply scanProgress_sound in E.
    destruct E as (line & pre & bar & post & H).
    exists lines, scanErr, line, pre, bar, post. tauto.
  - destruct scanErr; discriminate.
Qed.

(** ** The claims about the status reader *)

(** C5.  For every content that is read without error, [getMdChecking]
    returns exactly the number of lines that contain the substring "check";
    containing is plain substring containment, so a line with "checking"
    counts. *)
Theorem getMdChecking_counts_check_lines (lines : list string) :
  getMdChecking (Opened lines false)
  = (Z.of_nat (List.length (linesWith "check" lines)), None) /\
  (forall l, In l (linesWith "check" lines) <-> In l lines /\ occursIn "check" l) /\
  (forall pre post, occursIn "check" (pre ++ "checking" ++ post)).
Proof.
  split; [|split].
  - simpl. now rewrite countChecking_acc.
  - intros l. unfold linesWith. now rewrite filter_In, Contains_iff.
  - intros pre post. exists pre, ("ing" ++ post). reflexivity.
Qed.

(** C2 (the code departs from it).  On the kernel's line
    [... finish=37.2min speed=...] the token returned by [getMdTimeLeft]
    runs on to the next [s] or backslash: it is "37.2min" followed by the
    blank. *)
Theorem getMdTimeLeft_runs_past_blank :
  getMdTimeLeft (Opened mdstatChecking false) = ("37.2min ", None) /\
  fst (getMdTimeLeft (Opened mdstatChecking false)) <> "37.2min".
Proof. split; [vm_compute; reflexivity | vm_compute; discriminate]. Qed.

(** C3 as stated fails: a content that is read without error, on which a
    check is announced without a bar, makes [getMdProgress] return an error,
    and the command [progress] exits on it. *)
Lemma missing_bar_is_an_error :
  readable mdstatDelayed /\
  getMdProgress mdstatDelayed = (zero, Some NoProgressInformation) /\
  progressCmd {| mdstatAt := fun _ => mdstatDelayed; rebootErr := false |}
  = [Fatalf "Error getting progress: %v" NoProgressInformation].
Proof.
  split; [|split].
  - eexists. reflexivity.
  - vm_compute. reflexivity.
  - vm_compute. reflexivity.
Qed.

(** C3, amended.  On a content that is read without error [getMdChecking]
    and [getMdTimeLeft] never fail.  [getMdProgress] succeeds when some check
    or resync line carries a bar; when none does it returns the error "no
    progress information found", which the command [progress] treats as
    fatal once a check has been counted. *)
Theorem reader_errors_on_readable_content (lines : list string) :
  snd (getMdChecking (Opened lines false)) = None /\
  snd (getMdTimeLeft (Opened lines false)) = None /\
  (Exists carriesBar lines ->
   snd (getMdProgress (Opened lines false)) = None) /\
  (Forall (fun l => ~ carriesBar l) lines ->
   getMdProgress (Opened lines false) = (zero, Some NoProgressInformation)) /\
  (forall w e,
      snd (getMdChecking (mdstatAt w 0)) = None ->
      fst (getMdChecking (mdstatAt w 0)) <> 0 ->
      snd (getMdProgress (mdstatAt w 1)) = Some e ->
      progressCmd w = [Fatalf "Error getting progress: %v" e]).
Proof.
  repeat split.
  - simpl. now destruct (scanTimeLeft lines).
  - intros Hex. simpl.
    destruct (scanProgress lines) eqn:E; [reflexivity|].
    apply scanProgress_none_iff in E. apply Exists_exists in Hex.
    destruct Hex as (l & Hin & Hl). rewrite Forall_forall in E.
    now destruct (E l Hin).
  - apply getMdProgress_no_bar.
  - intros w e Herr Hcount Hprog. unfold progressCmd.
    destruct (getMdChecking (mdstatAt w 0)) as [count err]. simpl in *.
    subst err. apply Z.eqb_neq in Hcount. rewrite Hcount.
    destruct (getMdProgress (mdstatAt w 1)) as [p err]. simpl in *.
    now subst err.
Qed.

Lemma reader_errors_on_readable_content_witness :
  getMdProgress mdstatDelayed = (zero, Some NoProgressInformation).
Proof.
  apply (reader_errors_on_readable_content
           ["md0 : active raid1 sdb1[1] sda1[0]";
            "      976630464 blocks super 1.2 [2/2] [UU]";
            "        check=DELAYED"]).
  apply scanProgress_none_iff. vm_compute. reflexivity.
Defined.

(** C4 as stated fails in what it says of the result: on a file whose only
    bracket on the check line is [[]], the progress is not absent, it is the
    error of C3, and the command [progress] exits on it. *)
Lemma empty_bracket_is_an_error :
  readable mdstatEmptyBracket /\
  getMdProgress mdstatEmptyBracket = (zero, Some NoProgressInformation) /\
  progressCmd {| mdstatAt := fun _ => mdstatEmptyBracket; rebootErr := false |}
  = [Fatalf "Error getting progress: %v" NoProgressInformation].
Proof.
  split; [|split].
  - eexists. reflexivity.
  - vm_compute. reflexivity.
  - vm_compute. reflexivity.
Qed.

(** C4, amended.  When every check or resync line has the empty bracket
    [[]] as its only bracket, [getMdProgress] returns the error "no progress
    information found" with the value 0, and the command [progress] exits on
    it once a check has been counted; the bar it divides by is never empty,
    on any line, so no division by zero takes place. *)
Theorem empty_bracket_is_no_progress (lines : list string) :
  Forall (fun l => occursIn "check" l \/ occursIn "resync" l -> degenerate l)
         lines ->
  getMdProgress (Opened lines false) = (zero, Some NoProgressInformation) /\
  (forall w,
      mdstatAt w 1 = Opened lines false ->
      snd (getMdChecking (mdstatAt w 0)) = None ->
      fst (getMdChecking (mdstatAt w 0)) <> 0 ->
      progressCmd w
      = [Fatalf "Error getting progress: %v" NoProgressInformation]) /\
  (forall line w progress tl,
      FindStringSubmatch progressRe line = w :: progress :: tl ->
      1 <= len progress).
Proof.
  intros H.
  assert (E : getMdProgress (Opened lines false)
              = (zero, Some NoProgressInformation)).
  { apply getMdProgress_no_bar.
    eapply Forall_impl; [|exact H]. intros l Hl Hbar.
    apply (degenerate_no_bar l); [|exact Hbar]. apply Hl. apply Hbar. }
  split; [exact E|]. split.
  - intros w Hw Herr Hcount. unfold progressCmd.
    destruct (getMdChecking (mdstatAt w 0)) as [count err].
    simpl in Herr, Hcount. subst err. apply Z.eqb_neq in Hcount.
    rewrite Hcount, Hw, E. reflexivity.
  - intros line w progress tl. apply progressRe_group_nonempty.
Qed.

(** ** The poll loop *)

Lemma steps_add (w : world) (n m : nat) (st : state) :
  steps w (n + m) st = steps w m (steps w n st).
Proof.
  revert st. induction n as [|n IH]; intros st; simpl; [reflexivity|].
  apply IH.
Qed.

Lemma step_halted (w : world) (st : state) (h : ending) :
  at_ st = Halted h -> step w st = st.
Proof. intros H. unfold step. now rewrite H. Qed.

Lemma steps_halted (w : world) (n : nat) (st : state) (h : ending) :
  at_ st = Halted h -> steps w n st = st.
Proof.
  intros H. induction n as [|n IH]; simpl; [reflexivity|].
  now rewrite (step_halted w st h H).
Qed.

(** A failed read at the head of the loop. *)
Lemma step_read_error (w : world) (st : state) (e : error) :
  at_ st = Polling ->
  snd (getMdChecking (mdstatAt w (reads st))) = Some e ->
  step w st =
  {| at_ := Polling;
     reads := S (reads st);
     trace := trace st ++
              [Logf "Error checking RAID status: %v" e; Sleep retryBackoff] |}.
Proof.
  intros Hat He. unfold step. rewrite Hat.
  destruct (getMdChecking (mdstatAt w (reads st))) as [count err].
  simpl in He. now subst err.
Qed.

Lemma steps_retrying (w : world) (n : nat) (st : state) :
  at_ st = Polling ->
  (forall i, (reads st <= i < reads st + n)%nat ->
             snd (getMdChecking (mdstatAt w i)) <> None) ->
  at_ (steps w n st) = Polling /\
  reads (steps w n st) = (reads st + n)%nat /\
  trace (steps w n st) = (trace st ++ retries w (reads st) n)%list.
Proof.
  revert st. induction n as [|n IH]; intros st Hat Hfail; simpl.
  - now rewrite Nat.add_0_r, app_nil_r.
  - destruct (snd (getMdChecking (mdstatAt w (reads st)))) as [e|] eqn:He.
    2:{ exfalso. apply (Hfail (reads st)); [lia | exact He]. }
    rewrite (step_read_error w st e Hat He).
    match goal with |- context [steps w n ?s] => destruct (IH s) as (H1 & H2 & H3) end.
    + reflexivity.
    + simpl. intros i Hi. apply Hfail. lia.
    + rewrite H1, H2, H3. simpl. repeat split; [lia|].
      now rewrite <- app_assoc.
Qed.

Lemma retries_events (w : world) (i n : nat) (ev : event) :
  In ev (retries w i n) ->
  (exists e, ev = Logf "Error checking RAID status: %v" e) \/
  ev = Sleep retryBackoff.
Proof.
  revert i. induction n as [|n IH]; intros i; simpl; [tauto|].
  destruct (snd (getMdChecking (mdstatAt w i))) as [e|]; simpl.
  - intros [<- | [<- | H]]; eauto.
  - eauto.
Qed.

Lemma retries_length (w : world) (i n : nat) :
  (forall j, (i <= j < i + n)%nat ->
             snd (getMdChecking (mdstatAt w j)) <> None) ->
  List.length (retries w i n) = (2 * n)%nat.
Proof.
  revert i. induction n as [|n IH]; intros i Hfail; [reflexivity|]. simpl.
  destruct (snd (getMdChecking (mdstatAt w i))) as [e|] eqn:He.
  - simpl. rewrite IH; [lia|]. intros j Hj. apply Hfail. lia.
  - exfalso. apply (Hfail i); [lia | exact He].
Qed.

(** A failed read of the progress in the body of the loop. *)
Lemma step_progress_error (w : world) (st : state) (count : Z) (e' : error) :
  at_ st = Polling ->
  getMdChecking (mdstatAt w (reads st)) = (count, None) -> count <> 0 ->
  snd (getMdProgress (mdstatAt w (S (S (reads st))))) = Some e' ->
  step w st =
  {| at_ := Polling;
     reads := S (S (S (reads st)));
     trace := trace st ++
              [Sleep pollInterval; Print clearScreen] ++
              (match snd (getMdTimeLeft (mdstatAt w (S (reads st)))) with
               | Some e => [Logf "Error getting time left: %v" e]
               | None => []
               end ++
               [PrintNow;
                if String.eqb (fst (getMdTimeLeft (mdstatAt w (S (reads st)))))
                              EmptyString
                then Print "Reboot will occur when RAID check completes"
                else Print ("Reboot will occur in " ++
                            fst (getMdTimeLeft (mdstatAt w (S (reads st)))))%string]) |}.
Proof.
  intros Hat Hread Hcount Hprog. unfold step. rewrite Hat, Hread.
  apply Z.eqb_neq in Hcount. rewrite Hcount. unfold renderStatus.
  destruct (getMdTimeLeft (mdstatAt w (S (reads st)))) as [timeLeft err].
  destruct (getMdProgress (mdstatAt w (S (S (reads st))))) as [p err'].
  simpl in Hprog. subst err'. reflexivity.
Qed.

Lemma getMdTimeLeft_error_empty (f : mdstat) (e : error) :
  snd (getMdTimeLeft f) = Some e -> fst (getMdTimeLeft f) = EmptyString.
Proof.
  destruct f as [|lines scanErr]; simpl; [reflexivity|].
  destruct (scanTimeLeft lines); [discriminate|]. now destruct scanErr.
Qed.

(** A failed read of the estimate in the body of the loop. *)
Lemma step_estimate_error (w : world) (st : state) (count : Z) (e : error) :
  at_ st = Polling ->
  getMdChecking (mdstatAt w (reads st)) = (count, None) -> count <> 0 ->
  snd (getMdTimeLeft (mdstatAt w (S (reads st)))) = Some e ->
  exists rest,
    trace (step w st)
    = (trace st ++
       [Sleep pollInterval; Print clearScreen;
        Logf "Error getting time left: %v" e; PrintNow;
        Print "Reboot will occur when RAID check completes"] ++ rest)%list /\
    reads (step w st) = S (S (S (reads st))) /\
    ~ In (Sleep retryBackoff) rest /\ ~ In RunReboot rest.
Proof.
  intros Hat Hread Hcount Herr.
  pose proof (getMdTimeLeft_error_empty _ _ Herr) as Hempty.
  unfold step. rewrite Hat, Hread.
  apply Z.eqb_neq in Hcount. rewrite Hcount. unfold renderStatus.
  destruct (getMdTimeLeft (mdstatAt w (S (reads st)))) as [timeLeft err].
  simpl in Herr, Hempty. subst err timeLeft.
  destruct (getMdProgress (mdstatAt w (S (S (reads st))))) as [p [e'|]].
  - exists []. cbn [trace reads]. repeat split; auto.
  - destruct (drawProgressBar maxAlloc p 50) as [bar|].
    + exists [Print bar]. cbn [trace reads]. repeat split.
      * intros [H | []]; discriminate.
      * intros [H | []]; discriminate.
    + exists [Panic]. cbn [trace reads]. repeat split.
      * intros [H | []]; discriminate.
      * intros [H | []]; discriminate.
Qed.

(** C8 as stated fails for two of the three status reads of an iteration:
    the reads of the estimate and of the progress, made in the body of the
    loop, are not retried and not followed by the back-off when they fail,
    and the failure of the second is not even logged.  Here the read at the
    head of the loop fails once, then a check is seen and both reads of the
    body fail. *)
Lemma failed_reads_in_the_loop_body :
  getMdChecking (mdstatAt flakyWorld 1) = (1, None) /\
  snd (getMdTimeLeft (mdstatAt flakyWorld 2)) = Some FailedToOpen /\
  snd (getMdProgress (mdstatAt flakyWorld 3)) = Some FailedToOpen /\
  steps flakyWorld 2 start =
  {| at_ := Polling;
     reads := 4;
     trace := [Logf "Error checking RAID status: %v" FailedToOpen;
               Sleep retryBackoff;
               Sleep pollInterval;
               Print clearScreen;
               Logf "Error getting time left: %v" FailedToOpen;
               PrintNow;
               Print "Reboot will occur when RAID check completes"] |}.
Proof. repeat split; vm_compute; reflexivity. Qed.

(** C8, amended.  Every failed read at the head of the loop, in whatever
    state of polling and whatever the reads before and after it, is logged,
    followed by a sleep of the fixed back-off, which is shorter than the
    poll interval, and the loop is entered again.  As long as these reads
    keep failing the loop is still polling: it has neither ended nor run
    [reboot], and all it has done is log and sleep.  The two reads in the
    body of the loop are not retried: a failed read of the estimate is
    logged and a failed read of the progress leaves no trace; neither is
    followed by a back-off, and the iteration goes on. *)
Theorem read_failures_are_retried (w : world) (st : state) :
  at_ st = Polling ->
  retryBackoff < pollInterval /\
  (forall e,
      snd (getMdChecking (mdstatAt w (reads st))) = Some e ->
      step w st =
      {| at_ := Polling;
         reads := S (reads st);
         trace := trace st ++
                  [Logf "Error checking RAID status: %v" e;
                   Sleep retryBackoff] |}) /\
  (forall n,
      (forall i, (reads st <= i < reads st + n)%nat ->
                 snd (getMdChecking (mdstatAt w i)) <> None) ->
      at_ (steps w n st) = Polling /\
      reads (steps w n st) = (reads st + n)%nat /\
      trace (steps w n st) = (trace st ++ retries w (reads st) n)%list /\
      List.length (retries w (reads st) n) = (2 * n)%nat /\
      ~ In RunReboot (retries w (reads st) n)) /\
  (forall count e',
      getMdChecking (mdstatAt w (reads st)) = (count, None) -> count <> 0 ->
      snd (getMdProgress (mdstatAt w (S (S (reads st))))) = Some e' ->
      step w st =
      {| at_ := Polling;
         reads := S (S (S (reads st)));
         trace := trace st ++
                  [Sleep pollInterval; Print clearScreen] ++
                  (match snd (getMdTimeLeft (mdstatAt w (S (reads st)))) with
                   | Some e => [Logf "Error getting time left: %v" e]
                   | None => []
                   end ++
                   [PrintNow;
                    if String.eqb
                         (fst (getMdTimeLeft (mdstatAt w (S (reads st)))))
                         EmptyString
                    then Print "Reboot will occur when RAID check completes"
                    else Print ("Reboot will occur in " ++
                                fst (getMdTimeLeft
                                       (mdstatAt w (S (reads st)))))%string]) |}) /\
  (forall count e,
      getMdChecking (mdstatAt w (reads st)) = (count, None) -> count <> 0 ->
      snd (getMdTimeLeft (mdstatAt w (S (reads st)))) = Some e ->
      exists rest,
        trace (step w st)
        = (trace st ++
           [Sleep pollInterval; Print clearScreen;
            Logf "Error getting time left: %v" e; PrintNow;
            Print "Reboot will occur when RAID check completes"] ++ rest)%list /\
        reads (step w st) = S (S (S (reads st))) /\
        ~ In (Sleep retryBackoff) rest /\ ~ In RunReboot rest).
Proof.
  intros Hat. split; [reflexivity|]. split; [|split; [|split]].
  - intros e He. now apply step_read_error.
  - intros n Hfail. destruct (steps_retrying w n st Hat Hfail) as (H1 & H2 & H3).
    repeat split; try assumption.
    + now apply retries_length.
    + intros Hin. apply retries_events in Hin.
      destruct Hin as [[e He] | He]; discriminate.
  - intros count e'. now apply step_progress_error.
  - intros count e. now apply step_estimate_error.
Qed.

Lemma renderStatus_no_reboot (w : world) (n : nat) :
  ~ In RunReboot (fst (renderStatus w n)).
Proof.
  unfold renderStatus.
  destruct (getMdTimeLeft (mdstatAt w n)) as [timeLeft err].
  destruct (getMdProgress (mdstatAt w (S n))) as [progress err'].
  assert (H : forall tail,
             ~ In RunReboot tail ->
             ~ In RunReboot
               ((match err with
                 | Some e => [Logf "Error getting time left: %v" e]
                 | None => []
                 end ++
                 [PrintNow;
                  if String.eqb timeLeft EmptyString
                  then Print "Reboot will occur when RAID check completes"
                  else Print ("Reboot will occur in " ++ timeLeft)%string]) ++
                tail)%list).
  { intros tail Htail Hin. apply in_app_or in Hin. destruct Hin as [Hin|Hin]; [|tauto].
    apply in_app_or in Hin. destruct Hin as [Hin|Hin].
    - destruct err; simpl in Hin; [destruct Hin as [Hin|[]]; discriminate | tauto].
    - destruct (String.eqb timeLeft EmptyString); simpl in Hin;
        destruct Hin as [Hin|[Hin|[]]]; discriminate. }
  destruct err' as [e'|].
  - simpl fst. rewrite <- (app_nil_r (_ ++ _)). apply H. intros [].
  - destruct (drawProgressBar maxAlloc progress 50); simpl fst; apply H;
      intros [Hin|[]]; discriminate.
Qed.

(** What holds of every state the loop can reach from [start]: [reboot] has
    run only in a halted state, after two consecutive reads that both counted
    no check; and the loop is left for [Idle] only after such a read. *)
Lemma confirmed_step (w : world) (st : state) :
  confirmed w st -> confirmed w (step w st).
Proof.
  unfold confirmed, step. destruct (at_ st) eqn:Hat.
  - (* Polling *)
    intros Hno.
    destruct (getMdChecking (mdstatAt w (reads st))) as [count err] eqn:Hread.
    destruct err as [e|]; simpl.
    + intros Hin. apply in_app_or in Hin. destruct Hin as [Hin|Hin]; [tauto|].
      destruct Hin as [Hin|[Hin|[]]]; discriminate.
    + destruct (count =? 0) eqn:Hc; simpl.
      * apply Z.eqb_eq in Hc. subst count. split; [exact Hno|].
        exists (reads st). auto.
      * pose proof (renderStatus_no_reboot w (S (reads st))) as Hr.
        destruct (renderStatus w (S (reads st))) as [shown ok]. simpl in Hr.
        assert (Hno' : ~ In RunReboot
                         (trace st ++ [Sleep pollInterval; Print clearScreen]
                                   ++ shown)%list).
        { intros Hin. apply in_app_or in Hin. destruct Hin as [Hin|Hin]; [tauto|].
          destruct Hin as [Hin|[Hin|Hin]]; try discriminate. tauto. }
        destruct ok; simpl; [exact Hno'|]. intros Hin. now destruct (Hno' Hin).
  - (* Idle *)
    intros (Hno & i & Hreads & Hi).
    destruct (getMdChecking (mdstatAt w (reads st))) as [count err] eqn:Hread.
    destruct err as [e|]; simpl.
    + intros Hin. exfalso. apply in_app_or in Hin.
      destruct Hin as [Hin|Hin]; [tauto|].
      destruct Hin as [Hin|[]]; discriminate.
    + destruct (count =? 0) eqn:Hc; simpl.
      * intros _. apply Z.eqb_eq in Hc. subst count.
        split; [reflexivity|]. exists i. rewrite Hreads in *. auto.
      * intros Hin. now destruct (Hno Hin).
  - (* Halted *)
    rewrite Hat. trivial.
Qed.

Lemma confirmed_steps (w : world) (n : nat) (st : state) :
  confirmed w st -> confirmed w (steps w n st).
Proof.
  revert st. induction n as [|n IH]; intros st H; simpl; [exact H|].
  apply IH. now apply confirmed_step.
Qed.

(** C9.  [reboot] is run only after the read that follows the loop has
    counted no check, the loop itself having been left on a read that counted
    none; when the read that follows the loop fails, the process logs a fatal
    error and stops: it runs no [reboot] and does not poll again. *)
Theorem reboot_only_after_confirmed_idle (w : world) :
  (forall n,
      In RunReboot (trace (steps w n start)) ->
      exists i,
        at_ (steps w n start)
        = Halted (if rebootErr w then RebootFailed else Rebooted) /\
        reads (steps w n start) = S (S i) /\
        getMdChecking (mdstatAt w i) = (0, None) /\
        getMdChecking (mdstatAt w (S i)) = (0, None)) /\
  (forall st e,
      at_ st = Idle ->
      snd (getMdChecking (mdstatAt w (reads st))) = Some e ->
      step w st =
      {| at_ := Halted FinalReadFailed;
         reads := S (reads st);
         trace := trace st ++ [Fatalf "Error in final RAID check: %v" e] |} /\
      forall m, steps w m (step w st) = step w st).
Proof.
  split.
  - intros n Hin. pose proof (confirmed_steps w n start) as H.
    unfold confirmed in H at 2.
    destruct (at_ (steps w n start)) eqn:Hat.
    + exfalso. apply H; [|exact Hin]. intros [].
    + exfalso. apply H; [|exact Hin]. intros [].
    + destruct H as (-> & i & Hr & H1 & H2); [intros [] | exact Hin|].
      exists i. auto.
  - intros st e Hat He.
    assert (E : step w st =
                {| at_ := Halted FinalReadFailed;
                   reads := S (reads st);
                   trace := trace st ++
                            [Fatalf "Error in final RAID check: %v" e] |}).
    { unfold step. rewrite Hat.
      destruct (getMdChecking (mdstatAt w (reads st))) as [count err].
      simpl in He. now subst err. }
    split; [exact E|]. intros m. rewrite E.
    now apply (steps_halted w m _ FinalReadFailed).
Qed.

Lemma empty_bracket_is_no_progress_witness :
  getMdProgress mdstatEmptyBracket = (zero, Some NoProgressInformation).
Proof.
  apply (empty_bracket_is_no_progress
           ["md0 : active raid1 sdb1[1] sda1[0]"; "      check [] starting"]).
  repeat constructor.
  - intros [H | H]; apply Contains_iff in H; vm_compute in H; discriminate.
  - intros _. exists "      check ", " starting".
    simpl. repeat split; discriminate.
Defined.

Lemma read_failures_are_retried_witness :
  at_ (steps flakyWorld 1 start) = Polling /\
  trace (steps flakyWorld 1 start)
  = [Logf "Error checking RAID status: %v" FailedToOpen; Sleep 10] /\
  at_ (steps unreadableWorld 3 start) = Polling /\
  trace (steps unreadableWorld 3 start)
  = [Logf "Error checking RAID status: %v" FailedToOpen; Sleep 10;
     Logf "Error checking RAID status: %v" FailedToOpen; Sleep 10;
     Logf "Error checking RAID status: %v" FailedToOpen; Sleep 10].
Proof.
  assert (Hflaky : forall i, (reads start <= i < reads start + 1)%nat ->
                             snd (getMdChecking (mdstatAt flakyWorld i)) <> None).
  { intros i Hi. simpl in Hi. replace i with 0%nat by lia. simpl. discriminate. }
  assert (Hfail : forall i, (reads start <= i < reads start + 3)%nat ->
                            snd (getMdChecking (mdstatAt unreadableWorld i)) <> None)
    by (intros i _; simpl; discriminate).
  destruct (proj1 (proj2 (proj2 (read_failures_are_retried
                                   flakyWorld start eq_refl))) 1%nat Hflaky)
    as (H1 & _ & H3 & _).
  destruct (proj1 (proj2 (proj2 (read_failures_are_retried
                                   unreadableWorld start eq_refl))) 3%nat Hfail)
    as (H4 & _ & H6 & _).
  repeat split; assumption.
Defined.

Lemma reboot_only_after_confirmed_idle_witness :
  exists i,
    at_ (steps checkThenIdle 4 start) = Halted Rebooted /\
    reads (steps checkThenIdle 4 start) = S (S i) /\
    getMdChecking (mdstatAt checkThenIdle i) = (0, None) /\
    getMdChecking (mdstatAt checkThenIdle (S i)) = (0, None).
Proof.
  apply (proj1 (reboot_only_after_confirmed_idle checkThenIdle) 4%nat).
  vm_compute. repeat (try (left; reflexivity); right).
Defined.

(** ** The arithmetic of [float64] *)

(** *** Powers of two as real numbers *)

Section Pow2.

Lemma pow2_pos (e : Z) : (0 < pow2 e)%R.
Proof. apply powerRZ_lt. lra. Qed.

Lemma pow2_add (a b : Z) : pow2 (a + b) = (pow2 a * pow2 b)%R.
Proof. apply powerRZ_add. lra. Qed.

Lemma pow2_IZR (n : Z) : 0 <= n -> pow2 n = IZR (2 ^ n).
Proof.
  intros Hn. unfold pow2. destruct n as [|p|p]; [reflexivity| |lia].
  change (2 ^ Z.pos p) with (Z.pow_pos 2 p).
  now rewrite Zpower_pos_powerRZ.
Qed.

Lemma pow2_le (a b : Z) : a <= b -> (pow2 a <= pow2 b)%R.
Proof.
  intros H. replace b with (a + (b - a)) by lia. rewrite pow2_add.
  assert (1 <= pow2 (b - a))%R.
  { rewrite pow2_IZR by lia. apply IZR_le.
    assert (0 < 2 ^ (b - a)) by (apply Z.pow_pos_nonneg; lia). lia. }
  pose proof (pow2_pos a). nra.
Qed.

Lemma pow2_lt (a b : Z) : a < b -> (pow2 a < pow2 b)%R.
Proof.
  intros H. replace b with (a + (b - a)) by lia. rewrite pow2_add.
  assert (2 <= pow2 (b - a))%R.
  { rewrite pow2_IZR by lia. apply IZR_le.
    replace (b - a) with (Z.succ (b - a - 1)) by lia.
    rewrite Z.pow_succ_r by lia.
    assert (0 < 2 ^ (b - a - 1)) by (apply Z.pow_pos_nonneg; lia). lia. }
  pose proof (pow2_pos a). nra.
Qed.
End Pow2.

(** *** The number of bits of a mantissa *)

Section Digits.

Lemma digits_log2 (m : Z) : 0 < m -> digits m = Z.log2 m + 1.
Proof.
  destruct m as [|p|p]; try lia. intros _. unfold digits, Zdigits2.
  assert (H : forall q, digits2_pos q = Pos.size q)
    by (induction q; simpl; congruence).
  rewrite H. destruct p; simpl; lia.
Qed.

Lemma digits_0 : digits 0 = 0. Proof. reflexivity. Qed.

Lemma digits_bounds (m : Z) : 0 < m -> 2 ^ (digits m - 1) <= m < 2 ^ digits m /\ 1 <= digits m.
Proof.
  intros H. rewrite digits_log2 by exact H.
  pose proof (Z.log2_spec m H). pose proof (Z.log2_nonneg m).
  replace (Z.log2 m + 1 - 1) with (Z.log2 m) by lia.
  replace (Z.log2 m + 1) with (Z.succ (Z.log2 m)) by lia. lia.
Qed.

Lemma digits_unique (m k : Z) : 2 ^ (k - 1) <= m < 2 ^ k -> 1 <= k -> digits m = k.
Proof.
  intros H Hk.
  assert (0 < m). { assert (0 < 2 ^ (k - 1)) by (apply Z.pow_pos_nonneg; lia). lia. }
  rewrite digits_log2 by assumption.
  rewrite (Z.log2_unique m (k - 1)); try lia.
  replace (Z.succ (k - 1)) with k by lia. exact H.
Qed.

Lemma digits_nonneg (m : Z) : 0 <= m -> 0 <= digits m.
Proof.
  intros H. destruct (Z.eq_dec m 0) as [->|]; [rewrite digits_0; lia|].
  pose proof (digits_bounds m). lia.
Qed.

Lemma digits_mono (a b : Z) : 0 <= a <= b -> digits a <= digits b.
Proof.
  intros H. destruct (Z.eq_dec a 0) as [->|].
  - rewrite digits_0. apply digits_nonneg. lia.
  - rewrite !digits_log2 by lia. pose proof (Z.log2_le_mono a b). lia.
Qed.

(** A number below [2^k] has at most [k] bits. *)
Lemma digits_lt_pow (m k : Z) : 0 <= m -> 0 <= k -> m < 2 ^ k -> digits m <= k.
Proof.
  intros Hm Hk H. destruct (Z.eq_dec m 0) as [->|]; [rewrite digits_0; lia|].
  destruct (digits_bounds m) as [[H1 _] H2]; [lia|].
  destruct (Z_le_gt_dec (digits m) k); [assumption|].
  assert (2 ^ k <= 2 ^ (digits m - 1)) by (apply Z.pow_le_mono_r; lia). lia.
Qed.

Lemma digits_ge_pow (m k : Z) : 0 <= k -> 2 ^ k <= m -> k + 1 <= digits m.
Proof.
  intros Hk H.
  assert (0 < 2 ^ k) by (apply Z.pow_pos_nonneg; lia).
  destruct (digits_bounds m) as [[_ H1] H2]; [lia|].
  destruct (Z_le_gt_dec (k + 1) (digits m)); [assumption|].
  assert (2 ^ digits m <= 2 ^ k) by (apply Z.pow_le_mono_r; lia). lia.
Qed.

Lemma digits_div_pow2 (m n : Z) :
  0 <= n -> 0 < m / 2 ^ n -> digits (m / 2 ^ n) = digits m - n.
Proof.
  intros Hn Hq.
  assert (Hp : 0 < 2 ^ n) by (apply Z.pow_pos_nonneg; lia).
  assert (Hm : 2 ^ n <= m).
  { destruct (Z_lt_le_dec m (2 ^ n)); [|assumption].
    destruct (Z_lt_le_dec m 0).
    - assert (m / 2 ^ n < 0) by (apply Z.div_lt_upper_bound; lia). lia.
    - rewrite Z.div_small in Hq by lia. lia. }
  pose proof (digits_ge_pow m n Hn Hm) as Hd.
  destruct (digits_bounds m) as [[H1 H2] _]; [lia|].
  apply digits_unique; [|lia]. split.
  - apply Z.div_le_lower_bound; [lia|].
    rewrite <- Z.pow_add_r by lia. replace (n + (digits m - n - 1)) with (digits m - 1) by lia.
    exact H1.
  - apply Z.div_lt_upper_bound; [lia|].
    rewrite <- Z.pow_add_r by lia. replace (n + (digits m - n)) with (digits m) by lia.
    exact H2.
Qed.

Lemma digits_succ (m : Z) :
  0 <= m ->
  digits (m + 1) = digits m \/ (m + 1 = 2 ^ digits m /\ digits (m + 1) = digits m + 1).
Proof.
  intros Hm. destruct (Z.eq_dec m 0) as [->|].
  - right. split; reflexivity.
  - destruct (digits_bounds m) as [[H1 H2] H3]; [lia|].
    destruct (Z.eq_dec (m + 1) (2 ^ digits m)) as [E|E].
    + right. split; [exact E|]. apply digits_unique; [|lia].
      replace (digits m + 1 - 1) with (digits m) by lia. rewrite E. split; [lia|].
      apply Z.pow_lt_mono_r; lia.
    + left. apply digits_unique; lia.
Qed.
End Digits.

(** *** Shifting a mantissa to the right

    [rec_inv a b mrs] says that the register [mrs] holds the integer part of
    [a / b] and, in its round and sticky bits, where the remainder lies with
    respect to one half.  A shift by one bit keeps this for [2 * b]. *)

Section Shift.

Lemma shr_1_eq (m : Z) (r s : bool) :
  0 <= m ->
  shr_1 (Build_shr_record m r s) = Build_shr_record (m / 2) (Z.odd m) (r || s).
Proof.
  intros Hm. destruct m as [|p|p]; [reflexivity| |lia].
  destruct p as [p|p|]; unfold shr_1.
  - f_equal. rewrite Pos2Z.inj_xI. 
    replace (2 * Z.pos p + 1) with (1 + Z.pos p * 2) by lia.
    rewrite Z.div_add by lia. reflexivity.
  - f_equal. rewrite Pos2Z.inj_xO. 
    replace (2 * Z.pos p) with (0 + Z.pos p * 2) by lia.
    rewrite Z.div_add by lia. reflexivity.
  - reflexivity.
Qed.

Lemma shr_1_inv (a b : Z) (mrs : shr_record) :
  rec_inv a b mrs -> rec_inv a (2 * b) (shr_1 mrs).
Proof.
  destruct mrs as [m r s]. unfold rec_inv. cbn [shr_m shr_r shr_s].
  intros (Ha & Hb & Hm & Hr & Hs).
  assert (Hm0 : 0 <= m) by (subst m; apply Z.div_pos; lia).
  rewrite shr_1_eq by exact Hm0. cbn [shr_m shr_r shr_s].
  pose proof (Z.mod_pos_bound a b Hb) as Hrem.
  assert (Hdiv : a / (2 * b) = m / 2).
  { subst m. rewrite Z.mul_comm. rewrite Z.div_div by lia. reflexivity. }
  assert (Hmod : a mod (2 * b) = a mod b + b * (m mod 2)).
  { subst m. rewrite (Z.mul_comm 2 b). apply Z.rem_mul_r; lia. }
  rewrite Hmod, Zmod_odd.
  assert (Hrs : r || s = true <-> a mod b <> 0).
  { rewrite orb_true_iff. split.
    - intros [H | H]; [apply Hr in H | apply Hs in H]; lia.
    - intros H. destruct (Z.eq_dec (2 * (a mod b)) b).
      + left. apply Hr. lia.
      + right. apply Hs. lia. }
  split; [exact Ha|]. split; [lia|]. split; [now rewrite Hdiv|].
  rewrite Hrs. destruct (Z.odd m); split; split; try discriminate; try lia.
Qed.

Lemma iter_shr_inv (p : positive) (a b : Z) (mrs : shr_record) :
  rec_inv a b mrs -> rec_inv a (b * 2 ^ Z.pos p) (SpecFloat.iter_pos shr_1 p mrs).
Proof.
  revert b mrs. induction p as [p IH|p IH|]; intros b mrs H; simpl SpecFloat.iter_pos.
  - apply shr_1_inv in H. apply IH in H. apply IH in H.
    replace (b * 2 ^ Z.pos p~1) with (2 * b * 2 ^ Z.pos p * 2 ^ Z.pos p); [exact H|].
    assert (E : Z.pos p~1 = Z.pos p + Z.pos p + 1) by lia.
    rewrite E, !Z.pow_add_r by lia. lia.
  - apply IH in H. apply IH in H.
    replace (b * 2 ^ Z.pos p~0) with (b * 2 ^ Z.pos p * 2 ^ Z.pos p); [exact H|].
    assert (E : Z.pos p~0 = Z.pos p + Z.pos p) by lia.
    rewrite E, !Z.pow_add_r by lia. lia.
  - apply shr_1_inv in H. replace (b * 2 ^ 1) with (2 * b) by lia. exact H.
Qed.

Lemma shr_inv (a b : Z) (mrs : shr_record) (e n : Z) :
  rec_inv a b mrs -> 0 <= n ->
  snd (shr mrs e n) = e + n /\ rec_inv a (b * 2 ^ n) (fst (shr mrs e n)).
Proof.
  intros H Hn. destruct n as [|p|p]; [| |lia]; simpl.
  - split; [lia|]. now rewrite Z.mul_1_r.
  - split; [reflexivity|]. now apply iter_shr_inv.
Qed.

Lemma rec_inv_of_loc (a b : Z) :
  0 <= a -> 0 < b ->
  rec_inv a b (shr_record_of_loc (a / b) (locOf a b)).
Proof.
  intros Ha Hb. unfold rec_inv, locOf.
  pose proof (Z.mod_pos_bound a b Hb) as Hrem.
  destruct (a mod b =? 0) eqn:E0.
  - apply Z.eqb_eq in E0. cbn [shr_record_of_loc shr_m shr_r shr_s].
    repeat split; try lia; try discriminate.
  - apply Z.eqb_neq in E0.
    destruct (2 * (a mod b) ?= b) eqn:C;
      [apply Z.compare_eq in C | rewrite Z.compare_lt_iff in C
       | rewrite Z.compare_gt_iff in C];
      cbn [shr_record_of_loc shr_m shr_r shr_s];
      repeat split; try lia; try discriminate; try tauto.
Qed.
End Shift.

(** *** The rounding function, step by step *)

Section RoundAux.

Lemma fx_eq (x : Z) : fx x = Z.max (x - 53) (-1074).
Proof. reflexivity. Qed.

Lemma loc_of_rec (a b : Z) (mrs : shr_record) :
  rec_inv a b mrs -> loc_of_shr_record mrs = locOf a b /\ shr_m mrs = a / b.
Proof.
  destruct mrs as [m r s]. unfold rec_inv, locOf. cbn [shr_m shr_r shr_s].
  intros (Ha & Hb & Hm & Hr & Hs). split; [|exact Hm].
  pose proof (Z.mod_pos_bound a b Hb) as Hrem.
  assert (Hr' : r = false -> 2 * (a mod b) < b).
  { intros ->. destruct (Z_lt_le_dec (2 * (a mod b)) b) as [|H]; [assumption|].
    apply Hr in H. discriminate. }
  assert (Hs' : s = false -> a mod b = 0 \/ 2 * (a mod b) = b).
  { intros ->. destruct (Z.eq_dec (a mod b) 0); [now left|].
    destruct (Z.eq_dec (2 * (a mod b)) b); [now right|].
    assert (false = true) by (apply Hs; tauto). discriminate. }
  assert (Hr1 : r = true -> b <= 2 * (a mod b)) by apply Hr.
  assert (Hs1 : s = true -> a mod b <> 0 /\ 2 * (a mod b) <> b) by apply Hs.
  clear Hr Hs.
  destruct (a mod b =? 0) eqn:E0.
  - apply Z.eqb_eq in E0.
    destruct r; [specialize (Hr1 eq_refl); exfalso; lia|].
    destruct s; [specialize (Hs1 eq_refl); exfalso; lia|]. reflexivity.
  - apply Z.eqb_neq in E0.
    destruct (2 * (a mod b) ?= b) eqn:C;
      [apply Z.compare_eq in C | rewrite Z.compare_lt_iff in C
       | rewrite Z.compare_gt_iff in C];
      destruct r, s; try reflexivity; exfalso;
      try specialize (Hr1 eq_refl); try specialize (Hs1 eq_refl);
      try specialize (Hr' eq_refl); try specialize (Hs' eq_refl); lia.
Qed.

Lemma shr_fexp_spec (a b e : Z) :
  0 <= a -> 0 < b -> e <= roundExp a b e ->
  let '(mrs, e1) := shr_fexp prec emax (a / b) e (locOf a b) in
  e1 = roundExp a b e /\ rec_inv a (roundDen a b e) mrs.
Proof.
  intros Ha Hb He. unfold shr_fexp.
  pose proof (rec_inv_of_loc a b Ha Hb) as H.
  apply (shr_inv a b _ e (roundExp a b e - e)) in H; [|lia].
  unfold roundExp, fx in *.
  destruct (shr _ e _) as [mrs e1]. simpl in H. destruct H as [-> H].
  split; [lia|exact H].
Qed.

(** [binary_round_aux] computes [normMant] and [normExp]. *)
Lemma binary_round_aux_steps (s : bool) (a b e : Z) :
  0 <= a -> 0 < b -> e <= roundExp a b e ->
  roundExp a b e <= normExp a b e ->
  binary_round_aux prec emax s (a / b) e (locOf a b)
  = pack s (normMant a b e) (normExp a b e).
Proof.
  intros Ha Hb He Hn. unfold binary_round_aux.
  pose proof (shr_fexp_spec a b e Ha Hb He) as H1.
  destruct (shr_fexp prec emax (a / b) e (locOf a b)) as [mrs e1].
  destruct H1 as [-> H1]. apply loc_of_rec in H1. destruct H1 as [-> ->].
  fold (roundMant a b e).
  assert (Hm2 : 0 <= roundMant a b e).
  { unfold roundMant.
    assert (0 <= a / roundDen a b e).
    { apply Z.div_pos; [lia|]. unfold roundDen.
      apply Z.mul_pos_pos; [lia|]. apply Z.pow_pos_nonneg; lia. }
    destruct (locOf a (roundDen a b e)) as [|[| |]]; simpl; try lia.
    destruct (Z.even _); lia. }
  pose proof (shr_fexp_spec (roundMant a b e) 1 (roundExp a b e) Hm2 Z.lt_0_1) as H2.
  unfold locOf in H2. rewrite Z.mod_1_r, Z.div_1_r in H2.
  change (0 =? 0) with true in H2. cbv iota in H2.
  unfold roundExp at 1 2 in H2. rewrite Z.div_1_r in H2.
  fold (normExp a b e) in H2. specialize (H2 Hn).
  destruct (shr_fexp prec emax (roundMant a b e) (roundExp a b e) loc_Exact) as [mrs2 e3].
  destruct H2 as [-> H2]. apply loc_of_rec in H2. destruct H2 as [_ ->].
  assert (E1 : roundExp (roundMant a b e) 1 (roundExp a b e) = normExp a b e).
  { unfold normExp. unfold roundExp at 1. now rewrite Z.div_1_r. }
  assert (E2 : roundDen (roundMant a b e) 1 (roundExp a b e)
               = 2 ^ (normExp a b e - roundExp a b e)).
  { unfold roundDen. now rewrite E1, Z.mul_1_l. }
  rewrite E1, E2. reflexivity.
Qed.
End RoundAux.

(** *** Mantissa and exponent after each step

    For a non-negative [a / b * 2^e] whose exponent is not above that of its
    canonical form. *)

Section RoundFacts.

Variables a b e : Z.
Hypothesis Ha : 0 <= a.
Hypothesis Hb : 0 < b.
Hypothesis He : e <= roundExp a b e.

Let e1 := roundExp a b e.
Let b1 := roundDen a b e.
Let m1 := a / b1.
Let m2 := roundMant a b e.
Let e3 := normExp a b e.
Let m3 := normMant a b e.

Lemma roundDen_pos : 0 < b1.
Proof.
  unfold b1, roundDen. apply Z.mul_pos_pos; [lia|].
  apply Z.pow_pos_nonneg; lia.
Qed.

Lemma m1_shift : m1 = (a / b) / 2 ^ (e1 - e).
Proof.
  unfold m1, b1, roundDen. fold e1. rewrite Z.div_div; [reflexivity|lia|].
  apply Z.pow_pos_nonneg; unfold e1; lia.
Qed.

Lemma m1_nonneg : 0 <= m1.
Proof. unfold m1. apply Z.div_pos; [lia | apply roundDen_pos]. Qed.

Lemma m1_digits : 0 < m1 -> digits m1 + e1 = digits (a / b) + e.
Proof.
  intros H. rewrite m1_shift in *. rewrite digits_div_pow2; [lia| |exact H].
  unfold e1. lia.
Qed.

Lemma m1_canonical : 0 < m1 -> fx (digits m1 + e1) = e1.
Proof. intros H. rewrite m1_digits by exact H. reflexivity. Qed.

Lemma m1_zero : m1 = 0 -> e1 = -1074.
Proof.
  intros H. rewrite m1_shift in H.
  assert (Hn : 0 <= e1 - e) by (unfold e1; lia).
  assert (Hp : 0 < 2 ^ (e1 - e)) by (apply Z.pow_pos_nonneg; lia).
  assert (Hm : 0 <= a / b) by (apply Z.div_pos; lia).
  assert (Hlt : a / b < 2 ^ (e1 - e)).
  { destruct (Z_lt_le_dec (a / b) (2 ^ (e1 - e))); [assumption|].
    assert (1 <= a / b / 2 ^ (e1 - e)); [|lia].
    apply Z.div_le_lower_bound; lia. }
  pose proof (digits_lt_pow _ _ Hm Hn Hlt) as Hd.
  unfold e1, roundExp in *. fold (digits (a / b)) in *. rewrite fx_eq in *. lia.
Qed.

Lemma m2_bounds : m1 <= m2 <= m1 + 1 /\ (a mod b1 = 0 -> m2 = m1).
Proof.
  unfold m2, roundMant. fold b1. fold m1. unfold locOf.
  destruct (a mod b1 =? 0) eqn:E0.
  - simpl. lia.
  - apply Z.eqb_neq in E0.
    destruct (2 * (a mod b1) ?= b1); simpl; try lia.
    destruct (Z.even m1); lia.
Qed.

(** After the rounding the mantissa is brought back to 53 bits by a shift of
    at most one bit, which loses nothing, and the result is canonical. *)
Lemma norm_facts :
  e1 <= e3 /\ m3 * 2 ^ (e3 - e1) = m2 /\ 0 <= m3 /\
  (0 < m3 -> fx (digits m3 + e3) = e3).
Proof.
  pose proof m1_nonneg as H1. pose proof m2_bounds as [H2 _].
  pose proof m1_zero as Hz. pose proof m1_canonical as Hc.
  assert (Hsame : digits m2 = digits m1 -> 0 < m1 \/ m2 = 0 ->
                  e3 = e1 /\ m3 = m2).
  { intros Hd Hcase.
    assert (E : e3 = e1).
    { unfold e3, normExp. fold m2. fold e1. fold (digits m2). rewrite Hd.
      destruct Hcase as [Hpos | H0]; [now apply Hc|].
      assert (m1 = 0) by lia. subst m1. rewrite H, digits_0.
      rewrite (Hz H). reflexivity. }
    split; [exact E|]. unfold m3, normMant. fold e3 e1 m2.
    rewrite E, Z.sub_diag. apply Z.div_1_r. }
  assert (Hfin : e3 = e1 -> m3 = m2 ->
                 e1 <= e3 /\ m3 * 2 ^ (e3 - e1) = m2 /\ 0 <= m3 /\
                 (0 < m3 -> fx (digits m3 + e3) = e3)).
  { intros E E'. rewrite E, E', Z.sub_diag. repeat split; try lia.
    intros _. rewrite <- E at 2. reflexivity. }
  destruct (Z.eq_dec m2 m1) as [E21 | N21].
  - destruct (Hsame (f_equal digits E21)) as [E E']; [lia|]. now apply Hfin.
  - assert (E21 : m2 = m1 + 1) by lia.
    destruct (digits_succ m1 H1) as [Hd | [Hpow Hd]].
    + rewrite <- E21 in Hd. destruct (Hsame Hd) as [E E']; [|now apply Hfin].
      left. destruct (Z.eq_dec m1 0) as [Z0|]; [|lia].
      rewrite E21, Z0 in Hd. discriminate.
    + rewrite <- E21 in Hd, Hpow.
      assert (He3 : e3 = fx (digits m1 + 1 + e1)).
      { unfold e3, normExp. fold m2 e1. fold (digits m2). now rewrite Hd. }
      destruct (Z.eq_dec m1 0) as [Z0 | NZ].
      * specialize (Hz Z0). rewrite Z0, digits_0 in *. rewrite Hz in He3.
        assert (E : e3 = e1) by (rewrite He3, Hz; reflexivity).
        assert (E' : m3 = m2).
        { unfold m3, normMant. fold e3 e1 m2. rewrite E, Z.sub_diag.
          apply Z.div_1_r. }
        rewrite E, E', Z.sub_diag. repeat split; try lia.
        intros _. rewrite E21. simpl. rewrite Hz. reflexivity.
      * assert (Hpos : 0 < m1) by lia. specialize (Hc Hpos).
        rewrite fx_eq in Hc, He3.
        destruct (Z_le_gt_dec (-1074) (digits m1 + e1 - 53)) as [Hnorm | Hsub].
        -- assert (Hd1 : digits m1 = 53) by lia.
           assert (E : e3 = e1 + 1) by lia.
           assert (E' : m3 = 2 ^ 52).
           { unfold m3, normMant. fold e3 e1 m2. rewrite E, Hpow, Hd1.
             replace (e1 + 1 - e1) with 1 by lia. reflexivity. }
           rewrite E, E'. replace (e1 + 1 - e1) with 1 by lia.
           rewrite Hpow, Hd1. repeat split; try lia; try reflexivity.
           intros _. change (digits (2 ^ 52)) with 53. rewrite fx_eq. lia.
        -- assert (E : e3 = e1) by lia.
           assert (E' : m3 = m2).
           { unfold m3, normMant. fold e3 e1 m2. rewrite E, Z.sub_diag.
             apply Z.div_1_r. }
           rewrite E, E', Z.sub_diag. repeat split; try lia.
           intros _. rewrite Hd, fx_eq. lia.
Qed.

End RoundFacts.

(** *** Real values *)

Section Values.

Lemma valPos_nonneg (m e : Z) : 0 <= m -> (0 <= valPos m e)%R.
Proof.
  intros H. unfold valPos. apply IZR_le in H. pose proof (pow2_pos e). nra.
Qed.

Lemma valPos_pos (m e : Z) : 0 < m -> (0 < valPos m e)%R.
Proof.
  intros H. unfold valPos. apply IZR_lt in H. pose proof (pow2_pos e). nra.
Qed.

Lemma valPos_mono (m m' e : Z) : m <= m' -> (valPos m e <= valPos m' e)%R.
Proof.
  intros H. unfold valPos. apply IZR_le in H. pose proof (pow2_pos e). nra.
Qed.

Lemma valPos_lt_pow (m e : Z) : 0 < m -> (valPos m e < pow2 (digits m + e))%R.
Proof.
  intros H. destruct (digits_bounds m H) as [[_ H2] H3].
  rewrite pow2_add, (pow2_IZR (digits m)) by lia. unfold valPos.
  apply IZR_lt in H2. pose proof (pow2_pos e). nra.
Qed.

Lemma valPos_ge_pow (m e : Z) : 0 < m -> (pow2 (digits m - 1 + e) <= valPos m e)%R.
Proof.
  intros H. destruct (digits_bounds m H) as [[H1 _] H3].
  rewrite pow2_add, (pow2_IZR (digits m - 1)) by lia. unfold valPos.
  apply IZR_le in H1. pose proof (pow2_pos e). nra.
Qed.

(** A power of two moves from the mantissa to the exponent. *)
Lemma valPos_shift (m e k : Z) :
  0 <= k -> valPos (m * 2 ^ k) e = valPos m (e + k).
Proof.
  intros H. unfold valPos. rewrite mult_IZR, <- pow2_IZR, pow2_add by lia. ring.
Qed.

Lemma pow2_lt_inv (x y : Z) : (pow2 x < pow2 y)%R -> x < y.
Proof.
  intros H. destruct (Z_lt_le_dec x y) as [|Hle]; [assumption|].
  pose proof (pow2_le y x Hle). lra.
Qed.

Lemma fx_mono (x y : Z) : x <= y -> fx x <= fx y.
Proof. rewrite !fx_eq. lia. Qed.

Lemma fx_min (x : Z) : -1074 <= fx x.
Proof. rewrite fx_eq. lia. Qed.

(** Among canonical numbers the value orders the exponents. *)
Lemma canon_exp_le (m e m' e' : Z) :
  0 < m -> 0 < m' ->
  fx (digits m + e) = e -> fx (digits m' + e') = e' ->
  (valPos m e <= valPos m' e')%R -> e <= e'.
Proof.
  intros Hm Hm' Hc Hc' Hv.
  pose proof (valPos_ge_pow m e Hm). pose proof (valPos_lt_pow m' e' Hm').
  assert (pow2 (digits m - 1 + e) < pow2 (digits m' + e'))%R by lra.
  apply pow2_lt_inv in H1. rewrite <- Hc, <- Hc'. apply fx_mono. lia.
Qed.

End Values.

(** *** A rounding does not cross a canonical number

    The rounded value stays on the same side of every canonical number as
    the value it rounds. *)

Section RoundBounds.

Variables a b e : Z.
Hypothesis Ha : 0 <= a.
Hypothesis Hb : 0 < b.
Hypothesis He : e <= roundExp a b e.

Let y : R := (IZR a / IZR b * pow2 e)%R.
Let e1 := roundExp a b e.
Let b1 := roundDen a b e.
Let m2 := roundMant a b e.
Let e3 := normExp a b e.
Let m3 := normMant a b e.

Lemma y_at_e1 : y = (IZR a / IZR b1 * pow2 e1)%R.
Proof.
  unfold y, b1, roundDen. fold e1.
  assert (Hn : 0 <= e1 - e) by (unfold e1; lia).
  rewrite mult_IZR, <- pow2_IZR by exact Hn.
  replace (pow2 e1) with (pow2 e * pow2 (e1 - e))%R
    by (rewrite <- pow2_add; f_equal; lia).
  pose proof (pow2_pos (e1 - e)). apply IZR_lt in Hb. field. lra.
Qed.

Lemma val_m3 : valPos m3 e3 = valPos m2 e1.
Proof.
  pose proof (norm_facts a b e) as H. feed H. destruct H as (H1 & H2 & _).
  fold e1 e3 m2 m3 in H1, H2. rewrite <- H2.
  rewrite valPos_shift by lia. f_equal. lia.
Qed.

Lemma a_over_b : (IZR (a / b) <= IZR a / IZR b)%R.
Proof.
  pose proof (Z.mul_div_le a b Hb) as H. apply IZR_le in H.
  rewrite mult_IZR in H. apply IZR_lt in Hb.
  apply Rmult_le_reg_r with (IZR b); [lra|].
  unfold Rdiv. rewrite Rmult_assoc, Rinv_l by lra. lra.
Qed.

(** The exponent of the rounding is no larger than that of a canonical
    number above the value. *)
Lemma e1_le (mz ez : Z) :
  0 < mz -> fx (digits mz + ez) = ez -> (y <= valPos mz ez)%R -> e1 <= ez.
Proof.
  intros Hmz Hcz Hle.
  assert (Hm : 0 <= a / b) by (apply Z.div_pos; lia).
  destruct (Z.eq_dec (a / b) 0) as [E0 | N0].
  - unfold e1, roundExp. rewrite E0. change (Zdigits2 0) with 0.
    assert (e <= -1074).
    { unfold roundExp in He. rewrite E0 in He. change (Zdigits2 0) with 0 in He.
      rewrite fx_eq in He. lia. }
    rewrite fx_eq. pose proof (fx_min (digits mz + ez)). lia.
  - assert (Hpos : 0 < a / b) by lia.
    pose proof (valPos_ge_pow (a / b) e Hpos) as H1.
    pose proof (valPos_lt_pow mz ez Hmz) as H2.
    pose proof a_over_b as H3.
    assert (valPos (a / b) e <= y)%R.
    { unfold valPos, y. pose proof (pow2_pos e). nra. }
    assert (pow2 (digits (a / b) - 1 + e) < pow2 (digits mz + ez))%R by lra.
    apply pow2_lt_inv in H0. unfold e1, roundExp. fold (digits (a / b)).
    rewrite <- Hcz. apply fx_mono. lia.
Qed.

(** The two bounds. *)
Lemma round_upper (mz ez : Z) :
  0 < mz -> fx (digits mz + ez) = ez ->
  (y <= valPos mz ez)%R -> (valPos m3 e3 <= valPos mz ez)%R.
Proof.
  intros Hmz Hcz Hle. pose proof (e1_le mz ez Hmz Hcz Hle) as Hexp.
  rewrite val_m3.
  replace (valPos mz ez) with (valPos (mz * 2 ^ (ez - e1)) e1)
    by (rewrite valPos_shift by lia; f_equal; lia).
  apply valPos_mono.
  set (K := mz * 2 ^ (ez - e1)).
  assert (HK : (IZR a / IZR b1 * pow2 e1 <= IZR K * pow2 e1)%R).
  { rewrite <- y_at_e1. fold (valPos K e1). unfold K.
    rewrite valPos_shift by lia. replace (e1 + (ez - e1)) with ez by lia.
    exact Hle. }
  pose proof (roundDen_pos a b e) as Hb1. feed Hb1. fold b1 in Hb1.
  assert (HaK : a <= K * b1).
  { apply le_IZR. rewrite mult_IZR. pose proof (pow2_pos e1).
    apply IZR_lt in Hb1.
    assert (IZR a / IZR b1 <= IZR K)%R by nra.
    apply Rmult_le_compat_r with (r := IZR b1) in H0; [|lra].
    unfold Rdiv in H0. rewrite Rmult_assoc, Rinv_l, Rmult_1_r in H0 by lra.
    exact H0. }
  destruct (m2_bounds a b e) as [Hm2 Hex]. fold b1 m2 in Hm2, Hex.
  pose proof (Z.div_mod a b1 ltac:(lia)) as Hdm.
  pose proof (Z.mod_pos_bound a b1 Hb1) as Hrem.
  destruct (Z.eq_dec (a mod b1) 0) as [E0 | N0].
  - rewrite (Hex E0). apply Z.div_le_upper_bound; lia.
  - assert (a / b1 < K); [|lia]. nia.
Qed.

Lemma round_lower (mz ez : Z) :
  0 < mz -> fx (digits mz + ez) = ez ->
  (valPos mz ez <= y)%R -> (valPos mz ez <= valPos m3 e3)%R.
Proof.
  intros Hmz Hcz Hle. rewrite val_m3.
  pose proof (roundDen_pos a b e) as Hb1. feed Hb1. fold b1 in Hb1.
  destruct (m2_bounds a b e) as [Hm2 _]. fold b1 m2 in Hm2.
  apply Rle_trans with (valPos (a / b1) e1); [|apply valPos_mono; lia].
  destruct (Z_le_gt_dec e1 ez) as [Hexp | Hexp].
  - replace (valPos mz ez) with (valPos (mz * 2 ^ (ez - e1)) e1)
      by (rewrite valPos_shift by lia; f_equal; lia).
    apply valPos_mono. set (K := mz * 2 ^ (ez - e1)).
    assert (HK : (IZR K * pow2 e1 <= IZR a / IZR b1 * pow2 e1)%R).
    { rewrite <- y_at_e1. fold (valPos K e1). unfold K.
      rewrite valPos_shift by lia. replace (e1 + (ez - e1)) with ez by lia.
      exact Hle. }
    assert (HaK : K * b1 <= a).
    { apply le_IZR. rewrite mult_IZR. pose proof (pow2_pos e1).
      apply IZR_lt in Hb1.
      assert (IZR K <= IZR a / IZR b1)%R by nra.
      apply Rmult_le_compat_r with (r := IZR b1) in H0; [|lra].
      unfold Rdiv in H0. rewrite Rmult_assoc, Rinv_l, Rmult_1_r in H0 by lra.
      exact H0. }
    apply Z.div_le_lower_bound; lia.
  - pose proof (m1_nonneg a b e) as Hm1. feed Hm1. fold b1 in Hm1.
    destruct (Z.eq_dec (a / b1) 0) as [E0 | N0].
    + pose proof (m1_zero a b e) as Hz. feed Hz. fold e1 in Hz.
      pose proof (fx_min (digits mz + ez)). lia.
    + assert (Hpos : 0 < a / b1) by lia.
      pose proof (m1_canonical a b e) as Hc. feed Hc. fold b1 e1 in Hc.
      destruct (Rle_or_lt (valPos mz ez) (valPos (a / b1) e1)) as [H | H];
        [exact H|].
      assert (e1 <= ez); [|lia].
      apply (canon_exp_le (a / b1) e1 mz ez); try assumption. lra.
Qed.

End RoundBounds.

(** *** The result as a [float64] *)

Section Packing.

Lemma valid_finite (s : bool) (m : positive) (e : Z) :
  valid (S754_finite s m e) = true <-> fx (digits (Zpos m) + e) = e /\ e <= 971.
Proof.
  unfold valid. cbn [valid_binary]. unfold SpecFloat.bounded, SpecFloat.canonical_mantissa.
  rewrite andb_true_iff, Z.eqb_eq, Z.leb_le. reflexivity.
Qed.

Lemma finiteNonneg_val (x : float64) : finiteNonneg x -> (0 <= val x)%R.
Proof.
  intros [_ H]. destruct x as [s|s| |s m e]; simpl; try lra; try contradiction.
  subst s. apply valPos_nonneg. lia.
Qed.

Lemma pack_finiteNonneg (m e : Z) :
  0 <= m -> (0 < m -> fx (digits m + e) = e /\ e <= 971) ->
  finiteNonneg (pack false m e) /\ val (pack false m e) = valPos m e.
Proof.
  intros Hm Hc. destruct m as [|p|p]; [| |lia]; simpl.
  - split; [split; reflexivity|]. unfold valPos. lra.
  - destruct Hc as [Hc He]; [lia|].
    change (emax - prec) with 971. apply Z.leb_le in He. rewrite He.
    split; [|reflexivity]. split; [|reflexivity].
    apply valid_finite. apply Z.leb_le in He. auto.
Qed.

End Packing.

(** *** What [binary_round_aux] returns *)

Section RoundAuxSpec.

Variables a b e : Z.
Hypothesis Ha : 0 <= a.
Hypothesis Hb : 0 < b.
Hypothesis He : e <= roundExp a b e.

Let y : R := (IZR a / IZR b * pow2 e)%R.
Let r : float64 := binary_round_aux prec emax false (a / b) e (locOf a b).

Lemma r_steps : r = pack false (normMant a b e) (normExp a b e).
Proof.
  pose proof (norm_facts a b e) as H. feed H.
  unfold r. apply binary_round_aux_steps; try assumption. apply H.
Qed.

Lemma y_nonneg : (0 <= y)%R.
Proof.
  unfold y. pose proof (pow2_pos e). apply IZR_le in Ha. apply IZR_lt in Hb.
  assert (0 <= IZR a / IZR b)%R; [|nra].
  apply Rmult_le_pos; [lra|]. apply Rlt_le, Rinv_0_lt_compat. lra.
Qed.

Lemma y_zero : (y <= 0)%R -> a = 0.
Proof.
  intros H. unfold y in H. pose proof (pow2_pos e). apply IZR_lt in Hb.
  destruct (Z.eq_dec a 0) as [|N]; [assumption|].
  assert (0 < a) by lia. apply IZR_lt in H1.
  assert (0 < IZR a / IZR b)%R; [|nra].
  apply Rmult_lt_0_compat; [lra|]. apply Rinv_0_lt_compat. lra.
Qed.

Lemma round_aux_upper (z : float64) :
  finiteNonneg z -> (y <= val z)%R -> finiteNonneg r /\ (val r <= val z)%R.
Proof.
  intros Hz Hle. rewrite r_steps.
  pose proof (norm_facts a b e) as H. feed H.
  destruct H as (H1 & H2 & H3 & H4).
  destruct (Z.eq_dec (normMant a b e) 0) as [E0 | N0].
  - rewrite E0. simpl. split; [split; reflexivity|].
    now apply finiteNonneg_val.
  - assert (Hpos : 0 < normMant a b e) by lia. specialize (H4 Hpos).
    destruct Hz as [Hv Hs]. destruct z as [s|s| |s mz ez]; try contradiction.
    + exfalso. simpl in Hle. apply y_zero in Hle.
      pose proof (m2_bounds a b e) as [Hm2 Hex].
      pose proof (roundDen_pos a b e) as Hb1. feed Hb1.
      assert (Hd : a / roundDen a b e = 0)
        by (rewrite Hle at 1; apply Z.div_0_l; lia).
      assert (Hmd : a mod roundDen a b e = 0)
        by (rewrite Hle at 1; apply Z.mod_0_l; lia).
      rewrite (Hex Hmd), Hd in H2.
      assert (0 < 2 ^ (normExp a b e - roundExp a b e))
        by (apply Z.pow_pos_nonneg; lia).
      nia.
    + subst s. apply valid_finite in Hv. destruct Hv as [Hc Hb971].
      simpl in Hle.
      pose proof (round_upper a b e Ha Hb He (Zpos mz) ez) as HU.
      feed HU.
      assert (Hexp : normExp a b e <= ez)
        by (apply (canon_exp_le (normMant a b e) _ (Zpos mz)); auto; lia).
      destruct (pack_finiteNonneg (normMant a b e) (normExp a b e)) as [Hg Hval];
        [lia | intros _; split; [assumption | lia] |].
      split; [exact Hg|]. rewrite Hval. exact HU.
Qed.

Lemma round_aux_lower (z : float64) :
  finiteNonneg z -> finiteNonneg r -> (val z <= y)%R -> (val z <= val r)%R.
Proof.
  intros Hz Hr Hle.
  destruct z as [s|s| |s mz ez]; try (exfalso; exact (proj2 Hz)).
  - simpl. now apply finiteNonneg_val.
  - destruct Hz as [Hv ->]. apply valid_finite in Hv. destruct Hv as [Hc _].
    simpl in Hle. simpl val at 1.
    pose proof (round_lower a b e Ha Hb He (Zpos mz) ez) as HL. feed HL.
    revert Hr. rewrite r_steps.
    pose proof (norm_facts a b e) as H. feed H.
    destruct H as (_ & _ & H3 & _).
    destruct (normMant a b e) as [|p|p] eqn:E; [| |lia].
    + intros _. simpl. unfold valPos in HL at 2. lra.
    + simpl. destruct (_ <=? _); [intros _; exact HL | intros [_ []]].
Qed.

End RoundAuxSpec.

(** *** [mul] and [div] *)

Section Operations.

Lemma digits_mul_pow2 (m k : Z) : 0 < m -> 0 <= k -> digits (m * 2 ^ k) = digits m + k.
Proof.
  intros Hm Hk. destruct (digits_bounds m Hm) as [[H1 H2] H3].
  assert (Hp : 0 < 2 ^ k) by (apply Z.pow_pos_nonneg; lia).
  apply digits_unique; [|lia]. split.
  - replace (digits m + k - 1) with (digits m - 1 + k) by lia.
    rewrite Z.pow_add_r by lia. nia.
  - rewrite Z.pow_add_r by lia. nia.
Qed.

Lemma round_exact_loc (a : Z) : locOf a 1 = loc_Exact.
Proof. unfold locOf. now rewrite Z.mod_1_r. Qed.

(** Multiplication *)

Lemma mul_precondition (mx my : positive) (ex ey : Z) :
  fx (digits (Zpos mx) + ex) = ex -> fx (digits (Zpos my) + ey) = ey ->
  ex + ey <= roundExp (Zpos mx * Zpos my) 1 (ex + ey).
Proof.
  intros Hx Hy. unfold roundExp. rewrite Z.div_1_r.
  fold (digits (Zpos mx * Zpos my)).
  destruct (digits_bounds (Zpos mx)) as [[Hx1 _] Hx3]; [lia|].
  destruct (digits_bounds (Zpos my)) as [[Hy1 _] Hy3]; [lia|].
  assert (Hd : digits (Zpos mx) + digits (Zpos my) - 1 <= digits (Zpos mx * Zpos my)).
  { pose proof (digits_ge_pow (Zpos mx * Zpos my)
                         (digits (Zpos mx) - 1 + (digits (Zpos my) - 1))) as H.
    rewrite Z.pow_add_r in H by lia.
    assert (0 < 2 ^ (digits (Zpos mx) - 1)) by (apply Z.pow_pos_nonneg; lia).
    assert (0 < 2 ^ (digits (Zpos my) - 1)) by (apply Z.pow_pos_nonneg; lia).
    assert (2 ^ (digits (Z.pos mx) - 1) * 2 ^ (digits (Z.pos my) - 1)
            <= Z.pos mx * Z.pos my) by nia.
    lia. }
  rewrite fx_eq in *. lia.
Qed.

Lemma mul_finite (mx my : positive) (ex ey : Z) :
  mul (S754_finite false mx ex) (S754_finite false my ey)
  = binary_round_aux prec emax false
      ((Zpos mx * Zpos my) / 1) (ex + ey) (locOf (Zpos mx * Zpos my) 1).
Proof. rewrite Z.div_1_r, round_exact_loc. reflexivity. Qed.

Lemma mul_value (mx my : positive) (ex ey : Z) :
  (IZR (Zpos mx * Zpos my) / IZR 1 * pow2 (ex + ey))%R
  = (valPos (Zpos mx) ex * valPos (Zpos my) ey)%R.
Proof. unfold valPos. rewrite mult_IZR, pow2_add. field. Qed.

(** The product does not rise above a [float64] that bounds the exact
    product, nor (next lemma) fall below one that the exact product
    reaches. *)
Lemma mul_upper (x y z : float64) :
  finiteNonneg x -> finiteNonneg y -> finiteNonneg z ->
  (val x * val y <= val z)%R ->
  finiteNonneg (mul x y) /\ (val (mul x y) <= val z)%R.
Proof.
  intros [Hvx Hsx] [Hvy Hsy] Hz Hle.
  pose proof (finiteNonneg_val z Hz) as Hz0.
  destruct x as [sx|sx| |sx mx ex]; try contradiction;
    destruct y as [sy|sy| |sy my ey]; try contradiction;
    try (split; [split; reflexivity | simpl; lra]).
  subst sx sy. apply valid_finite in Hvx, Hvy.
  rewrite mul_finite.
  apply round_aux_upper; try lia; try assumption.
  - apply mul_precondition; tauto.
  - rewrite mul_value. exact Hle.
Qed.

Lemma mul_lower (x y z : float64) :
  finiteNonneg x -> finiteNonneg y -> finiteNonneg z -> finiteNonneg (mul x y) ->
  (val z <= val x * val y)%R ->
  (val z <= val (mul x y))%R.
Proof.
  intros [Hvx Hsx] [Hvy Hsy] Hz Hr Hle.
  destruct x as [sx|sx| |sx mx ex]; try contradiction;
    destruct y as [sy|sy| |sy my ey]; try contradiction;
    try (simpl in *; lra).
  subst sx sy. apply valid_finite in Hvx, Hvy.
  revert Hr. rewrite mul_finite. intros Hr.
  apply round_aux_lower; try lia; try assumption.
  - apply mul_precondition; tauto.
  - rewrite mul_value. exact Hle.
Qed.

(** Division *)

Lemma new_location_locOf (a b : Z) :
  0 < b -> new_location b (a mod b) = locOf a b.
Proof.
  intros Hb. pose proof (Z.mod_pos_bound a b Hb) as Hrem.
  unfold new_location, locOf.
  destruct (Z.even b) eqn:Ev; [reflexivity|].
  unfold new_location_odd. destruct (a mod b =? 0); [reflexivity|].
  f_equal.
  rewrite <- Z.negb_odd in Ev. apply negb_false_iff in Ev.
  apply Z.odd_spec in Ev. destruct Ev as [j Hj].
  destruct (2 * (a mod b) + 1 ?= b) eqn:C1;
    [apply Z.compare_eq in C1 | rewrite Z.compare_lt_iff in C1
     | rewrite Z.compare_gt_iff in C1];
    symmetry; [apply Z.compare_lt_iff | apply Z.compare_lt_iff
               | apply Z.compare_gt_iff]; lia.
Qed.



Lemma div_core (mx my : positive) (ex ey : Z) :
  SFdiv_core_binary prec emax (Zpos mx) ex (Zpos my) ey
  = (divNum mx my ex ey / Zpos my, divExp mx my ex ey,
     locOf (divNum mx my ex ey) (Zpos my)).
Proof.
  unfold SFdiv_core_binary.
  change (Z.min (fexp prec emax (Zdigits2 (Z.pos mx) + ex - (Zdigits2 (Z.pos my) + ey)))
                (ex - ey)) with (divExp mx my ex ey).
  assert (Hs : 0 <= ex - ey - divExp mx my ex ey) by (unfold divExp; lia).
  assert (Hm : match ex - ey - divExp mx my ex ey with
               | 0 => Z.pos mx
               | Z.pos _ => Z.shiftl (Z.pos mx) (ex - ey - divExp mx my ex ey)
               | Z.neg _ => 0
               end = divNum mx my ex ey).
  { unfold divNum. destruct (ex - ey - divExp mx my ex ey) as [|p|p] eqn:E.
    - lia.
    - rewrite Z.shiftl_mul_pow2 by lia. reflexivity.
    - lia. }
  rewrite Hm. rewrite <- new_location_locOf by lia.
  unfold Z.div, Z.modulo.
  destruct (Z.div_eucl (divNum mx my ex ey) (Z.pos my)) as [q r]. reflexivity.
Qed.

Lemma div_finite (mx my : positive) (ex ey : Z) :
  div (S754_finite false mx ex) (S754_finite false my ey)
  = binary_round_aux prec emax false
      (divNum mx my ex ey / Zpos my) (divExp mx my ex ey)
      (locOf (divNum mx my ex ey) (Zpos my)).
Proof.
  unfold div, SFdiv. rewrite div_core. reflexivity.
Qed.

Lemma div_precondition (mx my : positive) (ex ey : Z) :
  divExp mx my ex ey
  <= roundExp (divNum mx my ex ey) (Zpos my) (divExp mx my ex ey).
Proof.
  unfold roundExp. set (e' := divExp mx my ex ey). set (a := divNum mx my ex ey).
  fold (digits (a / Zpos my)).
  assert (Hs : 0 <= ex - ey - e') by (unfold e', divExp; lia).
  assert (Ha : 0 < a).
  { unfold a, divNum. fold e'.
    assert (0 < 2 ^ (ex - ey - e')) by (apply Z.pow_pos_nonneg; lia). nia. }
  assert (HDa : digits a = digits (Zpos mx) + (ex - ey - e')).
  { unfold a, divNum. fold e'. apply digits_mul_pow2; lia. }
  destruct (digits_bounds a Ha) as [[Ha1 Ha2] Ha3].
  destruct (digits_bounds (Zpos my)) as [[Hy1 Hy2] Hy3]; [lia|].
  assert (Hq : 0 <= a / Zpos my) by (apply Z.div_pos; lia).
  pose proof (Z.div_mod a (Zpos my) ltac:(lia)) as Hdm.
  pose proof (Z.mod_pos_bound a (Zpos my) ltac:(lia)) as Hrem.
  assert (He' : e' <= fx (digits (Zpos mx) + ex - (digits (Zpos my) + ey)))
    by (unfold e', divExp; lia).
  destruct (Z.eq_dec (a / Zpos my) 0) as [E0 | N0].
  - rewrite E0, digits_0. rewrite E0 in Hdm.
    assert (a < Zpos my) by lia.
    assert (digits a <= digits (Zpos my)) by (apply digits_mono; lia).
    rewrite fx_eq in *. lia.
  - assert (Hqpos : 0 < a / Zpos my) by lia.
    destruct (digits_bounds _ Hqpos) as [[Hq1 Hq2] Hq3].
    assert (Hlt : a < 2 ^ (digits (Zpos my) + digits (a / Zpos my))).
    { rewrite Z.pow_add_r by lia. nia. }
    assert (HD : digits a <= digits (Zpos my) + digits (a / Zpos my)).
    { apply digits_lt_pow; lia. }
    eapply Z.le_trans; [exact He'|]. apply fx_mono. lia.
Qed.

Lemma div_value (mx my : positive) (ex ey : Z) :
  (IZR (divNum mx my ex ey) / IZR (Zpos my) * pow2 (divExp mx my ex ey))%R
  = (valPos (Zpos mx) ex / valPos (Zpos my) ey)%R.
Proof.
  unfold divNum, valPos. set (e' := divExp mx my ex ey).
  assert (Hs : 0 <= ex - ey - e') by (unfold e', divExp; lia).
  rewrite mult_IZR, <- pow2_IZR by lia.
  replace (pow2 ex) with (pow2 (ex - ey - e') * pow2 e' * pow2 ey)%R
    by (rewrite <- !pow2_add; f_equal; lia).
  pose proof (pow2_pos ey). pose proof (pow2_pos e').
  assert (0 < IZR (Zpos my))%R by (apply IZR_lt; lia).
  field. split; lra.
Qed.

(** The same for the quotient. *)
Lemma div_upper (x y z : float64) :
  finiteNonneg x -> finiteNonneg y -> (0 < val y)%R -> finiteNonneg z ->
  (val x / val y <= val z)%R ->
  finiteNonneg (div x y) /\ (val (div x y) <= val z)%R.
Proof.
  intros [Hvx Hsx] [Hvy Hsy] Hy0 Hz Hle.
  pose proof (finiteNonneg_val z Hz) as Hz0.
  destruct y as [sy|sy| |sy my ey]; try contradiction;
    [simpl in Hy0; lra|].
  destruct x as [sx|sx| |sx mx ex]; try contradiction.
  - split; [split; reflexivity | simpl; lra].
  - subst sx sy. rewrite div_finite.
    apply round_aux_upper; try assumption.
    + unfold divNum. apply Z.mul_nonneg_nonneg; [lia|].
      apply Z.pow_nonneg. lia.
    + lia.
    + apply div_precondition.
    + rewrite div_value. exact Hle.
Qed.

Lemma div_lower (x y z : float64) :
  finiteNonneg x -> finiteNonneg y -> (0 < val y)%R -> finiteNonneg z -> finiteNonneg (div x y) ->
  (val z <= val x / val y)%R ->
  (val z <= val (div x y))%R.
Proof.
  intros [Hvx Hsx] [Hvy Hsy] Hy0 Hz Hr Hle.
  destruct y as [sy|sy| |sy my ey]; try contradiction;
    [simpl in Hy0; lra|].
  destruct x as [sx|sx| |sx mx ex]; try contradiction.
  - simpl in *. unfold Rdiv in Hle. rewrite Rmult_0_l in Hle. exact Hle.
  - subst sx sy. revert Hr. rewrite div_finite. intros Hr.
    apply round_aux_lower; try assumption.
    + unfold divNum. apply Z.mul_nonneg_nonneg; [lia|].
      apply Z.pow_nonneg. lia.
    + lia.
    + apply div_precondition.
    + rewrite div_value. exact Hle.
Qed.

End Operations.

(** *** A rounding is to a nearest number

    The rounded mantissa is an integer nearest to the exact one, so the
    result is within half a unit in the last place of the exact value. *)

Section RoundNear.

Variables a b e : Z.
Hypothesis Ha : 0 <= a.
Hypothesis Hb : 0 < b.
Hypothesis He : e <= roundExp a b e.

Let y : R := (IZR a / IZR b * pow2 e)%R.
Let e1 := roundExp a b e.
Let b1 := roundDen a b e.
Let m1 := a / b1.
Let m2 := roundMant a b e.
Let e3 := normExp a b e.
Let m3 := normMant a b e.

(** The rounded mantissa is an integer nearest to the exact one. *)
Lemma m2_near_Z : 2 * Z.abs (m2 * b1 - a) <= b1.
Proof.
  pose proof (roundDen_pos a b e) as Hb1. feed Hb1. fold b1 in Hb1.
  pose proof (Z.div_mod a b1 ltac:(lia)) as Hdm.
  pose proof (Z.mod_pos_bound a b1 Hb1) as Hrem.
  unfold m2, roundMant. fold b1. fold m1. fold m1 in Hdm. unfold locOf.
  assert (H0 : m1 * b1 - a = - (a mod b1)) by (rewrite (Z.mul_comm m1); lia).
  assert (H1 : (m1 + 1) * b1 - a = b1 - a mod b1)
    by (rewrite Z.mul_add_distr_r, (Z.mul_comm m1); lia).
  destruct (a mod b1 =? 0) eqn:E0.
  - apply Z.eqb_eq in E0. cbn [round_nearest_even]. rewrite H0. lia.
  - apply Z.eqb_neq in E0.
    destruct (2 * (a mod b1) ?= b1) eqn:C;
      [apply Z.compare_eq in C | rewrite Z.compare_lt_iff in C
       | rewrite Z.compare_gt_iff in C]; cbn [round_nearest_even];
      [destruct (Z.even m1) | |]; rewrite ?H0, ?H1; lia.
Qed.

Lemma m2_near : (Rabs (IZR m2 - IZR a / IZR b1) <= / 2)%R.
Proof.
  pose proof (roundDen_pos a b e) as Hb1. feed Hb1. fold b1 in Hb1.
  pose proof m2_near_Z as H. apply IZR_lt in Hb1.
  assert (E : (IZR m2 - IZR a / IZR b1 = IZR (m2 * b1 - a) / IZR b1)%R).
  { rewrite minus_IZR, mult_IZR. field. lra. }
  rewrite E. unfold Rdiv. rewrite Rabs_mult, (Rabs_pos_eq (/ IZR b1)).
  2:{ apply Rlt_le, Rinv_0_lt_compat. lra. }
  rewrite <- abs_IZR.
  apply IZR_le in H. rewrite mult_IZR in H.
  apply Rmult_le_reg_r with (IZR b1); [lra|].
  rewrite Rmult_assoc, Rinv_l by lra. lra.
Qed.

(** The result is within half a unit in the last place of the exact
    value. *)
Lemma round_near_abs : (Rabs (valPos m3 e3 - y) <= pow2 e1 / 2)%R.
Proof.
  pose proof (val_m3 a b e) as Hv. feed Hv.
  pose proof (y_at_e1 a b e) as Hy. feed Hy.
  unfold m3, e3. rewrite Hv. unfold y. rewrite Hy. fold b1 e1 m2.
  unfold valPos. pose proof (pow2_pos e1) as Hp. pose proof m2_near as H.
  replace (IZR m2 * pow2 e1 - IZR a / IZR b1 * pow2 e1)%R
    with ((IZR m2 - IZR a / IZR b1) * pow2 e1)%R by ring.
  rewrite Rabs_mult, (Rabs_pos_eq (pow2 e1)) by lra. nra.
Qed.

(** In the range of the normal numbers the error is at most [2^-53] of the
    exact value. *)
Lemma round_near :
  (pow2 (-1022) <= y)%R -> (Rabs (valPos m3 e3 - y) <= y * pow2 (-53))%R.
Proof.
  intros Hy. eapply Rle_trans; [apply round_near_abs|].
  pose proof (roundDen_pos a b e) as Hb1. feed Hb1. fold b1 in Hb1.
  pose proof (m1_nonneg a b e) as Hm1. feed Hm1. fold b1 m1 in Hm1.
  pose proof (Z.div_mod a b1 ltac:(lia)) as Hdm. fold m1 in Hdm.
  pose proof (Z.mod_pos_bound a b1 Hb1) as Hrem.
  assert (Hy1 : y = (IZR a / IZR b1 * pow2 e1)%R).
  { pose proof (y_at_e1 a b e) as H. feed H. exact H. }
  assert (Hfloor : (IZR m1 <= IZR a / IZR b1 < IZR m1 + 1)%R).
  { apply IZR_lt in Hb1.
    assert (H1 : (IZR (b1 * m1) <= IZR a)%R) by (apply IZR_le; lia).
    assert (H2 : (IZR a < IZR (b1 * (m1 + 1)))%R) by (apply IZR_lt; lia).
    rewrite mult_IZR in H1, H2. rewrite plus_IZR in H2.
    split.
    - apply Rmult_le_reg_r with (IZR b1); [lra|].
      unfold Rdiv. rewrite Rmult_assoc, Rinv_l by lra. lra.
    - apply Rmult_lt_reg_r with (IZR b1); [lra|].
      unfold Rdiv. rewrite Rmult_assoc, Rinv_l by lra. lra. }
  pose proof (pow2_pos e1) as Hp.
  assert (Hbig : 2 ^ 52 <= m1).
  { destruct (Z_le_gt_dec (2 ^ 52) m1) as [|Hsmall]; [assumption|].
    exfalso.
    assert (He1 : e1 = -1074).
    { destruct (Z.eq_dec m1 0) as [E0 | N0].
      - pose proof (m1_zero a b e) as Hz. feed Hz. exact Hz.
      - pose proof (m1_canonical a b e) as Hc. feed Hc. fold b1 m1 e1 in Hc.
        rewrite fx_eq in Hc.
        assert (digits m1 <= 52) by (apply digits_lt_pow; lia). lia. }
    assert (Hlt : (IZR a / IZR b1 < IZR (2 ^ 52))%R).
    { apply Rlt_le_trans with (IZR m1 + 1)%R; [apply Hfloor|].
      rewrite <- plus_IZR. apply IZR_le. lia. }
    rewrite <- pow2_IZR in Hlt by lia.
    assert (y < pow2 52 * pow2 e1)%R by (rewrite Hy1; nra).
    rewrite <- pow2_add, He1 in H. replace (52 + -1074) with (-1022) in H by lia.
    lra. }
  assert (Hge : (pow2 52 <= IZR a / IZR b1)%R).
  { rewrite pow2_IZR by lia. eapply Rle_trans; [|apply Hfloor].
    apply IZR_le. exact Hbig. }
  assert (E : (pow2 e1 / 2 = pow2 52 * pow2 e1 * pow2 (-53))%R).
  { rewrite <- !pow2_add. replace (52 + e1 + -53) with (e1 + -1) by lia.
    rewrite pow2_add.
    replace (pow2 (-1)) with (/ 2)%R by (unfold pow2; simpl; field).
    reflexivity. }
  rewrite E, Hy1. pose proof (pow2_pos (-53)).
  apply Rmult_le_compat_r; [lra|]. apply Rmult_le_compat_r; lra.
Qed.

End RoundNear.

Section NearOperations.

Lemma round_aux_near (a b e : Z) :
  0 <= a -> 0 < b -> e <= roundExp a b e ->
  let y := (IZR a / IZR b * pow2 e)%R in
  let r := binary_round_aux prec emax false (a / b) e (locOf a b) in
  finiteNonneg r -> (pow2 (-1022) <= y)%R ->
  (Rabs (val r - y) <= y * pow2 (-53))%R.
Proof.
  intros Ha Hb He y r Hr Hy.
  pose proof (r_steps a b e) as Hs. feed Hs.
  pose proof (round_near a b e) as Hn. feed Hn.
  fold r in Hs. fold y in Hn.
  replace (val r) with (valPos (normMant a b e) (normExp a b e)); [exact Hn|].
  revert Hr. rewrite Hs.
  pose proof (norm_facts a b e) as H. feed H. destruct H as (_ & _ & H3 & _).
  destruct (normMant a b e) as [|p|p]; [| |lia]; simpl.
  - intros _. unfold valPos. lra.
  - destruct (_ <=? _); [reflexivity | intros [_ []]].
Qed.

(** The product and the quotient are within [2^-53] of the exact result,
    relatively, when that is in the range of the normal numbers. *)
Lemma mul_near (x y : float64) :
  finiteNonneg x -> finiteNonneg y -> finiteNonneg (mul x y) ->
  (pow2 (-1022) <= val x * val y)%R ->
  (Rabs (val (mul x y) - val x * val y) <= val x * val y * pow2 (-53))%R.
Proof.
  intros [Hvx Hsx] [Hvy Hsy] Hr Hn. pose proof (pow2_pos (-1022)) as Hp.
  destruct x as [sx|sx| |sx mx ex]; try contradiction;
    destruct y as [sy|sy| |sy my ey]; try contradiction;
    try (exfalso; simpl in Hn; lra).
  subst sx sy. apply valid_finite in Hvx, Hvy.
  revert Hr. rewrite mul_finite. intros Hr. simpl val at 2 3 4 5.
  rewrite <- mul_value.
  apply round_aux_near; try lia; try assumption.
  - apply mul_precondition; tauto.
  - rewrite mul_value. exact Hn.
Qed.

Lemma div_near (x y : float64) :
  finiteNonneg x -> finiteNonneg y -> (0 < val y)%R -> finiteNonneg (div x y) ->
  (pow2 (-1022) <= val x / val y)%R ->
  (Rabs (val (div x y) - val x / val y) <= val x / val y * pow2 (-53))%R.
Proof.
  intros [Hvx Hsx] [Hvy Hsy] Hy0 Hr Hn. pose proof (pow2_pos (-1022)) as Hp.
  destruct y as [sy|sy| |sy my ey]; try contradiction;
    [simpl in Hy0; lra|].
  destruct x as [sx|sx| |sx mx ex]; try contradiction.
  - exfalso. simpl in Hn. unfold Rdiv in Hn. rewrite Rmult_0_l in Hn. lra.
  - subst sx sy. revert Hr. rewrite div_finite. intros Hr. simpl val at 2 3 4 5.
    rewrite <- div_value.
    apply round_aux_near; try assumption.
    + unfold divNum. apply Z.mul_nonneg_nonneg; [lia|].
      apply Z.pow_nonneg. lia.
    + lia.
    + apply div_precondition.
    + rewrite div_value. exact Hn.
Qed.

End NearOperations.

(** *** [ofInt], [leb] and [toInt] *)

Section Conversions.


Lemma smallInt_val (n : Z) :
  0 <= n < 2 ^ 53 -> finiteNonneg (smallInt n) /\ val (smallInt n) = IZR n.
Proof.
  intros Hn. destruct n as [|p|p]; [| |lia].
  - split; [split; reflexivity | reflexivity].
  - assert (Hd : digits (Zpos p) <= 53) by (apply digits_lt_pow; lia).
    destruct (digits_bounds (Zpos p)) as [_ Hd1]; [lia|].
    assert (Hpos : 0 < Zpos p * 2 ^ (53 - digits (Zpos p))).
    { apply Z.mul_pos_pos; [lia|]. apply Z.pow_pos_nonneg; lia. }
    set (M := Zpos p * 2 ^ (53 - digits (Zpos p))) in *.
    assert (Es : smallInt (Zpos p)
                 = S754_finite false (Z.to_pos M) (digits (Zpos p) - 53))
      by reflexivity.
    rewrite Es. split; [split; [|reflexivity]|].
    + apply valid_finite. rewrite Z2Pos.id by exact Hpos.
      unfold M. rewrite digits_mul_pow2 by lia. rewrite fx_eq. lia.
    + cbn [val]. rewrite Z2Pos.id by exact Hpos.
      unfold M. rewrite valPos_shift by lia.
      replace (digits (Zpos p) - 53 + (53 - digits (Zpos p))) with 0 by lia.
      unfold valPos. change (pow2 0) with 1%R. ring.
Qed.

Lemma iter_xO (d m : positive) :
  Zpos (Pos.iter xO m d) = Zpos m * 2 ^ Zpos d.
Proof.
  induction d as [|d IH] using Pos.peano_ind.
  - simpl. lia.
  - rewrite Pos.iter_succ, Pos2Z.inj_xO, IH, Pos2Z.inj_succ, Z.pow_succ_r by lia.
    lia.
Qed.

Lemma shl_align_spec (p : positive) (ex ex' : Z) :
  let '(mz, ez) := shl_align p ex ex' in
  ez = Z.min ex ex' /\ Zpos mz = Zpos p * 2 ^ (ex - ez).
Proof.
  unfold shl_align. destruct (ex' - ex) as [|d|d] eqn:E.
  - split; [lia|]. rewrite Z.sub_diag. lia.
  - split; [lia|]. rewrite Z.sub_diag. lia.
  - split; [lia|]. rewrite iter_xO. f_equal. f_equal. lia.
Qed.

(** Integers below [2^53] convert exactly. *)
Lemma ofInt_val (n : Z) :
  0 <= n < 2 ^ 53 -> finiteNonneg (ofInt n) /\ val (ofInt n) = IZR n.
Proof.
  intros Hn. destruct n as [|p|p]; [| |lia].
  - split; [split; reflexivity | reflexivity].
  - unfold ofInt, binary_normalize, binary_round.
    pose proof (shl_align_spec p 0 (fexp prec emax (Z.pos (digits2_pos p) + 0))) as H.
    destruct (shl_align p 0 _) as [mz ez]. destruct H as [Hez Hmz].
    change (Z.pos (digits2_pos p)) with (digits (Zpos p)) in Hez.
    change (fexp prec emax (digits (Zpos p) + 0)) with (fx (digits (Zpos p) + 0)) in Hez.
    rewrite Z.add_0_r in Hez.
    assert (Hk : 0 <= 0 - ez) by lia.
    assert (HD : digits (Zpos mz) = digits (Zpos p) + (0 - ez))
      by (rewrite Hmz; apply digits_mul_pow2; lia).
    assert (Hpre : ez <= roundExp (Zpos mz) 1 ez).
    { unfold roundExp. rewrite Z.div_1_r. fold (digits (Zpos mz)). rewrite HD.
      replace (digits (Zpos p) + (0 - ez) + ez) with (digits (Zpos p)) by lia. lia. }
    assert (Hy : (IZR (Zpos mz) / IZR 1 * pow2 ez)%R = IZR (Zpos p)).
    { fold (valPos (Zpos mz) ez). unfold Rdiv. rewrite Rinv_1, Rmult_1_r.
      fold (valPos (Zpos mz) ez). rewrite Hmz, valPos_shift by lia.
      replace (ez + (0 - ez)) with 0 by lia. unfold valPos.
      change (pow2 0) with 1%R. ring. }
    destruct (smallInt_val (Zpos p) Hn) as [Hg Hv].
    rewrite <- (Z.div_1_r (Zpos mz)), <- (round_exact_loc (Zpos mz)).
    destruct (round_aux_upper (Zpos mz) 1 ez) with (z := smallInt (Zpos p))
      as [Hgood Hup]; try lia; try assumption.
    { rewrite Hy, Hv. lra. }
    split; [exact Hgood|].
    pose proof (round_aux_lower (Zpos mz) 1 ez) as Hlow.
    specialize (Hlow ltac:(lia) ltac:(lia) Hpre (smallInt (Zpos p)) Hg Hgood).
    rewrite Hy, Hv in *. specialize (Hlow ltac:(lra)). lra.
Qed.

Lemma hundred_val : finiteNonneg hundred /\ val hundred = 100%R.
Proof. change hundred with (ofInt 100). apply ofInt_val. lia. Qed.

(** Comparison *)

(** On zeros and positive finite numbers [leb] is the order of the real
    values. *)
Lemma leb_val (x y : float64) :
  finiteNonneg x -> finiteNonneg y -> (leb x y = true <-> (val x <= val y)%R).
Proof.
  intros [Hvx Hsx] [Hvy Hsy].
  destruct x as [sx|sx| |sx mx ex]; try contradiction;
    destruct y as [sy|sy| |sy my ey]; try contradiction.
  - simpl. split; [lra | reflexivity].
  - subst sy. simpl. pose proof (valPos_pos (Zpos my) ey). 
    split; [intros _; apply Rlt_le; apply H; lia | reflexivity].
  - subst sx. simpl. pose proof (valPos_pos (Zpos mx) ex ltac:(lia)).
    split; [discriminate | lra].
  - subst sx sy. apply valid_finite in Hvx, Hvy.
    destruct Hvx as [Hcx _], Hvy as [Hcy _].
    unfold leb, SFleb, SFcompare. simpl val.
    destruct (ex ?= ey) eqn:C;
      [apply Z.compare_eq in C | rewrite Z.compare_lt_iff in C
       | rewrite Z.compare_gt_iff in C].
    + subst ey. change (Pos.compare_cont Eq mx my) with (Pos.compare mx my).
      pose proof (pow2_pos ex) as Hp. unfold valPos.
      destruct (mx ?= my)%positive eqn:Cm.
      * apply Pos.compare_eq in Cm. subst my. split; [lra | reflexivity].
      * rewrite Pos.compare_lt_iff in Cm. split; [|reflexivity].
        intros _. assert (IZR (Zpos mx) <= IZR (Zpos my))%R by (apply IZR_le; lia).
        nra.
      * rewrite Pos.compare_gt_iff in Cm. split; [discriminate|].
        intros H. exfalso.
        assert (IZR (Zpos my) < IZR (Zpos mx))%R by (apply IZR_lt; lia).
        nra.
    + split; [|reflexivity]. intros _.
      destruct (Rle_or_lt (valPos (Zpos mx) ex) (valPos (Zpos my) ey)) as [H|H];
        [exact H|].
      assert (ey <= ex); [|lia].
      apply (canon_exp_le (Zpos my) ey (Zpos mx) ex); try lia; try assumption.
      lra.
    + split; [discriminate|]. intros H. exfalso.
      assert (ex <= ey); [|lia].
      apply (canon_exp_le (Zpos mx) ex (Zpos my) ey); try lia; assumption.
Qed.

(** Truncation *)

Lemma shiftl_floor (m e : Z) :
  0 < m ->
  (IZR (Z.shiftl m e) <= valPos m e < IZR (Z.shiftl m e) + 1)%R.
Proof.
  intros Hm. destruct (Z_le_gt_dec 0 e) as [He | He].
  - rewrite Z.shiftl_mul_pow2 by lia. rewrite <- (Z.add_0_l e) at 2 3.
    rewrite <- valPos_shift by lia. unfold valPos. change (pow2 0) with 1%R.
    lra.
  - rewrite Z.shiftl_div_pow2 by lia. set (k := - e).
    assert (Hp : 0 < 2 ^ k) by (apply Z.pow_pos_nonneg; lia).
    pose proof (Z.div_mod m (2 ^ k) ltac:(lia)) as Hdm.
    pose proof (Z.mod_pos_bound m (2 ^ k) Hp) as Hrem.
    set (t := m / 2 ^ k) in *.
    assert (H1 : t * 2 ^ k <= m) by lia.
    assert (H2 : m < (t + 1) * 2 ^ k) by lia.
    apply IZR_le in H1. apply IZR_lt in H2.
    rewrite mult_IZR, <- pow2_IZR in H1, H2 by lia. rewrite plus_IZR in H2.
    assert (Hk : (pow2 k * pow2 e = 1)%R).
    { rewrite <- pow2_add. replace (k + e) with 0 by lia. reflexivity. }
    pose proof (pow2_pos e). pose proof (pow2_pos k). unfold valPos.
    split.
    + apply Rmult_le_compat_r with (r := pow2 e) in H1; [|lra].
      rewrite Rmult_assoc, Hk in H1. lra.
    + apply Rmult_lt_compat_r with (r := pow2 e) in H2; [|lra].
      rewrite Rmult_assoc, Hk in H2. lra.
Qed.

(** [toInt] is the integer part. *)
Lemma toInt_floor (x : float64) (w : Z) :
  finiteNonneg x -> (val x <= IZR w)%R -> w <= maxInt ->
  0 <= toInt x <= w /\ (IZR (toInt x) <= val x < IZR (toInt x) + 1)%R.
Proof.
  intros [Hv Hs] Hle Hw.
  destruct x as [s|s| |s m e]; try contradiction.
  - simpl in *. split; [split; [lia | apply le_IZR; exact Hle]|]. lra.
  - subst s. simpl val in *. unfold toInt.
    pose proof (shiftl_floor (Zpos m) e ltac:(lia)) as [H1 H2].
    assert (H0 : 0 <= Z.shiftl (Zpos m) e) by (apply Z.shiftl_nonneg; lia).
    assert (H3 : Z.shiftl (Zpos m) e <= w) by (apply le_IZR; lra).
    assert (Hr : (minInt <=? Z.shiftl (Zpos m) e) && (Z.shiftl (Zpos m) e <=? maxInt) = true).
    { apply andb_true_iff. rewrite !Z.leb_le. unfold minInt, maxInt in *. lia. }
    rewrite Hr. split; [lia | lra].
Qed.

Lemma toInt_exact (x : float64) (w : Z) :
  finiteNonneg x -> val x = IZR w -> w <= maxInt -> toInt x = w.
Proof.
  intros Hg Hv Hw.
  destruct (toInt_floor x w Hg ltac:(lra) Hw) as [H1 [H2 H3]].
  rewrite Hv in H2, H3.
  assert (w < toInt x + 1) by (apply lt_IZR; rewrite plus_IZR; lra). lia.
Qed.

End Conversions.

(** *** The ratio of [getMdProgress] *)

Section ExactRatio.

Lemma pow2_neg_small (n : Z) :
  0 <= n -> (pow2 (- n) * IZR (2 ^ n) = 1)%R.
Proof.
  intros Hn. rewrite <- pow2_IZR by lia. rewrite <- pow2_add.
  replace (- n + n) with 0 by lia. reflexivity.
Qed.

Lemma Rabs_bounds (x b : R) : (Rabs x <= b)%R -> (- b <= x <= b)%R.
Proof. unfold Rabs. destruct (Rcase_abs x); lra. Qed.

(** [float64(k) / float64(L) * 100] is [100 k / L] up to a relative error of
    [2^-51]: each of the two operations rounds once. *)
Lemma ratioPercent_near (k L : nat) :
  (1 <= k)%nat -> (k <= L)%nat -> Z.of_nat L < 2 ^ 53 ->
  (Rabs (val (ratioPercent k L) - 100 * IZR (Z.of_nat k) / IZR (Z.of_nat L))
   <= 100 * IZR (Z.of_nat k) / IZR (Z.of_nat L) * pow2 (-51))%R.
Proof.
  intros Hk1 Hk Hb. unfold ratioPercent.
  destruct (ofInt_val (Z.of_nat k)) as [HgK HvK]; [lia|].
  destruct (ofInt_val (Z.of_nat L)) as [HgL HvL]; [lia|].
  destruct (ofInt_val 1) as [Hg1 Hv1]; [lia|].
  destruct hundred_val as [Hgh Hvh].
  set (K := IZR (Z.of_nat k)) in *. set (N := IZR (Z.of_nat L)) in *.
  assert (HK1 : (1 <= K)%R) by (apply IZR_le; lia).
  assert (HKN : (K <= N)%R) by (apply IZR_le; lia).
  assert (HN : (N < IZR (2 ^ 53))%R) by (apply IZR_lt; lia).
  set (u := pow2 (-53)).
  assert (Hu : (0 < u)%R) by apply pow2_pos.
  assert (HuN : (u * IZR (2 ^ 53) = 1)%R) by (apply (pow2_neg_small 53); lia).
  assert (Hu1 : (u <= / 2)%R).
  { assert (2 <= IZR (2 ^ 53))%R by (apply IZR_le; lia).
    apply Rmult_le_reg_r with (IZR (2 ^ 53)); [lra|]. rewrite HuN. lra. }
  assert (H51 : (pow2 (-51) = 4 * u)%R).
  { unfold u. replace (-51) with (2 + -53) by lia. rewrite pow2_add.
    rewrite (pow2_IZR 2) by lia. reflexivity. }
  assert (Hmin : (pow2 (-1022) <= pow2 (-54))%R) by (apply pow2_le; lia).
  assert (H54 : (pow2 (-54) = u / 2)%R).
  { unfold u. replace (-54) with (-53 + -1) by lia. rewrite pow2_add.
    replace (pow2 (-1)) with (/ 2)%R by (unfold pow2; simpl; field).
    reflexivity. }
  set (X := (K / N)%R).
  assert (HX1 : (X <= 1)%R).
  { unfold X. apply Rmult_le_reg_r with N; [lra|].
    unfold Rdiv. rewrite Rmult_assoc, Rinv_l by lra. lra. }
  assert (HXu : (u <= X)%R).
  { unfold X. apply Rmult_le_reg_r with N; [lra|].
    unfold Rdiv. rewrite Rmult_assoc, Rinv_l by lra. nra. }
  destruct (div_upper (ofInt (Z.of_nat k)) (ofInt (Z.of_nat L)) (ofInt 1))
    as [Hgq Hvq]; try assumption.
  { rewrite HvL. lra. }
  { rewrite HvK, HvL, Hv1. exact HX1. }
  rewrite Hv1 in Hvq.
  pose proof (div_near (ofInt (Z.of_nat k)) (ofInt (Z.of_nat L)) HgK HgL) as Hq.
  rewrite HvK, HvL in Hq. fold X in Hq.
  specialize (Hq ltac:(lra) Hgq ltac:(lra)).
  apply Rabs_bounds in Hq.
  set (q := div (ofInt (Z.of_nat k)) (ofInt (Z.of_nat L))) in *.
  destruct (mul_upper q hundred hundred) as [Hgp Hvp]; try assumption.
  { rewrite Hvh. lra. }
  pose proof (mul_near q hundred Hgq Hgh Hgp) as Hp.
  rewrite Hvh in Hp.
  assert (HXu2 : (X * u <= X * / 2)%R) by (apply Rmult_le_compat_l; lra).
  fold u in Hq, Hp.
  assert (Hq2 : (X / 2 <= val q)%R) by lra.
  assert (Hq3 : (val q <= 2 * X)%R) by lra.
  specialize (Hp ltac:(lra)).
  apply Rabs_bounds in Hp.
  assert (Hqu : (val q * u <= 2 * X * u)%R)
    by (apply Rmult_le_compat_r; lra).
  replace (100 * K / N)%R with (100 * X)%R by (unfold X; field; lra).
  rewrite H51. apply Rabs_le. lra.
Qed.

(** A bar that is all fill is 100 per cent, and one without fill is 0. *)
Lemma ratioPercent_full (L : nat) :
  (1 <= L)%nat -> Z.of_nat L < 2 ^ 53 ->
  finiteNonneg (ratioPercent L L) /\ val (ratioPercent L L) = 100%R.
Proof.
  intros HL Hb. unfold ratioPercent.
  destruct (ofInt_val (Z.of_nat L)) as [HgL HvL]; [lia|].
  destruct (ofInt_val 1) as [Hg1 Hv1]; [lia|].
  destruct hundred_val as [Hgh Hvh].
  assert (HN : (1 <= IZR (Z.of_nat L))%R) by (apply IZR_le; lia).
  assert (E1 : (IZR (Z.of_nat L) / IZR (Z.of_nat L) = 1)%R) by (field; lra).
  destruct (div_upper (ofInt (Z.of_nat L)) (ofInt (Z.of_nat L)) (ofInt 1))
    as [Hgq Hvq]; try assumption.
  { rewrite HvL. lra. }
  { rewrite HvL, Hv1. lra. }
  pose proof (div_lower (ofInt (Z.of_nat L)) (ofInt (Z.of_nat L)) (ofInt 1)
                        HgL HgL) as Hlq.
  rewrite HvL, Hv1 in *. specialize (Hlq ltac:(lra) Hg1 Hgq ltac:(lra)).
  set (q := div (ofInt (Z.of_nat L)) (ofInt (Z.of_nat L))) in *.
  assert (Eq : val q = 1%R) by lra.
  destruct (mul_upper q hundred hundred) as [Hgp Hvp]; try assumption.
  { rewrite Eq, Hvh. lra. }
  pose proof (mul_lower q hundred hundred Hgq Hgh Hgh Hgp) as Hlp.
  rewrite Eq, Hvh in *. specialize (Hlp ltac:(lra)).
  split; [exact Hgp | lra].
Qed.

Lemma ratioPercent_empty (L : nat) :
  (1 <= L)%nat -> Z.of_nat L < 2 ^ 53 -> ratioPercent 0 L = zero.
Proof.
  intros HL Hb. unfold ratioPercent.
  destruct (ofInt_val (Z.of_nat L)) as [[HvL HsL] HV]; [lia|].
  assert (HN : (1 <= IZR (Z.of_nat L))%R) by (apply IZR_le; lia).
  destruct (ofInt (Z.of_nat L)) as [s|s| |s m e]; try contradiction.
  - simpl in HV. lra.
  - subst s. reflexivity.
Qed.

End ExactRatio.

(** ** The progress bar *)

Section Bar.

Lemma wrap64_small (z : Z) : - 2 ^ 63 <= z < 2 ^ 63 -> wrap64 z = z.
Proof.
  intros H. unfold wrap64. rewrite Z.mod_small; lia.
Qed.

Lemma len_append (s1 s2 : string) : len (s1 ++ s2) = len s1 + len s2.
Proof. unfold len. rewrite length_append. lia. Qed.

Lemma len_replicate (n : Z) (c : ascii) :
  0 <= n -> len (replicate (Z.to_nat n) c) = n.
Proof. intros H. unfold len. rewrite length_replicate. lia. Qed.

Lemma len_nonneg (s : string) : 0 <= len s.
Proof. unfold len. lia. Qed.

Lemma fits_iff (memory n : Z) :
  fits memory n = true <-> n <= memory /\ n <= maxAlloc.
Proof. unfold fits. now rewrite andb_true_iff, !Z.leb_le. Qed.

Lemma fits_below (memory n m : Z) :
  fits memory n = true -> m <= n -> fits memory m = true.
Proof. rewrite !fits_iff. lia. Qed.

Lemma Repeat_fits (memory : Z) (c : ascii) (count : Z) :
  0 <= count -> fits memory count = true ->
  Repeat memory c count = Some (replicate (Z.to_nat count) c).
Proof.
  intros H0 Hf. unfold Repeat. rewrite Hf.
  destruct (count <? 0) eqn:E; [apply Z.ltb_lt in E; lia | reflexivity].
Qed.

Lemma Repeat_some (memory : Z) (c : ascii) (count : Z) (s : string) :
  Repeat memory c count = Some s ->
  0 <= count /\ fits memory count = true /\ s = replicate (Z.to_nat count) c.
Proof.
  unfold Repeat. destruct (count <? 0) eqn:E; [discriminate|].
  apply Z.ltb_ge in E. destruct (fits memory count); [|discriminate].
  intros [= <-]. auto.
Qed.

Lemma build_fits (memory : Z) (s : string) :
  fits memory (len s) = true -> build memory s = Some s.
Proof. intros H. unfold build. now rewrite H. Qed.

Lemma build_some (memory : Z) (s t : string) :
  build memory s = Some t -> t = s /\ fits memory (len s) = true.
Proof.
  unfold build. destruct (fits memory (len s)); [|discriminate].
  intros [= <-]. auto.
Qed.

Lemma len_output (bar label : string) :
  len ("[" ++ bar ++ "] " ++ label ++ "%") = len bar + 4 + len label.
Proof.
  change ("[" ++ bar ++ "] " ++ label ++ "%")
    with (String "[" (bar ++ "] " ++ label ++ "%")).
  unfold len. cbn [String.length]. rewrite !length_append.
  cbn [String.length]. lia.
Qed.

Lemma length_barOf (c w : Z) :
  0 <= c <= w -> String.length (barOf c w) = Z.to_nat w.
Proof.
  intros H. unfold barOf. rewrite length_append, length_replicate.
  destruct (c <? w) eqn:E.
  - apply Z.ltb_lt in E. simpl. rewrite length_replicate. lia.
  - apply Z.ltb_ge in E. simpl. lia.
Qed.

Lemma len_barOf (c w : Z) : 0 <= c <= w -> len (barOf c w) = w.
Proof. intros H. unfold len. rewrite length_barOf by exact H. lia. Qed.

(** What [drawProgressBar] returns once the number of fill bytes is known to
    lie between 0 and the width, when there is room for the result. *)
Lemma drawProgressBar_of_units (memory : Z) (percent : float64) (width : Z) :
  0 <= completedUnits percent width <= width ->
  fits memory (outputLength percent width) = true ->
  drawProgressBar memory percent width
  = Some ("[" ++ barOf (completedUnits percent width) width ++ "] "
              ++ format1 percent ++ "%").
Proof.
  intros Hc Hf. unfold drawProgressBar.
  set (c := completedUnits percent width) in *.
  pose proof (len_nonneg (format1 percent)) as Hl.
  pose proof (proj1 (fits_iff _ _) Hf) as [_ Hmax].
  unfold outputLength, maxAlloc in Hmax.
  rewrite wrap64_small by lia.
  rewrite Repeat_fits; [|lia|apply (fits_below _ _ _ Hf); unfold outputLength; lia].
  destruct (0 <? width - c) eqn:E1.
  - apply Z.ltb_lt in E1. rewrite wrap64_small by lia.
    rewrite build_fits.
    2:{ apply (fits_below _ _ _ Hf). rewrite len_append, len_replicate by lia.
        unfold outputLength, len. simpl. lia. }
    rewrite Repeat_fits;
      [|lia|apply (fits_below _ _ _ Hf); unfold outputLength; lia].
    assert (Eb : (replicate (Z.to_nat c) "=" ++ ">")
                 ++ replicate (Z.to_nat (width - c - 1)) "."
                 = barOf c width).
    { unfold barOf. assert (E3 : (c <? width) = true) by (apply Z.ltb_lt; lia).
      rewrite E3, append_assoc. reflexivity. }
    rewrite Eb, build_fits.
    2:{ apply (fits_below _ _ _ Hf). rewrite len_barOf by lia.
        unfold outputLength. lia. }
    apply build_fits. rewrite len_output, len_barOf by lia. exact Hf.
  - apply Z.ltb_ge in E1. assert (Ec : c = width) by lia.
    rewrite Repeat_fits;
      [|lia|apply (fits_below _ _ _ Hf); unfold outputLength; lia].
    assert (Eb : replicate (Z.to_nat c) "="
                 ++ replicate (Z.to_nat (width - c)) "."
                 = barOf c width).
    { unfold barOf. assert (E3 : (c <? width) = false) by (apply Z.ltb_ge; lia).
      rewrite E3. replace (width - c) with 0 by lia. reflexivity. }
    rewrite Eb, build_fits.
    2:{ apply (fits_below _ _ _ Hf). rewrite len_barOf by lia.
        unfold outputLength. lia. }
    apply build_fits. rewrite len_output, len_barOf by lia. exact Hf.
Qed.

(** Conversely, a bar that is returned has its fill bytes between 0 and the
    width, and there was room for it. *)
Lemma drawProgressBar_some (memory : Z) (percent : float64) (width : Z)
  (s : string) :
  0 < width <= maxInt ->
  drawProgressBar memory percent width = Some s ->
  0 <= completedUnits percent width <= width /\
  fits memory (outputLength percent width) = true.
Proof.
  intros Hw. unfold drawProgressBar.
  set (c := completedUnits percent width).
  destruct (Repeat memory "=" c) as [bar|] eqn:R1; [|discriminate].
  apply Repeat_some in R1. destruct R1 as (Hc0 & Hfc & ->).
  apply fits_iff in Hfc. destruct Hfc as [_ Hcmax].
  unfold maxAlloc, maxInt in *.
  rewrite wrap64_small by lia.
  destruct (0 <? width - c) eqn:E1.
  - apply Z.ltb_lt in E1. rewrite wrap64_small by lia.
    destruct (build memory _) as [bar|] eqn:B1; [|discriminate].
    apply build_some in B1. destruct B1 as [-> _].
    destruct (Repeat memory "." (width - c - 1)) as [dots|] eqn:R2;
      [|discriminate].
    apply Repeat_some in R2. destruct R2 as (_ & _ & ->).
    destruct (build memory _) as [bar|] eqn:B2; [|discriminate].
    apply build_some in B2. destruct B2 as [-> _].
    intros H. apply build_some in H. destruct H as [_ Hf].
    split; [lia|]. rewrite len_output in Hf. unfold outputLength.
    rewrite !len_append, !len_replicate in Hf by lia.
    replace (len ">") with 1 in Hf by reflexivity.
    replace (width + 4 + len (format1 percent))
      with (c + 1 + (width - c - 1) + 4 + len (format1 percent)) by lia.
    exact Hf.
  - apply Z.ltb_ge in E1.
    destruct (Repeat memory "." (width - c)) as [dots|] eqn:R2; [|discriminate].
    apply Repeat_some in R2. destruct R2 as (Hr0 & _ & ->).
    assert (Ec : c = width) by lia.
    destruct (build memory _) as [bar|] eqn:B2; [|discriminate].
    apply build_some in B2. destruct B2 as [-> _].
    intros H. apply build_some in H. destruct H as [_ Hf].
    split; [lia|]. rewrite len_output in Hf. unfold outputLength.
    rewrite !len_append, !len_replicate in Hf by lia.
    replace (width + 4 + len (format1 percent))
      with (c + (width - c) + 4 + len (format1 percent)) by lia.
    exact Hf.
Qed.

(** A percentage between 0 and 100 is a zero or a positive finite number. *)
Lemma percent_finiteNonneg (percent : float64) :
  valid percent = true ->
  leb zero percent = true -> leb percent hundred = true ->
  finiteNonneg percent /\ (val percent <= 100)%R.
Proof.
  intros Hv H0 H100.
  assert (Hg : finiteNonneg percent).
  { split; [exact Hv|].
    destruct percent as [s|s| |s m e]; simpl in *; try discriminate; trivial.
    - destruct s; discriminate.
    - destruct s; [discriminate | reflexivity]. }
  split; [exact Hg|]. destruct hundred_val as [Hh <-].
  now apply leb_val.
Qed.

(** [n * 100] is a [float64] as long as [n * 25] has at most 53 bits. *)
Lemma hundredfold_float (n : Z) :
  0 <= n -> n * 25 < 2 ^ 53 ->
  exists z, finiteNonneg z /\ val z = (IZR n * 100)%R.
Proof.
  intros Hn Hb. destruct (Z.eq_dec n 0) as [-> | N0].
  - exists (S754_zero false). split; [split; reflexivity | simpl; lra].
  - set (P := n * 25). assert (HP : 0 < P) by (unfold P; lia).
    assert (Hd : digits P <= 53) by (apply digits_lt_pow; unfold P; lia).
    destruct (digits_bounds P HP) as [_ Hd1].
    set (M := P * 2 ^ (53 - digits P)).
    assert (HM : 0 < M).
    { unfold M. apply Z.mul_pos_pos; [lia|]. apply Z.pow_pos_nonneg; lia. }
    exists (S754_finite false (Z.to_pos M) (digits P - 51)). split.
    + split; [|reflexivity]. apply valid_finite. rewrite Z2Pos.id by exact HM.
      unfold M. rewrite digits_mul_pow2 by lia. rewrite fx_eq. lia.
    + cbn [val]. rewrite Z2Pos.id by exact HM. unfold M.
      rewrite valPos_shift by lia.
      replace (digits P - 51 + (53 - digits P)) with 2 by lia.
      unfold valPos, P. rewrite mult_IZR, (pow2_IZR 2) by lia.
      change (IZR (2 ^ 2)) with 4%R. change (IZR 25) with 25%R. ring.
Qed.

(** The number of fill bytes does not rise above an integer that bounds the
    exact quotient [width * percent / 100], nor (next lemma) fall below one
    that the exact quotient reaches. *)
Lemma completedUnits_upper (percent : float64) (width n : Z) :
  finiteNonneg percent -> 0 < width < 2 ^ 53 -> 0 <= n -> n * 25 < 2 ^ 53 ->
  (IZR width * val percent <= IZR n * 100)%R ->
  let a := mul (ofInt width) percent in
  let q := div a hundred in
  finiteNonneg a /\ finiteNonneg q /\
  0 <= completedUnits percent width <= n /\
  (IZR (completedUnits percent width) <= val q
   < IZR (completedUnits percent width) + 1)%R.
Proof.
  intros Hg Hw Hn Hb Hle a q.
  destruct (ofInt_val width) as [HgW HvW]; [lia|].
  destruct (ofInt_val n) as [HgN HvN]; [lia|].
  destruct (hundredfold_float n Hn Hb) as (z & Hgz & Hvz).
  destruct hundred_val as [Hgh Hvh].
  destruct (mul_upper (ofInt width) percent z) as [Hga Hva]; try assumption.
  { rewrite HvW, Hvz. exact Hle. }
  rewrite Hvz in Hva. fold a in Hga, Hva.
  destruct (div_upper a hundred (ofInt n)) as [Hgq Hvq]; try assumption.
  { rewrite Hvh. lra. }
  { rewrite Hvh, HvN. lra. }
  rewrite HvN in Hvq. fold q in Hgq, Hvq.
  destruct (toInt_floor q n) as [H1 H2]; try assumption.
  { unfold maxInt. lia. }
  unfold completedUnits. fold a q. auto.
Qed.

Lemma completedUnits_lower (percent : float64) (width n : Z) :
  finiteNonneg percent -> 0 < width < 2 ^ 53 -> 0 <= n -> n * 25 < 2 ^ 53 ->
  let a := mul (ofInt width) percent in
  let q := div a hundred in
  finiteNonneg a -> finiteNonneg q ->
  (IZR n * 100 <= IZR width * val percent)%R ->
  (IZR n <= val q)%R.
Proof.
  intros Hg Hw Hn Hb a q Hga Hgq Hle.
  destruct (ofInt_val width) as [HgW HvW]; [lia|].
  destruct (ofInt_val n) as [HgN HvN]; [lia|].
  destruct (hundredfold_float n Hn Hb) as (z & Hgz & Hvz).
  destruct hundred_val as [Hgh Hvh].
  pose proof (mul_lower (ofInt width) percent z HgW Hg Hgz Hga) as Hla.
  rewrite HvW, Hvz in Hla. specialize (Hla Hle). fold a in Hla.
  pose proof (div_lower a hundred (ofInt n) Hga Hgh) as Hlq.
  rewrite Hvh, HvN in Hlq. fold q in Hlq.
  apply Hlq; try assumption; lra.
Qed.

(** The [float64] one half. *)
Lemma half_val :
  finiteNonneg (S754_finite false (2 ^ 52) (-53)) /\
  val (S754_finite false (2 ^ 52) (-53)) = (/ 2)%R.
Proof.
  split; [split; reflexivity|]. cbn [val]. unfold valPos.
  change (Z.pos (2 ^ 52)) with (2 ^ 52). rewrite <- pow2_IZR, <- pow2_add by lia.
  change (52 + -53) with (-1). unfold pow2. simpl. field.
Qed.

(** How far the number of fill bytes is from the exact quotient: it is the
    integer part of the quotient, or the next integer when the quotient
    falls short of it by less than [2^-51] of its value. *)
Lemma completedUnits_exact (percent : float64) (width : Z) :
  finiteNonneg percent -> (val percent <= 100)%R -> 0 < width <= maxAlloc ->
  let c := completedUnits percent width in
  let x := (IZR width * val percent / 100)%R in
  0 <= c <= width /\
  (x < IZR c + 1)%R /\ (IZR c <= x * (1 + pow2 (-51)))%R.
Proof.
  intros Hg Hle Hw c x. unfold maxAlloc in Hw.
  pose proof (finiteNonneg_val percent Hg) as Hp0.
  assert (HW0 : (0 < IZR width)%R) by (apply IZR_lt; lia).
  assert (Hx0 : (0 <= x)%R) by (unfold x; nra).
  destruct (completedUnits_upper percent width width)
    as (Hga & Hgq & Hc & Hfl); try assumption; try lia.
  { nra. }
  fold c in Hc, Hfl.
  set (a := mul (ofInt width) percent) in *. set (q := div a hundred) in *.
  destruct (ofInt_val width) as [HgW HvW]; [lia|].
  destruct (ofInt_val 1) as [Hg1 Hv1]; [lia|].
  destruct hundred_val as [Hgh Hvh].
  destruct half_val as [Hgf Hvf].
  split; [exact Hc|]. split.
  - destruct (Rlt_or_le x (IZR c + 1)) as [|Hge]; [assumption|]. exfalso.
    pose proof (completedUnits_lower percent width (c + 1)) as Hl.
    cbv zeta in Hl. fold a q in Hl.
    assert (IZR (c + 1) <= val q)%R.
    { apply Hl; try assumption; try lia.
      rewrite plus_IZR. unfold x in Hge. lra. }
    rewrite plus_IZR in H. lra.
  - pose proof (pow2_pos (-51)) as H51.
    destruct (Z.eq_dec c 0) as [E0 | N0]; [rewrite E0; nra|].
    assert (Hc1 : (1 <= IZR c)%R) by (apply IZR_le; lia).
    assert (Hq1 : (1 <= val q)%R) by lra.
    (* the quotient and the product are normal numbers *)
    assert (Ha50 : (/ 2 < val a / 100)%R).
    { destruct (Rlt_or_le (/ 2) (val a / 100)) as [|Hsmall]; [assumption|].
      exfalso.
      destruct (div_upper a hundred (S754_finite false (2 ^ 52) (-53)))
        as [_ Hup]; try assumption.
      - rewrite Hvh. lra.
      - rewrite Hvh, Hvf. exact Hsmall.
      - fold q in Hup. rewrite Hvf in Hup. lra. }
    assert (Hwp : (1 < IZR width * val percent)%R).
    { destruct (Rlt_or_le 1 (IZR width * val percent)) as [|Hsmall];
        [assumption|]. exfalso.
      destruct (mul_upper (ofInt width) percent (ofInt 1)) as [_ Hup];
        try assumption.
      - rewrite HvW, Hv1. exact Hsmall.
      - fold a in Hup. rewrite Hv1 in Hup. lra. }
    assert (Hmin : (pow2 (-1022) <= / 2)%R).
    { replace (/ 2)%R with (pow2 (-1)) by (unfold pow2; simpl; field).
      apply pow2_le. lia. }
    set (u := pow2 (-53)).
    assert (Hu : (0 < u)%R) by apply pow2_pos.
    assert (E51 : (pow2 (-51) = 4 * u)%R).
    { unfold u. replace (-51) with (2 + -53) by lia. rewrite pow2_add.
      rewrite (pow2_IZR 2) by lia. reflexivity. }
    assert (Hu1 : (u <= / 2)%R).
    { unfold u. replace (/ 2)%R with (pow2 (-1)) by (unfold pow2; simpl; field).
      apply pow2_le. lia. }
    pose proof (mul_near (ofInt width) percent HgW Hg Hga) as Hna.
    rewrite HvW in Hna. fold a u in Hna. specialize (Hna ltac:(lra)).
    apply Rabs_bounds in Hna.
    pose proof (div_near a hundred Hga Hgh) as Hnq.
    rewrite Hvh in Hnq. fold q u in Hnq.
    specialize (Hnq ltac:(lra) Hgq ltac:(lra)).
    apply Rabs_bounds in Hnq.
    set (y := (IZR width * val percent)%R) in *.
    assert (Hx : x = (y / 100)%R) by reflexivity.
    assert (Hyu : (0 <= y * u)%R) by nra.
    assert (Hyuu : (y * u * u <= y * u * / 2)%R)
      by (apply Rmult_le_compat_l; lra).
    assert (Hau : (val a * u <= (y + y * u) * u)%R)
      by (apply Rmult_le_compat_r; lra).
    rewrite E51, Hx. lra.
Qed.

Lemma completedUnits_zero (s : bool) (width : Z) :
  0 < width < 2 ^ 53 -> completedUnits (S754_zero s) width = 0.
Proof.
  intros Hw.
  destruct (ofInt_val width) as [[_ HsW] HvW]; [lia|].
  unfold completedUnits.
  destruct (ofInt width) as [sw|sw| |sw mw ew]; try contradiction;
    reflexivity.
Qed.

(** At 100 per cent both operations are exact. *)
Lemma completedUnits_hundred (width : Z) :
  0 < width <= maxAlloc -> completedUnits hundred width = width.
Proof.
  intros Hw. destruct hundred_val as [Hgh Hvh].
  destruct (completedUnits_exact hundred width Hgh) as (Hc & Hlt & _);
    [lra | exact Hw |].
  rewrite Hvh in Hlt.
  assert (Hx : (IZR width * 100 / 100 = IZR width)%R) by field.
  rewrite Hx in Hlt.
  assert (width < completedUnits hundred width + 1)
    by (apply lt_IZR; rewrite plus_IZR; exact Hlt).
  lia.
Qed.

Lemma fills_le_length (bar : string) : (fills bar <= String.length bar)%nat.
Proof.
  induction bar as [|c bar IH]; simpl; [lia|].
  destruct (fillByte c); lia.
Qed.

Lemma ratioPercent_range (k L : nat) :
  (k <= L)%nat -> (1 <= L)%nat -> Z.of_nat L < 2 ^ 53 ->
  finiteNonneg (ratioPercent k L) /\ (val (ratioPercent k L) <= 100)%R.
Proof.
  intros Hk HL Hb. unfold ratioPercent.
  destruct (ofInt_val (Z.of_nat k)) as [HgK HvK]; [lia|].
  destruct (ofInt_val (Z.of_nat L)) as [HgL HvL]; [lia|].
  destruct (ofInt_val 1) as [Hg1 Hv1]; [lia|].
  destruct hundred_val as [Hgh Hvh].
  assert (HL0 : (1 <= IZR (Z.of_nat L))%R) by (apply IZR_le; lia).
  assert (HkL : (IZR (Z.of_nat k) <= IZR (Z.of_nat L))%R) by (apply IZR_le; lia).
  assert (Hk0 : (0 <= IZR (Z.of_nat k))%R) by (apply IZR_le; lia).
  destruct (div_upper (ofInt (Z.of_nat k)) (ofInt (Z.of_nat L)) (ofInt 1))
    as [Hgq Hvq]; try assumption.
  { rewrite HvL. lra. }
  { rewrite HvK, HvL, Hv1. apply Rmult_le_reg_r with (IZR (Z.of_nat L)); [lra|].
    unfold Rdiv. rewrite Rmult_assoc, Rinv_l by lra. lra. }
  rewrite Hv1 in Hvq.
  pose proof (finiteNonneg_val _ Hgq) as Hq0.
  destruct (mul_upper (div (ofInt (Z.of_nat k)) (ofInt (Z.of_nat L))) hundred hundred)
    as [Hgp Hvp]; try assumption.
  { rewrite Hvh. lra. }
  rewrite Hvh in Hvp. auto.
Qed.

(** The bar that [getMdProgress] divides is at most a line long, so its two
    counts convert to [float64] exactly and their ratio is at most one. *)
Lemma getMdProgress_range (f : mdstat) (p : float64) :
  scannerLines f ->
  getMdProgress f = (p, None) ->
  finiteNonneg p /\ (val p <= 100)%R.
Proof.
  intros Hlines Hp.
  destruct (getMdProgress_sound f p Hp)
    as (lines & scanErr & line & pre & bar & post
        & -> & Hin & _ & Hline & [Hne _] & ->).
  simpl in Hlines. rewrite Forall_forall in Hlines.
  specialize (Hlines line Hin). unfold len, MaxScanTokenSize in Hlines.
  assert (Hlen : (String.length bar <= String.length line)%nat).
  { rewrite Hline, !length_append. lia. }
  apply ratioPercent_range.
  - apply fills_le_length.
  - destruct bar; [congruence | simpl; lia].
  - lia.
Qed.

Lemma decimal_length (n : Z) :
  0 <= n <= 100 -> 1 <= len (decimal n) <= 3.
Proof.
  intros Hn.
  assert (H : forallb (fun k => let l := len (decimal (Z.of_nat k)) in
                                (1 <=? l) && (l <=? 3))
                      (seq 0 101) = true) by (vm_compute; reflexivity).
  rewrite forallb_forall in H. specialize (H (Z.to_nat n)).
  rewrite Z2Nat.id in H by lia. cbv zeta in H.
  rewrite andb_true_iff, !Z.leb_le in H. apply H.
  apply in_seq. lia.
Qed.

(** The tenths of a number that is at most 100. *)
Lemma tenths_bound (m : positive) (e : Z) :
  (valPos (Zpos m) e <= 100)%R -> 0 <= tenths m e <= 1000.
Proof.
  intros Hv. unfold tenths. destruct (0 <=? e) eqn:E.
  - apply Z.leb_le in E.
    assert (Hp : 0 < 2 ^ e) by (apply Z.pow_pos_nonneg; lia).
    assert (Zpos m * 2 ^ e <= 100).
    { apply le_IZR. rewrite mult_IZR, <- pow2_IZR by lia. exact Hv. }
    nia.
  - apply Z.leb_gt in E. set (den := 2 ^ (- e)). set (num := Zpos m * 10).
    assert (Hden : 0 < den) by (apply Z.pow_pos_nonneg; lia).
    assert (Hle : num <= 1000 * den).
    { assert (Zpos m <= 100 * den); [|unfold num; lia].
      apply le_IZR. rewrite mult_IZR. unfold den. rewrite <- pow2_IZR by lia.
      unfold valPos in Hv. pose proof (pow2_pos (- e)) as Hp.
      assert (Ek : (pow2 e * pow2 (- e) = 1)%R).
      { rewrite <- pow2_add. replace (e + - e) with 0 by lia. reflexivity. }
      apply Rmult_le_compat_r with (r := pow2 (- e)) in Hv; [|lra].
      rewrite Rmult_assoc, Ek in Hv. lra. }
    pose proof (Z.div_mod num den ltac:(lia)) as Hdm.
    pose proof (Z.mod_pos_bound num den Hden) as Hrem.
    assert (Hq0 : 0 <= num / den) by (apply Z.div_pos; unfold num; lia).
    assert (Hq : num / den <= 1000) by (apply Z.div_le_upper_bound; lia).
    destruct (2 * (num mod den) ?= den) eqn:C;
      [apply Z.compare_eq in C | rewrite Z.compare_lt_iff in C
       | rewrite Z.compare_gt_iff in C].
    + destruct (Z.even (num / den)); nia.
    + lia.
    + nia.
Qed.

(** The percentage is printed with three to seven bytes. *)
Lemma format1_length (percent : float64) :
  finiteNonneg percent -> (val percent <= 100)%R ->
  3 <= len (format1 percent) <= 7.
Proof.
  intros [_ Hs] Hle. destruct percent as [s|s| |s m e]; try contradiction.
  - destruct s; simpl; unfold len; simpl; lia.
  - subst s. cbn [val] in Hle. pose proof (tenths_bound m e Hle) as Ht.
    cbn [format1]. set (t := tenths m e) in *.
    assert (H1 : 0 <= t / 10 <= 100).
    { split; [apply Z.div_pos; lia | apply Z.div_le_upper_bound; lia]. }
    assert (H2 : 0 <= t mod 10 <= 100)
      by (pose proof (Z.mod_pos_bound t 10 ltac:(lia)); lia).
    apply decimal_length in H1, H2. unfold len in *.
    change (EmptyString ++ ?x) with x.
    rewrite !length_append. cbn [String.length].
    rewrite !Nat2Z.inj_add. change (Z.of_nat (String.length ".")) with 1.
    simpl String.length. lia.
Qed.

(** A percentage in range is drawn whenever there is room for the result. *)
Lemma drawProgressBar_in_range (memory : Z) (percent : float64) (width : Z) :
  finiteNonneg percent -> (val percent <= 100)%R -> 0 < width ->
  fits memory (outputLength percent width) = true ->
  drawProgressBar memory percent width
  = Some ("[" ++ barOf (completedUnits percent width) width ++ "] "
              ++ format1 percent ++ "%").
Proof.
  intros Hg Hle Hw Hf. apply drawProgressBar_of_units; [|exact Hf].
  pose proof (proj1 (fits_iff _ _) Hf) as [_ Hmax].
  pose proof (len_nonneg (format1 percent)). unfold outputLength in Hmax.
  apply completedUnits_exact; try assumption. lia.
Qed.

End Bar.

(** ** The value of the progress *)

(** C1 as stated fails: the value is not exactly [k / L * 100].  For a bar
    with 7 fill bytes of 25, [getMdProgress] returns a number above 28: the
    quotient [7 / 25] is not a [float64], and the product of its rounding by
    100 is rounded again. *)
Lemma seven_of_25_is_not_28 :
  let p := S754_finite false 7881299347898369 (-48) in
  getMdProgress mdstatSevenOf25 = (p, None) /\
  (100 * IZR 7 / IZR 25 = 28)%R /\
  (28 < val p)%R /\
  val p <> (100 * IZR 7 / IZR 25)%R.
Proof.
  cbv zeta. split; [vm_compute; reflexivity|].
  assert (E28 : (100 * IZR 7 / IZR 25 = 28)%R) by (simpl; field).
  assert (H : (28 < val (S754_finite false 7881299347898369 (-48)))%R).
  { cbn [val]. unfold valPos.
    pose proof (pow2_neg_small 48 ltac:(lia)) as Hk.
    change (pow2 (-48) * IZR (2 ^ 48) = 1)%R in Hk.
    assert (H48 : (0 < IZR (2 ^ 48))%R) by (apply IZR_lt; reflexivity).
    assert (Hlt : (28 * IZR (2 ^ 48) < IZR 7881299347898369)%R).
    { rewrite <- mult_IZR. apply IZR_lt. reflexivity. }
    apply Rmult_lt_reg_r with (IZR (2 ^ 48)); [exact H48|].
    rewrite Rmult_assoc, Hk. lra. }
  split; [exact E28|]. split; [exact H|]. rewrite E28. lra.
Qed.

(** C1, amended.  When the first check or resync line that carries a bar
    has, as its first bracketed group, a bracket made only of the bytes [=],
    [>] and [.], of length [L] with [k] fill bytes, [getMdProgress] returns
    [float64(k) / float64(L) * 100]: a [float64] within [2^-51] of
    [100 k / L], relatively, which is exactly 100 for a bar that is all
    fill and exactly 0 for one without fill.  And whatever value it returns
    was computed from a bracket made only of those bytes, so a bracket such
    as [[UUU_]] is never the progress bar. *)
Theorem getMdProgress_first_bracket :
  (forall before line after scanErr pre bar post,
      Forall (fun l => ~ carriesBar l) before ->
      occursIn "check" line \/ occursIn "resync" line ->
      line = pre ++ "[" ++ bar ++ "]" ++ post ->
      noByte "[" pre ->
      progressBracket bar ->
      len line < MaxScanTokenSize ->
      let k := IZR (Z.of_nat (fills bar)) in
      let L := IZR (Z.of_nat (String.length bar)) in
      exists p,
        getMdProgress (Opened (before ++ line :: after) scanErr) = (p, None) /\
        p = ratioPercent (fills bar) (String.length bar) /\
        finiteNonneg p /\
        (Rabs (val p - 100 * k / L) <= 100 * k / L * pow2 (-51))%R /\
        (fills bar = String.length bar -> val p = 100%R) /\
        (fills bar = O -> p = zero)) /\
  (forall f p,
      getMdProgress f = (p, None) ->
      exists lines scanErr line pre bar post,
        f = Opened lines scanErr /\
        In line lines /\
        (occursIn "check" line \/ occursIn "resync" line) /\
        line = pre ++ "[" ++ bar ++ "]" ++ post /\
        progressBracket bar /\
        p = ratioPercent (fills bar) (String.length bar)).
Proof.
  split.
  - intros before line after scanErr pre bar post Hbefore M Hline Hpre Hbar
           Hlen k L.
    exists (ratioPercent (fills bar) (String.length bar)).
    assert (HL1 : (1 <= String.length bar)%nat)
      by (destruct Hbar as [Hne _]; destruct bar; [congruence | simpl; lia]).
    assert (HL53 : Z.of_nat (String.length bar) < 2 ^ 53).
    { unfold len, MaxScanTokenSize in Hlen. rewrite Hline in Hlen.
      rewrite !length_append in Hlen. lia. }
    pose proof (fills_le_length bar) as Hk.
    split; [|split; [reflexivity|split; [|split; [|split]]]].
    + subst line. unfold getMdProgress.
      rewrite scanProgress_skip_all by exact Hbefore.
      rewrite scanProgress_cons. apply mentions_iff in M. rewrite M.
      rewrite progressRe_find_first by assumption.
      now rewrite barPercent_ratio.
    + now apply ratioPercent_range.
    + destruct (fills bar) as [|k'] eqn:Ek.
      * rewrite ratioPercent_empty by assumption. unfold k. simpl.
        unfold Rdiv. rewrite !Rmult_0_r, !Rmult_0_l, Rminus_0_r, Rabs_R0. lra.
      * apply ratioPercent_near; [lia | lia | exact HL53].
    + intros E. rewrite E. now apply ratioPercent_full.
    + intros E. rewrite E. now apply ratioPercent_empty.
  - exact getMdProgress_sound.
Qed.

Lemma getMdProgress_first_bracket_witness :
  exists p,
    getMdProgress (Opened mdstatChecking false) = (p, None) /\
    p = S754_finite false 8042142191733028 (-49) /\
    (Rabs (val p - 100 * IZR 3 / IZR 21) <= 100 * IZR 3 / IZR 21 * pow2 (-51))%R.
Proof.
  destruct (proj1 getMdProgress_first_bracket
           ["Personalities : [raid6] [raid5] [raid4]";
            "md0 : active raid6 sdd1[3] sdc1[2] sdb1[1] sda1[0]";
            "      976630464 blocks super 1.2 level 6, 512k chunk [4/3] [UUU_]"]
           "      [==>..................]  check = 12.6% (123456/654321) finish=37.2min speed=33440K/sec"
           ["unused devices: <none>"] false
           "      " "==>.................."
           "  check = 12.6% (123456/654321) finish=37.2min speed=33440K/sec")
    as (p & Hp & Ep & _ & Hnear & _).
  - repeat constructor; intros [[H | H] _]; apply Contains_iff in H;
      vm_compute in H; discriminate.
  - left. apply Contains_iff. vm_compute. reflexivity.
  - reflexivity.
  - simpl. repeat split; discriminate.
  - split; [discriminate|]. simpl. unfold barByte. repeat split; auto.
  - reflexivity.
  - exists p. split; [exact Hp|]. split; [|exact Hnear].
    rewrite Ep. vm_compute. reflexivity.
Defined.

(** ** The claims about the progress bar *)

(** C6 as stated fails: the number of fill bytes is not always the integer
    part of [width * percent / 100].  For the percentage read from a bar
    with 3 fill bytes of 21 and the width 7, the exact quotient is below 1,
    and [drawProgressBar] draws one fill byte: the product
    [float64(width) * percent] rounds up to 100. *)
Lemma drawProgressBar_rounds_up :
  let percent := S754_finite false 8042142191733028 (-49) in
  getMdProgress (Opened mdstatChecking false) = (percent, None) /\
  valid percent = true /\
  leb zero percent = true /\ leb percent hundred = true /\
  (IZR 7 * val percent / 100 < 1)%R /\
  completedUnits percent 7 = 1 /\
  drawProgressBar 4096 percent 7 = Some "[=>.....] 14.3%".
Proof.
  cbv zeta. split; [vm_compute; reflexivity|].
  do 3 (split; [reflexivity|]).
  split; [|split; vm_compute; reflexivity].
  cbn [val]. unfold valPos.
  pose proof (pow2_neg_small 49 ltac:(lia)) as H.
  change (pow2 (-49) * IZR (2 ^ 49) = 1)%R in H.
  pose proof (pow2_pos (-49)) as Hp.
  assert (Hlt : (IZR 7 * IZR 8042142191733028 < 100 * IZR (2 ^ 49))%R).
  { rewrite <- !mult_IZR. apply IZR_lt. reflexivity. }
  assert (H49 : (0 < IZR (2 ^ 49))%R) by (apply IZR_lt; reflexivity).
  apply Rmult_lt_reg_r with (IZR (2 ^ 49)); [exact H49|].
  replace (IZR 7 * (IZR 8042142191733028 * pow2 (-49)) / 100 * IZR (2 ^ 49))%R
    with (IZR 7 * IZR 8042142191733028 * (pow2 (-49) * IZR (2 ^ 49)) / 100)%R
    by field.
  rewrite H. lra.
Qed.

(** C6, amended.  For every valid [float64] percentage between 0 and 100 and
    every positive width, when there is room for the result,
    [drawProgressBar] returns the bar between brackets followed by the
    percentage.  The bar has exactly [width] bytes: [completed] bytes [=],
    then, when [completed] is less than the width, one [>] and bytes [.] up
    to the width; at 100 per cent the bar is made of [=] only.  [completed]
    is the integer part of the exact quotient [width * percent / 100], or the
    next integer when the quotient falls short of that integer by less than
    [2^-51] of its own value. *)
Theorem drawProgressBar_shape (memory : Z) (percent : float64) (width : Z) :
  valid percent = true ->
  leb zero percent = true -> leb percent hundred = true ->
  0 < width ->
  fits memory (outputLength percent width) = true ->
  let completed := completedUnits percent width in
  let x := (IZR width * val percent / 100)%R in
  (x < IZR completed + 1)%R /\
  (IZR completed <= x * (1 + pow2 (-51)))%R /\
  (forall n, (IZR n <= x < IZR n + 1)%R -> completed = n \/ completed = n + 1) /\
  0 <= completed <= width /\
  drawProgressBar memory percent width
  = Some ("[" ++ barOf completed width ++ "] " ++ format1 percent ++ "%") /\
  String.length (barOf completed width) = Z.to_nat width /\
  (percent = hundred ->
   barOf completed width = replicate (Z.to_nat width) "=").
Proof.
  intros Hv H0 H100 Hw Hf completed x.
  destruct (percent_finiteNonneg percent Hv H0 H100) as [Hg Hle].
  pose proof (proj1 (fits_iff _ _) Hf) as [_ Hmax].
  pose proof (len_nonneg (format1 percent)) as Hl. unfold outputLength in Hmax.
  assert (Hwm : 0 < width <= maxAlloc) by lia.
  destruct (completedUnits_exact percent width Hg Hle Hwm) as (Hc & Hlt & Hge).
  fold completed in Hc, Hlt, Hge. fold x in Hlt, Hge.
  split; [exact Hlt|]. split; [exact Hge|]. split; [|split; [exact Hc|split; [|split]]].
  - intros n [Hn1 Hn2].
    assert (Hlow : n < completed + 1)
      by (apply lt_IZR; rewrite plus_IZR; lra).
    assert (Hup : completed < n + 2); [|lia].
    apply lt_IZR. rewrite plus_IZR.
    pose proof (finiteNonneg_val percent Hg) as Hp0.
    assert (HW : (0 < IZR width <= IZR maxAlloc)%R)
      by (split; [apply IZR_lt | apply IZR_le]; lia).
    assert (Hx : (0 <= x <= IZR maxAlloc)%R) by (unfold x; nra).
    assert (H51 : (IZR maxAlloc * pow2 (-51) < 1)%R).
    { unfold maxAlloc. rewrite <- pow2_IZR, <- pow2_add by lia.
      change (48 + -51) with (-3). unfold pow2. simpl. lra. }
    pose proof (pow2_pos (-51)). nra.
  - now apply drawProgressBar_in_range.
  - now apply length_barOf.
  - intros ->. unfold completed. rewrite completedUnits_hundred by exact Hwm.
    unfold barOf. rewrite Z.ltb_irrefl. apply append_empty_r.
Qed.

Lemma drawProgressBar_shape_witness :
  drawProgressBar 4096 (ofInt 25) 10 = Some "[==>.......] 25.0%".
Proof.
  destruct (drawProgressBar_shape 4096 (ofInt 25) 10) as (_ & _ & _ & _ & H & _).
  - reflexivity.
  - reflexivity.
  - reflexivity.
  - lia.
  - reflexivity.
  - exact H.
Defined.

(** C7 as stated fails: at 0 per cent a bar of width 8 has seven filler
    bytes after the transition byte, not six. *)
Lemma bar_at_zero_has_width_minus_one_fillers :
  drawProgressBar 4096 zero 8 = Some "[>.......] 0.0%" /\
  drawProgressBar 4096 zero 8
  <> Some ("[" ++ String ">" (replicate (8 - 2) ".") ++ "] 0.0%").
Proof.
  split; [vm_compute; reflexivity | vm_compute; discriminate].
Qed.

(** C7, amended.  For every positive width [W]: at 0 per cent the bar is one
    transition byte followed by [W - 1] filler bytes; at 100 per cent it is
    [W] fill bytes, with no filler and no transition byte.  Either is
    returned exactly when there is room for it. *)
Theorem drawProgressBar_ends (memory W : Z) :
  0 < W <= maxInt ->
  drawProgressBar memory zero W
  = (if fits memory (W + 7)
     then Some ("[" ++ String ">" (replicate (Z.to_nat (W - 1)) ".") ++ "] 0.0%")
     else None) /\
  drawProgressBar memory hundred W
  = (if fits memory (W + 9)
     then Some ("[" ++ replicate (Z.to_nat W) "=" ++ "] 100.0%")
     else None).
Proof.
  intros HW. destruct hundred_val as [Hgh Hvh].
  assert (Hgz : finiteNonneg zero) by (split; reflexivity).
  assert (Ez : outputLength zero W = W + 7)
    by (unfold outputLength; change (len (format1 zero)) with 3; lia).
  assert (Eh : outputLength hundred W = W + 9)
    by (unfold outputLength; change (len (format1 hundred)) with 5; lia).
  rewrite <- Ez, <- Eh. split.
  - destruct (fits memory (outputLength zero W)) eqn:Hf.
    + pose proof (proj1 (fits_iff _ _) Hf) as [_ Hmax]. unfold maxAlloc in Hmax.
      rewrite drawProgressBar_in_range; try assumption; try lia.
      * change zero with (S754_zero false).
        rewrite (completedUnits_zero false W) by lia.
        unfold barOf. assert (E : (0 <? W) = true) by (apply Z.ltb_lt; lia).
        rewrite E. replace (W - 0 - 1) with (W - 1) by lia. reflexivity.
      * simpl. lra.
    + destruct (drawProgressBar memory zero W) as [s|] eqn:E; [|reflexivity].
      apply drawProgressBar_some in E; [|exact HW].
      destruct E as [_ E]. congruence.
  - destruct (fits memory (outputLength hundred W)) eqn:Hf.
    + pose proof (proj1 (fits_iff _ _) Hf) as [_ Hmax].
      rewrite drawProgressBar_in_range; try assumption; try lia.
      * rewrite completedUnits_hundred by lia.
        unfold barOf. rewrite Z.ltb_irrefl, append_empty_r. reflexivity.
      * lra.
    + destruct (drawProgressBar memory hundred W) as [s|] eqn:E; [|reflexivity].
      apply drawProgressBar_some in E; [|exact HW].
      destruct E as [_ E]. congruence.
Qed.

Lemma drawProgressBar_ends_witness :
  drawProgressBar 4096 zero 8 = Some "[>.......] 0.0%" /\
  drawProgressBar 4096 hundred 8 = Some "[========] 100.0%".
Proof.
  apply (drawProgressBar_ends 4096 8).
  vm_compute. split; [reflexivity | discriminate].
Defined.

(** C10 as stated fails in its second half: [drawProgressBar] is not total
    on the positive widths.  One byte above [maxAlloc], at 100 per cent,
    both counts are non-negative, and the first, the width itself, is more
    than can be allocated: the first [strings.Repeat] ends the run. *)
Lemma drawProgressBar_not_total :
  valid hundred = true /\ leb zero hundred = true /\ leb hundred hundred = true /\
  0 < maxAlloc + 1 <= maxInt /\
  completedUnits hundred (maxAlloc + 1) = maxAlloc + 1 /\
  Repeat maxAlloc "=" (maxAlloc + 1) = None /\
  drawProgressBar maxAlloc hundred (maxAlloc + 1) = None.
Proof.
  do 3 (split; [reflexivity|]).
  split; [split; [reflexivity | discriminate]|].
  split; [vm_compute; reflexivity|].
  split; [reflexivity|]. vm_compute. reflexivity.
Qed.

(** Near the largest [int] the first count itself can be negative:
    [float64(width)] is [2^63] there, which is not an [int], and its
    conversion, which the language leaves to the implementation, yields the
    smallest [int] on amd64. *)
Example completedUnits_at_maxInt :
  completedUnits hundred maxInt = minInt /\
  drawProgressBar maxAlloc hundred maxInt = None.
Proof. split; vm_compute; reflexivity. Qed.

(** C10, amended.  Every value that [getMdProgress] returns from lines a
    scanner can deliver is a valid [float64] between 0 and 100.  For every
    valid [float64] percentage between 0 and 100 and every positive width,
    [drawProgressBar] returns a string exactly when there is room for its
    result; up to the largest width that can be allocated the first count
    passed to [strings.Repeat] lies between 0 and the width, and at every
    width the second count, computed once the first string exists, is not
    negative. *)
Theorem progress_in_range_and_bar_total :
  (forall f p,
      scannerLines f ->
      getMdProgress f = (p, None) ->
      valid p = true /\ leb zero p = true /\ leb p hundred = true) /\
  (forall memory percent width,
      valid percent = true ->
      leb zero percent = true -> leb percent hundred = true ->
      0 < width <= maxInt ->
      let completed := completedUnits percent width in
      let remaining := wrap64 (width - completed) in
      (drawProgressBar memory percent width <> None <->
       fits memory (outputLength percent width) = true) /\
      (width <= maxAlloc -> 0 <= completed <= width) /\
      (Repeat memory "=" completed <> None ->
       0 <= (if 0 <? remaining then wrap64 (remaining - 1) else remaining))).
Proof.
  split.
  - intros f p Hlines Hp.
    destruct (getMdProgress_range f p Hlines Hp) as [Hg Hle].
    destruct hundred_val as [Hgh Hvh].
    split; [apply Hg|]. split.
    + apply leb_val; [split; reflexivity | exact Hg |].
      simpl. now apply finiteNonneg_val.
    + apply leb_val; [exact Hg | exact Hgh |]. rewrite Hvh. exact Hle.
  - intros memory percent width Hv H0 H100 Hw completed remaining.
    destruct (percent_finiteNonneg percent Hv H0 H100) as [Hg Hle].
    assert (Hunits : width <= maxAlloc -> 0 <= completed <= width).
    { intros Hmax. apply completedUnits_exact; try assumption. lia. }
    split; [|split; [exact Hunits|]].
    + split.
      * destruct (drawProgressBar memory percent width) as [s|] eqn:E;
          [|congruence].
        intros _. now apply drawProgressBar_some in E.
      * intros Hf. rewrite drawProgressBar_in_range; try assumption;
          [discriminate | lia].
    + intros HR.
      destruct (Repeat memory "=" completed) as [bar|] eqn:R; [|congruence].
      apply Repeat_some in R. destruct R as (Hc0 & Hfc & _).
      apply fits_iff in Hfc. destruct Hfc as [_ Hcmax].
      assert (Hcw : completed <= width).
      { destruct (Z_le_gt_dec width maxAlloc) as [Hs|Hb]; [now apply Hunits | lia]. }
      unfold remaining, maxInt, maxAlloc in *. rewrite wrap64_small by lia.
      destruct (0 <? width - completed) eqn:E.
      * apply Z.ltb_lt in E. rewrite wrap64_small; lia.
      * lia.
Qed.

Lemma progress_in_range_and_bar_total_witness :
  leb zero (fst (getMdProgress (Opened mdstatChecking false))) = true /\
  leb (fst (getMdProgress (Opened mdstatChecking false))) hundred = true /\
  drawProgressBar 4096 (ofInt 25) 10 <> None.
Proof.
  destruct (proj1 progress_in_range_and_bar_total
              (Opened mdstatChecking false)
              (fst (getMdProgress (Opened mdstatChecking false))))
    as (_ & H1 & H2).
  - repeat constructor.
  - reflexivity.
  - destruct (proj2 progress_in_range_and_bar_total 4096 (ofInt 25) 10)
      as (H3 & _).
    + reflexivity.
    + reflexivity.
    + reflexivity.
    + vm_compute. split; [reflexivity | discriminate].
    + split; [exact H1|]. split; [exact H2|]. apply H3. reflexivity.
Defined.

(** ** The loop never panics *)

(** A progress value read from the file can always be drawn at the widths
    the program uses. *)
Lemma drawProgressBar_of_progress (f : mdstat) (p : float64) (width : Z) :
  scannerLines f ->
  getMdProgress f = (p, None) ->
  0 < width <= 50 ->
  exists bar, drawProgressBar maxAlloc p width = Some bar.
Proof.
  intros Hlines Hp Hw.
  destruct (getMdProgress_range f p Hlines Hp) as [Hg Hle].
  eexists. apply drawProgressBar_in_range; try assumption; [lia|].
  pose proof (format1_length p Hg Hle) as Hl.
  apply fits_iff. unfold outputLength, maxAlloc. lia.
Qed.

Lemma renderStatus_total (w : world) (n : nat) :
  scannerLines (mdstatAt w (S n)) -> snd (renderStatus w n) = true.
Proof.
  intros Hlines. unfold renderStatus.
  destruct (getMdTimeLeft (mdstatAt w n)) as [timeLeft err].
  destruct (getMdProgress (mdstatAt w (S n))) as [progress [e|]] eqn:Hp;
    [reflexivity|].
  destruct (drawProgressBar_of_progress _ _ 50 Hlines Hp) as [bar ->]; [lia|].
  reflexivity.
Qed.

Lemma step_no_panic (w : world) (st : state) :
  (forall i, scannerLines (mdstatAt w i)) ->
  at_ st <> Halted Panicked -> at_ (step w st) <> Halted Panicked.
Proof.
  intros Hlines Hst. unfold step. destruct (at_ st) eqn:Hat.
  - destruct (getMdChecking (mdstatAt w (reads st))) as [count [e|]];
      [simpl; discriminate|].
    destruct (count =? 0); [simpl; discriminate|].
    pose proof (renderStatus_total w (S (reads st)) (Hlines _)) as Hok.
    destruct (renderStatus w (S (reads st))) as [shown ok].
    simpl in Hok. subst ok. simpl. discriminate.
  - destruct (getMdChecking (mdstatAt w (reads st))) as [count [e|]];
      [simpl; discriminate|].
    destruct (count =? 0); simpl; [destruct (rebootErr w)|]; discriminate.
  - now rewrite Hat.
Qed.

(** In a world where every read delivers lines of a scanner, drawing the bar
    never stops the loop. *)
Lemma loop_never_panics (w : world) (n : nat) :
  (forall i, scannerLines (mdstatAt w i)) ->
  at_ (steps w n start) <> Halted Panicked.
Proof.
  intros Hlines.
  assert (H : forall st, at_ st <> Halted Panicked ->
                         at_ (steps w n st) <> Halted Panicked).
  { induction n as [|n IH]; intros st Hst; simpl; [exact Hst|].
    apply IH. now apply step_no_panic. }
  apply H. simpl. discriminate.
Qed.

(** ** The scenarios of the specification *)

(** Scenario A: no check, no resync, no finish. *)
Example scenario_idle :
  getMdChecking (Opened mdstatIdle false) = (0, None) /\
  getMdProgress (Opened mdstatIdle false) = (zero, Some NoProgressInformation) /\
  getMdTimeLeft (Opened mdstatIdle false) = (EmptyString, None).
Proof. repeat split; vm_compute; reflexivity. Qed.

(** Scenario B: one check is counted, and the device-state bracket is passed
    over, also when it stands on the line of the bar. *)
Example scenario_checking :
  getMdChecking (Opened mdstatChecking false) = (1, None) /\
  getMdProgress (Opened mdstatChecking false) = (ratioPercent 3 21, None) /\
  FindStringSubmatch progressRe "      [4/3] [UUU_] [=>..] check"
  = ["[=>..]"; "=>.."].
Proof. repeat split; vm_compute; reflexivity. Qed.

(** Scenario C: a check seen twice, then none: two sleeps of the poll
    interval, then the confirming read and [reboot]. *)
Example scenario_reboot :
  at_ (steps checkThenIdle 4 start) = Halted Rebooted /\
  reads (steps checkThenIdle 4 start) = 8%nat /\
  filter (fun ev => match ev with Sleep _ | RunReboot => true | _ => false end)
         (trace (steps checkThenIdle 4 start))
  = [Sleep pollInterval; Sleep pollInterval; RunReboot].
Proof. repeat split; vm_compute; reflexivity. Qed.

(** * The rest of the program: properties *)

(** ** The matcher, continued *)

Lemma append_same_length (p1 p2 s1 s2 : string) :
  String.length p1 = String.length p2 ->
  p1 ++ s1 = p2 ++ s2 -> p1 = p2 /\ s1 = s2.
Proof.
  revert p2. induction p1 as [|c p1 IH]; intros [|d p2]; simpl;
    try discriminate.
  - auto.
  - intros [= Hl] [= -> H]. destruct (IH _ Hl H) as [-> ->]. auto.
Qed.

(** Two ways of cutting a string: one cut lies in the other's prefix. *)
Lemma append_split (p1 p2 s1 s2 : string) :
  p1 ++ s1 = p2 ++ s2 ->
  (String.length p1 <= String.length p2)%nat ->
  exists u, p2 = p1 ++ u /\ s1 = u ++ s2.
Proof.
  revert p2. induction p1 as [|c p1 IH]; intros p2; simpl.
  - intros -> _. now exists p2.
  - destruct p2 as [|d p2]; simpl; [lia|].
    intros [= -> H] Hl. destruct (IH p2 H) as (u & -> & ->); [lia|].
    now exists u.
Qed.

Section PlusFacts.

Context {A : Type}.

(** A continuation that accepts every input lets [a+] fail only where no
    accepted byte stands. *)
Lemma plus_none_stops (a : atom) (s : string) (k : string -> option A) :
  (forall x, k x <> None) -> plus a s k = None -> stops a s.
Proof.
  intros Hk. destruct s as [|c s]; simpl; [trivial|].
  destruct (accepts a c); [|reflexivity].
  destruct (plus a s k); [discriminate|]. intros H. now apply Hk in H.
Qed.

(** Under such a continuation the run that [a+] consumes is the longest. *)
Lemma plus_maximal (a : atom) (s : string) (k : string -> option A) (r : A) :
  (forall x, k x <> None) ->
  plus a s k = Some r ->
  exists p s1,
    s = p ++ s1 /\ p <> EmptyString /\ allBytes (accepted a) p /\
    stops a s1 /\ k s1 = Some r.
Proof.
  intros Hk. induction s as [|c s IH]; simpl; [discriminate|].
  destruct (accepts a c) eqn:Hc; [|discriminate].
  destruct (plus a s k) as [r'|] eqn:Hp.
  - intros [= <-]. destruct (IH eq_refl) as (p & s1 & -> & _ & Hall & Hs & H).
    exists (String c p), s1. repeat split; try assumption. discriminate.
  - intros H. exists (String c EmptyString), s.
    repeat split; try assumption; [discriminate|].
    now apply plus_none_stops with (k := k).
Qed.

Lemma plus_stops (a : atom) (s : string) (k : string -> option A) :
  stops a s -> plus a s k = None.
Proof.
  destruct s as [|c s]; simpl; [reflexivity|]. now intros ->.
Qed.

(** [a+] consumes a whole run when the continuation accepts what follows. *)
Lemma plus_longest (a : atom) (p tail : string) (k : string -> option A) (r : A) :
  p <> EmptyString ->
  allBytes (accepted a) p ->
  stops a tail ->
  k tail = Some r ->
  plus a (p ++ tail) k = Some r.
Proof.
  intros Hne Hall Hs Hk. induction p as [|c p IH]; [congruence|].
  destruct Hall as [Hc Hall]. simpl. rewrite Hc.
  destruct p as [|d p].
  - simpl. now rewrite plus_stops.
  - now rewrite IH by (discriminate || assumption).
Qed.

(** A literal prefix of a pattern matches its own bytes and nothing else. *)
Lemma run_lit (p : string) (r : regex) (s : string) (cap : option string)
  (k : string -> option string -> option A) (x : A) :
  run (lit p r) s cap k = Some x <->
  exists s', s = p ++ s' /\ run r s' cap k = Some x.
Proof.
  revert s. induction p as [|c p IH]; intros s; simpl.
  - split; [intros H; now exists s | now intros (s' & -> & H)].
  - destruct s as [|d s].
    + split; [discriminate | intros (s' & H & _); discriminate].
    + destruct (Ascii.eqb d c) eqn:E.
      * apply Ascii.eqb_eq in E; subst d. rewrite IH. split.
        -- intros (s' & -> & H). now exists s'.
        -- intros (s' & [= ->] & H). now exists s'.
      * apply Ascii.eqb_neq in E. split; [discriminate|].
        intros (s' & [= -> _] & _). congruence.
Qed.

End PlusFacts.

(** ** The pattern of the estimated time *)

Lemma tokenClass_tokenByte (c : ascii) :
  accepts (NegClass ["092"%char; "s"%char]) c = true <-> tokenByte c.
Proof.
  unfold tokenByte; simpl.
  rewrite negb_true_iff, !orb_false_iff, !Ascii.eqb_neq. tauto.
Qed.

Lemma tokenByte_dec (c : ascii) : {tokenByte c} + {~ tokenByte c}.
Proof.
  destruct (accepts (NegClass ["092"%char; "s"%char]) c) eqn:E.
  - left. now apply tokenClass_tokenByte.
  - right. intros H. apply tokenClass_tokenByte in H. congruence.
Qed.

Lemma stops_tokenEnds (s : string) :
  stops (NegClass ["092"%char; "s"%char]) s <-> tokenEnds s.
Proof.
  destruct s as [|c s]; simpl; [tauto|].
  change (negb (Ascii.eqb c "092" || (Ascii.eqb c "s" || false)))
    with (accepts (NegClass ["092"%char; "s"%char]) c).
  rewrite <- tokenClass_tokenByte.
  destruct (accepts _ c); split; congruence.
Qed.

(** A match of the pattern at the very start of [s]: the token is the
    longest run of accepted bytes after [finish=]. *)
Lemma finishRe_here_sound (s rest : string) (cap : option string) :
  run finishRe s None found = Some (rest, cap) ->
  exists tok,
    cap = Some tok /\ s = "finish=" ++ tok ++ rest /\
    tok <> EmptyString /\ allBytes tokenByte tok /\ tokenEnds rest.
Proof.
  unfold finishRe. rewrite run_lit. intros (s' & -> & H).
  cbn [run] in H. apply plus_maximal in H; [|discriminate].
  destruct H as (p & s1 & -> & Hne & Hall & Hs & Hk).
  unfold found in Hk. injection Hk as <- <-. exists p.
  rewrite consumed_append. repeat split; try assumption.
  - eapply allBytes_impl; [|exact Hall]. intros c. apply tokenClass_tokenByte.
  - now apply stops_tokenEnds.
Qed.

Lemma finishRe_here_complete (tok rest : string) :
  tok <> EmptyString -> allBytes tokenByte tok -> tokenEnds rest ->
  run finishRe ("finish=" ++ tok ++ rest) None found = Some (rest, Some tok).
Proof.
  intros Hne Hall Hend. unfold finishRe. apply run_lit.
  exists (tok ++ rest). split; [reflexivity|]. cbn [run].
  apply plus_longest; try assumption.
  - eapply allBytes_impl; [|exact Hall]. intros c. apply tokenClass_tokenByte.
  - now apply stops_tokenEnds.
  - unfold found. now rewrite consumed_append.
Qed.

(** The longest run of accepted bytes at the start of a string. *)
Lemma token_cut (s : string) :
  exists tok rest, s = tok ++ rest /\ allBytes tokenByte tok /\ tokenEnds rest.
Proof.
  induction s as [|c s (tok & rest & -> & Hall & Hend)].
  - now exists EmptyString, EmptyString.
  - destruct (tokenByte_dec c) as [Hc | Hc].
    + exists (String c tok), rest. simpl. auto.
    + exists EmptyString, (String c (tok ++ rest)). simpl. auto.
Qed.

Lemma token_cut_unique (t1 r1 t2 r2 : string) :
  t1 ++ r1 = t2 ++ r2 ->
  allBytes tokenByte t1 -> tokenEnds r1 ->
  allBytes tokenByte t2 -> tokenEnds r2 ->
  t1 = t2 /\ r1 = r2.
Proof.
  revert t2. induction t1 as [|c t1 IH]; intros [|d t2]; simpl.
  - auto.
  - intros -> _ H1 [H2 _] _. simpl in H1. contradiction.
  - intros <- [H1 _] _ _ H2. simpl in H2. contradiction.
  - intros [= -> H] [_ H1] Hr1 [_ H2] Hr2.
    destruct (IH _ H H1 Hr1 H2 Hr2) as [-> ->]. auto.
Qed.

Lemma finishRe_here_none (s : string) :
  run finishRe s None found = None <-> ~ finishAt EmptyString s.
Proof.
  split.
  - intros H (c & rest & -> & Hc).
    destruct (token_cut rest) as (tok & rest' & -> & Hall & Hend).
    change (EmptyString ++ ?x) with x in H.
    change (String c (tok ++ rest')) with (String c tok ++ rest') in H.
    rewrite finishRe_here_complete in H;
      [discriminate | discriminate | now split | assumption].
  - intros H. destruct (run finishRe s None found) as [[rest cap]|] eqn:E;
      [|reflexivity].
    exfalso. apply H. apply finishRe_here_sound in E.
    destruct E as (tok & _ & -> & Hne & Hall & _).
    destruct tok as [|c tok]; [congruence|]. destruct Hall as [Hc _].
    now exists c, (tok ++ rest).
Qed.

Lemma finishAt_cons (c : ascii) (pre s : string) :
  finishAt (String c pre) (String c s) <-> finishAt pre s.
Proof.
  split; intros (d & rest & H & Hd); exists d, rest; split; try assumption.
  - simpl in H. now injection H.
  - simpl. now rewrite H.
Qed.

Lemma finishAt_head (c d : ascii) (pre s : string) :
  finishAt (String c pre) (String d s) -> c = d.
Proof. intros (x & rest & H & _). simpl in H. now injection H. Qed.

(** What [FindStringSubmatch] returns for the pattern: nothing when no token
    follows any [finish=], and otherwise the longest token at the leftmost
    place where one starts. *)
Lemma finishRe_find (s : string) :
  (FindStringSubmatch finishRe s = [] /\ ~ carriesFinish s) \/
  exists pre tok rest,
    finishToken s pre tok rest /\ tok <> EmptyString /\
    FindStringSubmatch finishRe s = ["finish=" ++ tok; tok].
Proof.
  induction s as [|c s IH].
  - left. split; [reflexivity|]. intros ([|d pre] & x & rest & H & _);
      discriminate.
  - rewrite FindStringSubmatch_eq.
    destruct (run finishRe (String c s) None found) as [[rest cap]|] eqn:E.
    + right. apply finishRe_here_sound in E.
      destruct E as (tok & -> & Hs & Hne & Hall & Hend).
      exists EmptyString, tok, rest. split; [|split; [exact Hne|]].
      * split; [exact Hs|]. split; [|now split]. split.
        -- destruct tok as [|d tok]; [congruence|]. destruct Hall as [Hd _].
           exists d, (tok ++ rest). now split.
        -- intros pre' _. simpl. lia.
      * rewrite Hs. f_equal.
        replace ("finish=" ++ tok ++ rest) with (("finish=" ++ tok) ++ rest)
          by (now rewrite append_assoc).
        apply consumed_append.
    + apply finishRe_here_none in E.
      destruct IH as [[IH Hno] | (pre & tok & rest & Htok & Hne & IH)].
      * left. split; [exact IH|]. intros ([|d pre] & H); [contradiction|].
        pose proof (finishAt_head _ _ _ _ H) as ->.
        apply finishAt_cons in H. apply Hno. now exists pre.
      * right. exists (String c pre), tok, rest. split; [|auto].
        destruct Htok as (-> & [Hat Hfirst] & Hall & Hend).
        split; [reflexivity|]. split; [|now split]. split.
        -- now apply finishAt_cons.
        -- intros [|d pre'] H; [contradiction|].
           pose proof (finishAt_head _ _ _ _ H) as ->.
           apply finishAt_cons in H. apply Hfirst in H. simpl. lia.
Qed.

(** The leftmost place and the longest token there are unique. *)
Lemma finishToken_unique (s pre1 tok1 rest1 pre2 tok2 rest2 : string) :
  finishToken s pre1 tok1 rest1 -> finishToken s pre2 tok2 rest2 ->
  pre1 = pre2 /\ tok1 = tok2 /\ rest1 = rest2.
Proof.
  intros (E1 & [Hat1 Hf1] & Hall1 & Hend1) (E2 & [Hat2 Hf2] & Hall2 & Hend2).
  assert (Hl : String.length pre1 = String.length pre2).
  { pose proof (Hf1 _ Hat2). pose proof (Hf2 _ Hat1). lia. }
  assert (E : pre1 ++ "finish=" ++ tok1 ++ rest1
              = pre2 ++ "finish=" ++ tok2 ++ rest2) by congruence.
  destruct (append_same_length _ _ _ _ Hl E) as [-> E'].
  split; [reflexivity|]. simpl in E'. injection E' as E'.
  now apply token_cut_unique.
Qed.

Lemma finishToken_nonempty (s pre tok rest : string) :
  finishToken s pre tok rest -> tok <> EmptyString.
Proof.
  intros (E & [(c & r & E' & Hc) _] & _ & Hend) ->. rewrite E in E'.
  destruct (append_same_length _ _ _ _ eq_refl E') as [_ E2].
  simpl in E2. injection E2 as ->. simpl in Hend. contradiction.
Qed.

Lemma finishRe_find_token (s pre tok rest : string) :
  finishToken s pre tok rest ->
  FindStringSubmatch finishRe s = ["finish=" ++ tok; tok].
Proof.
  intros H. destruct (finishRe_find s) as [[_ Hno] | (p & t & r & H' & _ & E)].
  - exfalso. apply Hno. exists pre. apply H.
  - destruct (finishToken_unique _ _ _ _ _ _ _ H H') as (_ & -> & _). exact E.
Qed.

Lemma carriesFinish_mentions (line : string) :
  carriesFinish line -> Contains line "finish" = true.
Proof.
  intros (pre & c & rest & -> & _). apply Contains_iff.
  exists pre, (String "=" (String c rest)). reflexivity.
Qed.

(** ** The loop of [getMdTimeLeft] *)

Lemma scanTimeLeft_cons (line : string) (lines : list string) :
  scanTimeLeft (line :: lines) =
  if Contains line "finish" then
    match FindStringSubmatch finishRe line with
    | _ :: token :: _ => Some token
    | _ => scanTimeLeft lines
    end
  else scanTimeLeft lines.
Proof. reflexivity. Qed.

Lemma scanTimeLeft_skip (line : string) (lines : list string) :
  ~ carriesFinish line -> scanTimeLeft (line :: lines) = scanTimeLeft lines.
Proof.
  intros H. rewrite scanTimeLeft_cons.
  destruct (Contains line "finish"); [|reflexivity].
  destruct (finishRe_find line) as [[-> _] | (pre & tok & rest & Htok & _)].
  - reflexivity.
  - exfalso. apply H. exists pre. apply Htok.
Qed.

Lemma scanTimeLeft_here (line pre tok rest : string) (lines : list string) :
  finishToken line pre tok rest -> scanTimeLeft (line :: lines) = Some tok.
Proof.
  intros H. rewrite scanTimeLeft_cons.
  rewrite carriesFinish_mentions by (exists pre; apply H).
  now rewrite (finishRe_find_token _ _ _ _ H).
Qed.

(** The loop returns the token of the first line that carries one. *)
Lemma scanTimeLeft_spec (lines : list string) :
  (scanTimeLeft lines = None /\ Forall (fun l => ~ carriesFinish l) lines) \/
  exists before line after pre tok rest,
    lines = (before ++ line :: after)%list /\
    Forall (fun l => ~ carriesFinish l) before /\
    finishToken line pre tok rest /\
    scanTimeLeft lines = Some tok.
Proof.
  induction lines as [|l lines IH]; [left; auto|].
  destruct (finishRe_find l) as [[_ Hno] | (pre & tok & rest & Htok & _ & _)].
  - rewrite scanTimeLeft_skip by assumption.
    destruct IH as [[IH Hall] | (before & line & after & pre & tok & rest & -> & Hb & Htok & IH)].
    + left. auto.
    + right. exists (l :: before), line, after, pre, tok, rest. auto.
  - right. exists [], l, lines, pre, tok, rest.
    repeat split; try apply Htok; [constructor|].
    now apply scanTimeLeft_here with (pre := pre) (rest := rest).
Qed.

(** ** [getMdTimeLeft] *)

(** X1.  [getMdTimeLeft] returns a non-empty token, with no error, exactly
    when some line carries one: the token comes from the first such line,
    starts after the leftmost [finish=] of that line that an accepted byte
    follows, and runs up to the end of the line or the next [s] or
    backslash.  A scan that breaks later does not change the result. *)
Theorem getMdTimeLeft_first_token (lines : list string) (scanErr : bool)
  (tok : string) :
  getMdTimeLeft (Opened lines scanErr) = (tok, None) /\ tok <> EmptyString <->
  exists before line after pre rest,
    lines = (before ++ line :: after)%list /\
    Forall (fun l => ~ carriesFinish l) before /\
    finishToken line pre tok rest.
Proof.
  unfold getMdTimeLeft. split.
  - intros [H Hne].
    destruct (scanTimeLeft_spec lines)
      as [[E _] | (before & line & after & pre & t & rest & El & Hb & Ht & E)];
      rewrite E in H.
    + destruct scanErr; [discriminate|]. injection H as <-. congruence.
    + injection H as <-. now exists before, line, after, pre, rest.
  - intros (before & line & after & pre & rest & -> & Hb & Ht).
    split; [|now apply finishToken_nonempty in Ht].
    replace (scanTimeLeft (before ++ line :: after)) with (Some tok);
      [reflexivity|].
    symmetry. induction Hb as [|l before Hl Hb IH]; simpl app.
    + now apply scanTimeLeft_here with (pre := pre) (rest := rest).
    + now rewrite scanTimeLeft_skip.
Qed.

(** X2.  The empty string is returned exactly when the file cannot be opened
    or no line of it carries a token; the callers print the estimate only
    for a non-empty string. *)
Theorem getMdTimeLeft_empty_iff (f : mdstat) :
  fst (getMdTimeLeft f) = EmptyString <->
  match f with
  | OpenFails => True
  | Opened lines _ => Forall (fun l => ~ carriesFinish l) lines
  end.
Proof.
  destruct f as [|lines scanErr]; simpl; [tauto|].
  destruct (scanTimeLeft_spec lines)
    as [[E Hall] | (before & line & after & pre & t & rest & -> & Hb & Ht & E)];
    rewrite E.
  - destruct scanErr; simpl; tauto.
  - simpl. split.
    + intros ->. now apply finishToken_nonempty in Ht.
    + intros Hall. exfalso.
      apply Forall_app in Hall. destruct Hall as [_ Hall].
      inversion Hall as [|? ? Hl _]; subst. apply Hl. exists pre. apply Ht.
Qed.

(** X3.  A scan that breaks is reported only when no token was found before
    it broke: the error of an opened file is [FailedToRead] exactly when the
    scan failed and no line read so far carries a token, and it is [nil]
    otherwise. *)
Theorem getMdTimeLeft_read_error_iff (lines : list string) (scanErr : bool) :
  (snd (getMdTimeLeft (Opened lines scanErr)) = Some FailedToRead <->
   scanErr = true /\ Forall (fun l => ~ carriesFinish l) lines) /\
  (snd (getMdTimeLeft (Opened lines scanErr)) = None \/
   snd (getMdTimeLeft (Opened lines scanErr)) = Some FailedToRead).
Proof.
  simpl.
  destruct (scanTimeLeft_spec lines)
    as [[E Hall] | (before & line & after & pre & t & rest & -> & Hb & Ht & E)];
    rewrite E.
  - destruct scanErr; simpl; (split; [|auto]).
    + tauto.
    + split; [discriminate | intros [? _]; discriminate].
  - simpl. split; [|now left]. split; [discriminate|].
    intros [_ Hall]. exfalso.
    apply Forall_app in Hall. destruct Hall as [_ Hall].
    inversion Hall as [|? ? Hl _]; subst. apply Hl. exists pre. apply Ht.
Qed.

(** ** The poll loop, continued *)

Lemma getMdChecking_quiet (f : mdstat) :
  quiet f <-> getMdChecking f = (0, None).
Proof.
  unfold quiet. split.
  - intros (lines & -> & Hall). simpl. rewrite countChecking_acc. simpl.
    replace (linesWith "check" lines) with (@nil string); [reflexivity|].
    symmetry. induction Hall as [|l lines Hl _ IH]; simpl; [reflexivity|].
    destruct (Contains l "check") eqn:E; [|exact IH].
    apply Contains_iff in E. contradiction.
  - destruct f as [|lines [|]]; simpl; try discriminate.
    rewrite countChecking_acc. intros [= H]. exists lines. split; [reflexivity|].
    induction lines as [|l lines IH]; [constructor|]. simpl in H.
    destruct (Contains l "check") eqn:E; simpl in H; [lia|].
    constructor; [|now apply IH].
    intros Hin. apply Contains_iff in Hin. congruence.
Qed.

Lemma getMdChecking_checking (f : mdstat) :
  checking f <-> exists count, getMdChecking f = (count, None) /\ 0 < count.
Proof.
  unfold checking. split.
  - intros (lines & -> & Hex). simpl. rewrite countChecking_acc.
    eexists. split; [reflexivity|]. simpl.
    induction Hex as [l lines Hl | l lines _ IH]; simpl.
    + apply Contains_iff in Hl. rewrite Hl. simpl List.length. lia.
    + destruct (Contains l "check"); simpl List.length; lia.
  - intros (count & H & Hpos). destruct f as [|lines [|]]; simpl in H;
      try discriminate.
    rewrite countChecking_acc in H. injection H as <-.
    exists lines. split; [reflexivity|].
    induction lines as [|l lines IH]; simpl in Hpos; [lia|].
    destruct (Contains l "check") eqn:E.
    + left. now apply Contains_iff.
    + right. now apply IH.
Qed.

(** The four ways through a step that reads without error. *)
Lemma step_leave (w : world) (st : state) :
  at_ st = Polling -> quiet (mdstatAt w (reads st)) ->
  step w st = {| at_ := Idle; reads := S (reads st); trace := trace st |}.
Proof.
  intros Hat Hq. apply getMdChecking_quiet in Hq.
  unfold step. now rewrite Hat, Hq.
Qed.

Lemma step_poll (w : world) (st : state) :
  at_ st = Polling -> checking (mdstatAt w (reads st)) ->
  step w st =
  {| at_ := if snd (renderStatus w (S (reads st)))
            then Polling else Halted Panicked;
     reads := S (S (S (reads st)));
     trace := (trace st ++ [Sleep pollInterval; Print clearScreen] ++
               fst (renderStatus w (S (reads st))))%list |}.
Proof.
  intros Hat Hc. apply getMdChecking_checking in Hc.
  destruct Hc as (count & Hc & Hpos).
  unfold step. rewrite Hat, Hc.
  destruct (count =? 0) eqn:E; [apply Z.eqb_eq in E; lia|].
  now destruct (renderStatus w (S (reads st))).
Qed.

Lemma step_reboot (w : world) (st : state) :
  at_ st = Idle -> quiet (mdstatAt w (reads st)) ->
  step w st =
  {| at_ := Halted (if rebootErr w then RebootFailed else Rebooted);
     reads := S (reads st);
     trace := (trace st ++ rebootEvents w)%list |}.
Proof.
  intros Hat Hq. apply getMdChecking_quiet in Hq.
  unfold step. now rewrite Hat, Hq.
Qed.

Lemma step_resumed (w : world) (st : state) :
  at_ st = Idle -> checking (mdstatAt w (reads st)) ->
  step w st =
  {| at_ := Halted CheckResumed; reads := S (reads st); trace := trace st |}.
Proof.
  intros Hat Hc. apply getMdChecking_checking in Hc.
  destruct Hc as (count & Hc & Hpos).
  unfold step. rewrite Hat, Hc.
  destruct (count =? 0) eqn:E; [apply Z.eqb_eq in E; lia | reflexivity].
Qed.

Lemma steps_from_two (w : world) (n : nat) (h : ending) :
  (2 <= n)%nat -> at_ (steps w 2 start) = Halted h ->
  steps w n start = steps w 2 start.
Proof.
  intros Hn Hat. replace n with (2 + (n - 2))%nat by lia.
  rewrite steps_add. now apply steps_halted with (h := h).
Qed.

(** Nothing that [renderStatus] shows is a sleep or a reboot. *)
Lemma renderStatus_presentation (w : world) (n : nat) :
  filter keepControl (fst (renderStatus w n)) = [].
Proof.
  unfold renderStatus.
  destruct (getMdTimeLeft (mdstatAt w n)) as [timeLeft err].
  destruct (getMdProgress (mdstatAt w (S n))) as [progress err'].
  set (line := if String.eqb timeLeft EmptyString
               then Print "Reboot will occur when RAID check completes"
               else Print ("Reboot will occur in " ++ timeLeft)%string).
  assert (Hline : keepControl line = false)
    by (unfold line; now destruct (String.eqb timeLeft EmptyString)).
  destruct err' as [e'|]; [|destruct (drawProgressBar maxAlloc progress 50)];
    destruct err as [e|]; cbn [fst app]; rewrite ?filter_app;
    cbn [filter keepControl app]; now rewrite Hline.
Qed.

(** A panic is in what [renderStatus] shows only when it reports one. *)
Lemma renderStatus_panic (w : world) (n : nat) :
  snd (renderStatus w n) = true -> ~ In Panic (fst (renderStatus w n)).
Proof.
  unfold renderStatus.
  destruct (getMdTimeLeft (mdstatAt w n)) as [timeLeft err].
  destruct (getMdProgress (mdstatAt w (S n))) as [progress err'].
  set (line := if String.eqb timeLeft EmptyString
               then Print "Reboot will occur when RAID check completes"
               else Print ("Reboot will occur in " ++ timeLeft)%string).
  assert (Hline : line <> Panic)
    by (unfold line; now destruct (String.eqb timeLeft EmptyString)).
  destruct err' as [e'|]; [|destruct (drawProgressBar maxAlloc progress 50)];
    destruct err as [e|]; cbn [fst snd app]; try discriminate;
    intros _ Hin; rewrite ?in_app_iff in Hin; cbn [In] in Hin;
    intuition (congruence || discriminate).
Qed.

(** X4.  [waitForRaidAndReboot] waits for lines that contain [check] and
    for nothing else: when neither of its first two reads shows such a
    line, whatever else they show, a running resync included, it reboots at
    once, without a sleep and without a status line. *)
Theorem reboot_without_waiting (w : world) (n : nat) :
  quiet (mdstatAt w 0) -> quiet (mdstatAt w 1) -> (2 <= n)%nat ->
  steps w n start =
  {| at_ := Halted (if rebootErr w then RebootFailed else Rebooted);
     reads := 2;
     trace := rebootEvents w |}.
Proof.
  intros H0 H1 Hn.
  assert (E : steps w 2 start =
              {| at_ := Halted (if rebootErr w then RebootFailed else Rebooted);
                 reads := 2;
                 trace := rebootEvents w |}).
  { simpl. rewrite (step_leave w start eq_refl H0).
    now rewrite step_reboot. }
  rewrite <- E. eapply steps_from_two; [exact Hn|]. now rewrite E.
Qed.

Lemma reboot_without_waiting_witness :
  getMdProgress (mdstatAt resyncWorld 0) = (ratioPercent 2 21, None) /\
  steps resyncWorld 5 start =
  {| at_ := Halted Rebooted;
     reads := 2;
     trace := [Print "RAID check complete. Rebooting..."; RunReboot] |}.
Proof.
  split; [vm_compute; reflexivity|].
  apply (reboot_without_waiting resyncWorld 5); [apply getMdChecking_quiet; vm_compute; reflexivity
    | apply getMdChecking_quiet; vm_compute; reflexivity
    | lia].
Defined.

(** X5.  A check that appears between the read that leaves the loop and the
    read that follows it ends the program silently: nothing is printed,
    [reboot] is not run, and the status is not polled again. *)
Theorem resumed_check_ends_silently (w : world) (n : nat) :
  quiet (mdstatAt w 0) -> checking (mdstatAt w 1) -> (2 <= n)%nat ->
  steps w n start =
  {| at_ := Halted CheckResumed; reads := 2; trace := [] |}.
Proof.
  intros H0 H1 Hn.
  assert (E : steps w 2 start =
              {| at_ := Halted CheckResumed; reads := 2; trace := [] |}).
  { simpl. rewrite (step_leave w start eq_refl H0).
    now rewrite step_resumed. }
  rewrite <- E. eapply steps_from_two; [exact Hn|]. now rewrite E.
Qed.

Lemma resumed_check_ends_silently_witness :
  steps checkResumes 7 start =
  {| at_ := Halted CheckResumed; reads := 2; trace := [] |}.
Proof.
  apply (resumed_check_ends_silently checkResumes 7);
    [ apply getMdChecking_quiet; vm_compute; reflexivity
    | apply getMdChecking_checking; exists 1; split; vm_compute; reflexivity
    | lia ].
Defined.

(** While a check is seen, each iteration sleeps for the poll interval and
    reads the status three times. *)
Lemma steps_polling (w : world) (n : nat) (st : state) :
  at_ st = Polling ->
  (forall i, (i < n)%nat -> checking (mdstatAt w (reads st + 3 * i))) ->
  (forall i, (i < n)%nat -> scannerLines (mdstatAt w (reads st + 3 * i + 2))) ->
  at_ (steps w n st) = Polling /\
  reads (steps w n st) = (reads st + 3 * n)%nat /\
  filter keepControl (trace (steps w n st))
  = (filter keepControl (trace st) ++ repeat (Sleep pollInterval) n)%list.
Proof.
  revert st. induction n as [|n IH]; intros st Hat Hc Hl.
  - simpl. rewrite app_nil_r. repeat split; [assumption | lia].
  - cbn [steps]. rewrite step_poll; [|exact Hat|].
    2:{ specialize (Hc O ltac:(lia)). now rewrite Nat.add_0_r in Hc. }
    rewrite renderStatus_total.
    2:{ specialize (Hl O ltac:(lia)).
        now replace (reads st + 3 * 0 + 2)%nat with (S (S (reads st))) in Hl by lia. }
    match goal with |- context [steps w n ?s] => destruct (IH s) as (H1 & H2 & H3) end.
    + reflexivity.
    + cbn [reads]. intros i Hi. specialize (Hc (S i) ltac:(lia)).
      now replace (reads st + 3 * S i)%nat with (S (S (S (reads st))) + 3 * i)%nat
        in Hc by lia.
    + cbn [reads]. intros i Hi. specialize (Hl (S i) ltac:(lia)).
      now replace (reads st + 3 * S i + 2)%nat
        with (S (S (S (reads st))) + 3 * i + 2)%nat in Hl by lia.
    + rewrite H1, H2, H3. cbn [reads trace]. repeat split; [lia|].
      rewrite !filter_app, renderStatus_presentation. cbn [filter keepControl app].
      rewrite <- app_assoc. reflexivity.
Qed.

(** X6.  The schedule of the loop: when a check is seen by the first [n]
    iterations and by neither of the next two reads, the program has slept
    [n] times for the poll interval and for no other time, has read the
    status three times per iteration and twice more, and has then run
    [reboot], once. *)
Theorem reboot_after_n_polls (w : world) (n : nat) :
  (forall i, (i < n)%nat -> checking (mdstatAt w (3 * i))) ->
  (forall i, (i < n)%nat -> scannerLines (mdstatAt w (3 * i + 2))) ->
  quiet (mdstatAt w (3 * n)) -> quiet (mdstatAt w (3 * n + 1)) ->
  at_ (steps w (n + 2) start)
  = Halted (if rebootErr w then RebootFailed else Rebooted) /\
  reads (steps w (n + 2) start) = (3 * n + 2)%nat /\
  filter keepControl (trace (steps w (n + 2) start))
  = (repeat (Sleep pollInterval) n ++ [RunReboot])%list.
Proof.
  intros Hc Hl Hq1 Hq2.
  destruct (steps_polling w n start eq_refl Hc Hl) as (H1 & H2 & H3).
  change (reads start + 3 * n)%nat with (3 * n)%nat in H2.
  change (filter keepControl (trace start) ++ ?l)%list with l in H3.
  rewrite steps_add. cbn [steps].
  set (st := steps w n start) in *.
  rewrite (step_leave w st H1) by now rewrite H2.
  rewrite step_reboot; cbn [reads at_ trace];
    [|reflexivity | rewrite H2; now replace (S (3 * n)) with (3 * n + 1)%nat by lia].
  repeat split; [lia|].
  rewrite filter_app, H3. f_equal. unfold rebootEvents.
  now destruct (rebootErr w).
Qed.

Lemma reboot_after_n_polls_witness :
  at_ (steps checkThenIdle 4 start) = Halted Rebooted /\
  reads (steps checkThenIdle 4 start) = 8%nat /\
  filter keepControl (trace (steps checkThenIdle 4 start))
  = [Sleep pollInterval; Sleep pollInterval; RunReboot].
Proof.
  apply (reboot_after_n_polls checkThenIdle 2).
  - intros [|[|i]] Hi; [| | lia]; apply getMdChecking_checking; exists 1;
      split; vm_compute; reflexivity.
  - intros [|[|i]] Hi; [| | lia]; simpl;
      repeat constructor.
  - apply getMdChecking_quiet. vm_compute. reflexivity.
  - apply getMdChecking_quiet. vm_compute. reflexivity.
Defined.

Lemma sameControl_step (w1 w2 : world) (st1 st2 : state) :
  rebootErr w1 = rebootErr w2 ->
  (forall i, getMdChecking (mdstatAt w1 i) = getMdChecking (mdstatAt w2 i)) ->
  (forall i, scannerLines (mdstatAt w1 i)) ->
  (forall i, scannerLines (mdstatAt w2 i)) ->
  sameControl st1 st2 -> sameControl (step w1 st1) (step w2 st2).
Proof.
  intros Hr Hc Hl1 Hl2 (Hat & Hreads & Htrace). unfold sameControl, step.
  rewrite <- Hat, <- Hreads, <- Hc, <- Hr. destruct (at_ st1) eqn:Hat1.
  - destruct (getMdChecking (mdstatAt w1 (reads st1))) as [count [e|]].
    + cbn [at_ reads trace]. rewrite !filter_app, Htrace. auto.
    + destruct (count =? 0); [cbn [at_ reads trace]; auto|].
      pose proof (renderStatus_total w1 (S (reads st1)) (Hl1 _)) as Hok1.
      pose proof (renderStatus_total w2 (S (reads st1)) (Hl2 _)) as Hok2.
      pose proof (renderStatus_presentation w1 (S (reads st1))) as Hp1.
      pose proof (renderStatus_presentation w2 (S (reads st1))) as Hp2.
      destruct (renderStatus w1 (S (reads st1))) as [shown1 ok1].
      destruct (renderStatus w2 (S (reads st1))) as [shown2 ok2].
      simpl in Hok1, Hok2, Hp1, Hp2. subst ok1 ok2. cbn [at_ reads trace].
      rewrite !filter_app, Htrace, Hp1, Hp2. auto.
  - destruct (getMdChecking (mdstatAt w1 (reads st1))) as [count [e|]].
    + cbn [at_ reads trace]. rewrite !filter_app, Htrace. auto.
    + destruct (count =? 0); cbn [at_ reads trace]; [|auto].
      rewrite !filter_app, Htrace. auto.
  - repeat split; congruence.
Qed.

(** X7.  What the status shows besides the lines with [check] has no
    influence on the course of the loop: two runs whose reads count the same
    checks, and fail alike, sleep, read and reboot alike, whatever bar and
    estimate they display on the way. *)
Theorem control_depends_on_check_count_only (w1 w2 : world) (n : nat) :
  rebootErr w1 = rebootErr w2 ->
  (forall i, getMdChecking (mdstatAt w1 i) = getMdChecking (mdstatAt w2 i)) ->
  (forall i, scannerLines (mdstatAt w1 i)) ->
  (forall i, scannerLines (mdstatAt w2 i)) ->
  sameControl (steps w1 n start) (steps w2 n start).
Proof.
  intros Hr Hc Hl1 Hl2.
  assert (H : forall st1 st2, sameControl st1 st2 ->
                              sameControl (steps w1 n st1) (steps w2 n st2)).
  { induction n as [|n IH]; intros st1 st2 Hs; simpl; [exact Hs|].
    apply IH. now apply sameControl_step. }
  apply H. now split.
Qed.

Lemma control_depends_on_check_count_only_witness :
  fst (renderStatus checkThenIdle 1) <> fst (renderStatus delayedThenIdle 1) /\
  sameControl (steps checkThenIdle 4 start) (steps delayedThenIdle 4 start).
Proof.
  split; [vm_compute; discriminate|].
  apply (control_depends_on_check_count_only checkThenIdle delayedThenIdle 4).
  - reflexivity.
  - intros i. simpl. destruct (i <? 6)%nat; reflexivity.
  - intros i. simpl. destruct (i <? 6)%nat; repeat constructor.
  - intros i. simpl. destruct (i <? 6)%nat; repeat constructor.
Defined.

Lemma no_panic_step (w : world) (st : state) :
  (forall i, scannerLines (mdstatAt w i)) ->
  ~ In Panic (trace st) -> ~ In Panic (trace (step w st)).
Proof.
  intros Hlines Hst. unfold step. destruct (at_ st).
  - destruct (getMdChecking (mdstatAt w (reads st))) as [count [e|]].
    + cbn [trace]. rewrite in_app_iff. cbn [In].
      intuition discriminate.
    + destruct (count =? 0); [exact Hst|].
      pose proof (renderStatus_total w (S (reads st)) (Hlines _)) as Hok.
      pose proof (renderStatus_panic w (S (reads st)) Hok) as Hno.
      destruct (renderStatus w (S (reads st))) as [shown ok].
      cbn [fst] in Hno. cbn [trace]. rewrite !in_app_iff. cbn [In].
      intuition discriminate.
  - destruct (getMdChecking (mdstatAt w (reads st))) as [count [e|]].
    + cbn [trace]. rewrite in_app_iff. cbn [In]. intuition discriminate.
    + destruct (count =? 0); [|exact Hst].
      cbn [trace]. rewrite !in_app_iff. cbn [In].
      destruct (rebootErr w); cbn [In]; intuition discriminate.
  - exact Hst.
Qed.

(** X8.  Drawing the bar never stops [waitForRaidAndReboot]: whatever lines
    a scanner delivers, [strings.Repeat] is never called with a negative
    count, so no run of the loop panics. *)
Theorem waitForRaidAndReboot_never_panics (w : world) (n : nat) :
  (forall i, scannerLines (mdstatAt w i)) ->
  at_ (steps w n start) <> Halted Panicked /\
  ~ In Panic (trace (steps w n start)).
Proof.
  intros Hlines.
  assert (H : forall st,
             at_ st <> Halted Panicked /\ ~ In Panic (trace st) ->
             at_ (steps w n st) <> Halted Panicked /\
             ~ In Panic (trace (steps w n st))).
  { induction n as [|n IH]; intros st [H1 H2]; simpl; [now split|].
    apply IH. split; [now apply step_no_panic | now apply no_panic_step]. }
  apply H. split; [discriminate | intros []].
Qed.

Lemma waitForRaidAndReboot_never_panics_witness :
  at_ (steps checkThenIdle 3 start) <> Halted Panicked /\
  ~ In Panic (trace (steps checkThenIdle 3 start)).
Proof.
  apply (waitForRaidAndReboot_never_panics checkThenIdle 3).
  intros i. simpl. destruct (i <? 6)%nat; repeat constructor.
Defined.



Lemma rebootedLast_step (w : world) (st : state) :
  rebootedLast w st -> rebootedLast w (step w st).
Proof.
  unfold rebootedLast, step. destruct (at_ st) eqn:Hat.
  - intros Hno.
    destruct (getMdChecking (mdstatAt w (reads st))) as [count [e|]].
    + cbn [at_ trace]. rewrite in_app_iff. cbn [In]. intuition discriminate.
    + destruct (count =? 0); [exact Hno|].
      pose proof (renderStatus_no_reboot w (S (reads st))) as Hr.
      destruct (renderStatus w (S (reads st))) as [shown ok]. cbn [fst] in Hr.
      assert (Hno' : ~ In RunReboot
                       (trace st ++ [Sleep pollInterval; Print clearScreen]
                                 ++ shown)%list).
      { rewrite !in_app_iff. cbn [In]. intuition discriminate. }
      destruct ok; cbn [at_ trace]; [exact Hno' | now left].
  - intros Hno.
    destruct (getMdChecking (mdstatAt w (reads st))) as [count [e|]].
    + cbn [at_ trace]. left. rewrite in_app_iff. cbn [In].
      intuition discriminate.
    + destruct (count =? 0); cbn [at_ trace]; [|now left].
      right. now exists (trace st).
  - now rewrite Hat.
Qed.

(** X10.  [reboot] is the last thing the program does: in every run it is
    run at most once, right after its announcement, and nothing follows it
    but the fatal report of its own failure. *)
Theorem reboot_is_last (w : world) (n : nat) :
  rebootIsLast w (trace (steps w n start)) /\
  (List.length (filter isReboot (trace (steps w n start))) <= 1)%nat.
Proof.
  assert (H : forall st, rebootedLast w st -> rebootedLast w (steps w n st)).
  { induction n as [|n IH]; intros st Hst; simpl; [exact Hst|].
    apply IH. now apply rebootedLast_step. }
  assert (Hlast : rebootIsLast w (trace (steps w n start))).
  { specialize (H start). unfold rebootedLast in H.
    destruct (at_ (steps w n start)).
    - left. apply H. intros [].
    - left. apply H. intros [].
    - apply H. intros []. }
  split; [exact Hlast|].
  assert (Hzero : forall t, ~ In RunReboot t -> filter isReboot t = []).
  { induction t as [|ev t IH]; [reflexivity|]. cbn [In filter]. intros Hno.
    destruct ev; cbn [isReboot]; try (apply IH; tauto). tauto. }
  destruct Hlast as [Hno | (pre & Hno & ->)].
  - rewrite Hzero by assumption. simpl. lia.
  - rewrite filter_app, Hzero by assumption. unfold rebootEvents.
    destruct (rebootErr w); simpl; lia.
Qed.

(** ** The commands *)

(** X11.  [high] raises the speed limit before it looks at its argument: a
    minutes value that [strconv.Atoi] rejects ends the command with the
    limit already written, and never reset. *)
Theorem high_rejects_minutes_after_raising (writeErr : nat -> bool)
  (args : list string) :
  In (Die "Invalid minutes value: %v") (highCmd writeErr args) ->
  (exists arg rest, args = arg :: rest /\ Atoi arg = None) /\
  highCmd writeErr args
  = [Say "Setting raid check to high speed";
     Write speedLimitPath highSpeed;
     Die "Invalid minutes value: %v"] /\
  written speedLimitPath (highCmd writeErr args) = [highSpeed].
Proof.
  unfold highCmd, setSpeed, WriteFile.
  destruct (writeErr O).
  - cbn [In]. intros [H | [H | [H | []]]]; discriminate.
  - destruct args as [|arg rest].
    + cbn [In]. intros [H | [H | []]]; discriminate.
    + destruct (Atoi arg) as [minutes|] eqn:E.
      * destruct (writeErr 1%nat); cbn [In]; intuition discriminate.
      * intros _. split; [now exists arg, rest|]. split; reflexivity.
Qed.

Lemma high_rejects_minutes_after_raising_witness :
  highCmd (fun _ => false) ["10m"]
  = [Say "Setting raid check to high speed";
     Write speedLimitPath highSpeed;
     Die "Invalid minutes value: %v"].
Proof.
  apply (high_rejects_minutes_after_raising (fun _ => false) ["10m"]).
  vm_compute. right. right. left. reflexivity.
Defined.

Lemma maxMinutes_eq : maxMinutes = 153722867.
Proof. reflexivity. Qed.

Lemma Atoi_range (s : string) (n : Z) :
  Atoi s = Some n -> minInt <= n <= maxInt.
Proof.
  unfold Atoi. destruct s as [|c s]; [discriminate|].
  destruct (if Ascii.eqb c "-" then (true, s)
            else if Ascii.eqb c "+" then (false, s)
            else (false, String c s)) as [neg body].
  destruct body as [|d body]; [discriminate|].
  destruct (digitsValue (String d body) 0) as [un|]; [|discriminate].
  destruct ((minInt <=? (if neg then - un else un)) &&
            ((if neg then - un else un) <=? maxInt)) eqn:E; [|discriminate].
  intros [= <-]. apply andb_true_iff in E. lia.
Qed.

(** X12.  [high N] with a number of minutes writes the high limit, sleeps
    once and writes the normal limit; the sleep is computed in 64-bit
    nanoseconds, and is the [N] minutes asked for exactly when [N] is at
    most [maxMinutes] in absolute value.  Beyond, the product wraps
    around. *)
Theorem high_sleeps_then_resets (writeErr : nat -> bool) (arg : string)
  (rest : list string) (minutes : Z) :
  writeErr 0%nat = false -> writeErr 1%nat = false ->
  Atoi arg = Some minutes ->
  highCmd writeErr (arg :: rest)
  = [Say "Setting raid check to high speed";
     Write speedLimitPath highSpeed;
     Say ("for " ++ itoa minutes ++ " minutes");
     Wait (wrap64 (minutes * Minute));
     Write speedLimitPath normalSpeed] /\
  (wrap64 (minutes * Minute) = minutes * Minute <->
   - maxMinutes <= minutes <= maxMinutes).
Proof.
  intros H0 H1 Ha. split.
  - unfold highCmd, setSpeed, WriteFile. now rewrite H0, H1, Ha.
  - apply Atoi_range in Ha. rewrite maxMinutes_eq.
    unfold wrap64, minInt, maxInt, Minute in *. split.
    + intros H.
      assert (0 <= (minutes * (60 * 1000000000) + 2 ^ 63) mod 2 ^ 64 < 2 ^ 64)
        by (apply Z.mod_pos_bound; lia).
      lia.
    + intros H. rewrite Z.mod_small; lia.
Qed.

Lemma high_sleeps_then_resets_witness :
  waits (highCmd (fun _ => false) ["90"]) = [90 * Minute] /\
  written speedLimitPath (highCmd (fun _ => false) ["90"])
  = [highSpeed; normalSpeed].
Proof.
  destruct (high_sleeps_then_resets (fun _ => false) "90" [] 90
              eq_refl eq_refl eq_refl) as [-> _].
  split; reflexivity.
Defined.

(** A number of minutes one above [maxMinutes]: the sleep is negative, so
    [time.Sleep] returns at once and the limit is reset immediately. *)
Example high_overflowing_minutes :
  waits (highCmd (fun _ => false) ["153722868"]) = [-9223371993709551616].
Proof. vm_compute. reflexivity. Qed.

Lemma failuresAreFatal_polled (t : list event) :
  failuresAreFatal (map Polled t) = true.
Proof. induction t as [|ev t IH]; [reflexivity | exact IH]. Qed.

(** X13.  No command passes over a failed write: in every command that
    writes, a write that fails is followed by the fatal log and by nothing
    else, so that no later write, sleep, poll or reboot takes place. *)
Theorem failed_write_is_fatal (writeErr : nat -> bool) (args : list string)
  (w : world) (n : nat) :
  failuresAreFatal (normalCmd writeErr) = true /\
  failuresAreFatal (highCmd writeErr args) = true /\
  failuresAreFatal (lowCmd writeErr) = true /\
  failuresAreFatal (stopCmd writeErr) = true /\
  failuresAreFatal (startCmd writeErr) = true /\
  failuresAreFatal (forceRebootCmd writeErr w n) = true.
Proof.
  unfold normalCmd, highCmd, lowCmd, stopCmd, startCmd, forceRebootCmd,
    setSpeed, setSyncAction, WriteFile.
  repeat split; destruct (writeErr O); try reflexivity.
  - destruct args as [|arg rest]; [reflexivity|].
    destruct (Atoi arg); [|reflexivity].
    destruct (writeErr 1%nat); reflexivity.
  - apply failuresAreFatal_polled.
Qed.

(** X14.  [forcereboot] does not force the reboot: it asks the kernel to
    stop the check and then waits like [reboot].  When [reboot] is run, the
    write of [idle] has succeeded and two reads in a row have counted no
    check; a write that fails ends the command before the first read. *)
Theorem forcereboot_still_waits (writeErr : nat -> bool) (w : world) (n : nat) :
  In (Polled RunReboot) (forceRebootCmd writeErr w n) ->
  writeErr O = false /\
  forceRebootCmd writeErr w n
  = Write syncActionPath "idle" :: map Polled (trace (steps w n start)) /\
  exists i,
    getMdChecking (mdstatAt w i) = (0, None) /\
    getMdChecking (mdstatAt w (S i)) = (0, None).
Proof.
  unfold forceRebootCmd, setSyncAction, WriteFile.
  destruct (writeErr O).
  - cbn [In]. intros [H | [H | []]]; discriminate.
  - cbn [In]. intros [H | H]; [discriminate|].
    split; [reflexivity|]. split; [reflexivity|].
    apply in_map_iff in H. destruct H as (ev & [= ->] & Hin).
    pose proof (confirmed_steps w n start) as Hc. unfold confirmed in Hc at 2.
    destruct (at_ (steps w n start)).
    + exfalso. apply Hc; [intros [] | exact Hin].
    + exfalso. apply Hc; [intros [] | exact Hin].
    + destruct Hc as (_ & i & _ & Hi1 & Hi2); [intros [] | exact Hin|].
      now exists i.
Qed.

Lemma forcereboot_still_waits_witness :
  forceRebootCmd (fun _ => false) checkThenIdle 4
  = Write syncActionPath "idle"
    :: map Polled (trace (steps checkThenIdle 4 start)) /\
  ~ In (Polled RunReboot) (forceRebootCmd (fun _ => false) checkThenIdle 3).
Proof.
  split.
  - apply (forcereboot_still_waits (fun _ => false) checkThenIdle 4).
    vm_compute. repeat (try (left; reflexivity); right).
  - vm_compute. intuition discriminate.
Defined.

(** ** The current speed *)

Lemma spaceByte_ascii (c : ascii) :
  spaceByte c -> (RuneSelf <=? nat_of_ascii c)%nat = false.
Proof.
  unfold spaceByte, asciiSpace, RuneSelf. intros H. apply Nat.leb_gt.
  apply orb_true_iff in H. destruct H as [H | H].
  - apply andb_true_iff in H. destruct H as [_ H]. apply Nat.leb_le in H. lia.
  - apply Nat.eqb_eq in H. lia.
Qed.

Lemma solidByte_ascii (c : ascii) :
  solidByte c -> (RuneSelf <=? nat_of_ascii c)%nat = false.
Proof. intros [H _]. now apply Nat.leb_gt. Qed.

Lemma trimRight_space (s : string) :
  allBytes spaceByte s -> trimRight s = AllSpace.
Proof.
  induction s as [|c s IH]; [reflexivity|]. intros [Hc Hs].
  cbn [trimRight]. rewrite (IH Hs), (spaceByte_ascii c Hc). now rewrite Hc.
Qed.

Lemma lastByte_split (s : string) (l : ascii) :
  lastByte s = Some l -> exists body, s = body ++ String l EmptyString.
Proof.
  induction s as [|c s IH]; [discriminate|]. cbn [lastByte].
  destruct s as [|d s].
  - intros [= ->]. now exists EmptyString.
  - intros H. destruct (IH H) as [body ->]. now exists (String c body).
Qed.

(** The second loop stops at the last byte that is not white space. *)
Lemma trimRight_core (body post : string) (l : ascii) :
  solidByte l -> allBytes spaceByte post ->
  trimRight (body ++ String l post) = Kept (body ++ String l EmptyString).
Proof.
  intros Hl Hpost. induction body as [|c body IH].
  - cbn [append trimRight]. rewrite (trimRight_space post Hpost).
    rewrite (solidByte_ascii l Hl). destruct Hl as [_ ->]. reflexivity.
  - cbn [append trimRight]. now rewrite IH.
Qed.

Section TrimSpaceFacts.

Variable TrimFuncIsSpace : string -> string.
Variable TrimRightFuncIsSpace : string -> string.

Lemma TrimSpace_space (s : string) :
  allBytes spaceByte s ->
  TrimSpace TrimFuncIsSpace TrimRightFuncIsSpace s = EmptyString.
Proof.
  induction s as [|c s IH]; [reflexivity|]. intros [Hc Hs].
  cbn [TrimSpace]. rewrite (spaceByte_ascii c Hc), Hc. now apply IH.
Qed.

Lemma TrimSpace_core (core post : string) :
  solidEnds core -> allBytes spaceByte post ->
  TrimSpace TrimFuncIsSpace TrimRightFuncIsSpace (core ++ post) = core.
Proof.
  intros Hcore Hpost. destruct core as [|c core].
  - now apply TrimSpace_space.
  - destruct Hcore as (Hc & l & Hlast & Hl).
    destruct (lastByte_split _ _ Hlast) as [body E].
    change (String c core ++ post) with (String c (core ++ post)).
    cbn [TrimSpace]. rewrite (solidByte_ascii c Hc).
    destruct Hc as [_ ->].
    change (String c (core ++ post)) with (String c core ++ post).
    rewrite E, append_assoc. cbn [append].
    now rewrite trimRight_core.
Qed.

(** X15.  [getCurrentSpeed] returns the content of the file without the
    white space around it: for a content made of ASCII white space, a core
    that starts and ends with ASCII bytes that are not white space, and
    ASCII white space again, it returns the core, untouched inside, with no
    error; the line feed that the kernel puts after the number is dropped. *)
Theorem getCurrentSpeed_trims (pre core post : string) :
  allBytes spaceByte pre -> solidEnds core -> allBytes spaceByte post ->
  getCurrentSpeed TrimFuncIsSpace TrimRightFuncIsSpace
    (Some (pre ++ core ++ post))
  = (core, None).
Proof.
  intros Hpre Hcore Hpost. unfold getCurrentSpeed. f_equal.
  induction pre as [|c pre IH].
  - change (EmptyString ++ ?x) with x. now apply TrimSpace_core.
  - destruct Hpre as [Hc Hpre].
    change (String c pre ++ ?x) with (String c (pre ++ x)). cbn [TrimSpace].
    rewrite (spaceByte_ascii c Hc), Hc. now apply IH.
Qed.

End TrimSpaceFacts.

Lemma getCurrentSpeed_trims_witness :
  getCurrentSpeed (fun s => s) (fun s => s)
    (Some ("200000" ++ String "010" EmptyString))
  = ("200000", None).
Proof.
  apply (getCurrentSpeed_trims (fun s => s) (fun s => s) EmptyString "200000"
           (String "010" EmptyString)).
  - exact I.
  - split; [split; [vm_compute; lia | reflexivity]|].
    exists "0"%char. split; [reflexivity|]. split; [vm_compute; lia | reflexivity].
  - split; [reflexivity | exact I].
Defined.

(** ** The errors of [getMdProgress] *)

(** X16.  Which error [getMdProgress] returns, for every file: none exactly
    when some line carries a bar, also when the scan breaks after that line;
    the read error only when the scan broke and no line before carried a
    bar; "no progress information found" only for a file read to its end
    without one.  With an error the value is zero. *)
Theorem getMdProgress_errors (f : mdstat) :
  (snd (getMdProgress f) = None <->
   exists lines scanErr, f = Opened lines scanErr /\ Exists carriesBar lines) /\
  (snd (getMdProgress f) = Some FailedToOpen <-> f = OpenFails) /\
  (snd (getMdProgress f) = Some FailedToRead <->
   exists lines,
     f = Opened lines true /\ Forall (fun l => ~ carriesBar l) lines) /\
  (snd (getMdProgress f) = Some NoProgressInformation <->
   exists lines,
     f = Opened lines false /\ Forall (fun l => ~ carriesBar l) lines) /\
  (snd (getMdProgress f) <> None -> fst (getMdProgress f) = zero).
Proof.
  destruct f as [|lines scanErr].
  - simpl. repeat split; intros H; repeat crack; congruence.
  - assert (Hbar : forall p, scanProgress lines = Some p ->
                             Exists carriesBar lines).
    { intros p Hp. apply scanProgress_sound in Hp.
      destruct Hp as (line & pre & bar & post & Hin & M & E & Hb & _).
      apply Exists_exists. exists line. split; [exact Hin|].
      split; [exact M|]. now exists pre, bar, post. }
    assert (Hnone : forall ls, Exists carriesBar ls ->
                               Forall (fun l => ~ carriesBar l) ls -> False).
    { intros ls Hex Hall. apply Exists_exists in Hex.
      destruct Hex as (l & Hin & Hl). rewrite Forall_forall in Hall.
      exact (Hall l Hin Hl). }
    simpl. destruct (scanProgress lines) as [p|] eqn:E.
    + specialize (Hbar p eq_refl). simpl.
      repeat split; intros H; repeat crack;
        solve [congruence | exfalso; eauto | eauto].
    + apply scanProgress_none_iff in E.
      destruct scanErr; simpl; repeat split; intros H; repeat crack;
        solve [congruence | exfalso; eauto | eauto].
Qed.
